(** * Incident simulator: game phase, component ledger, observation loop,
      fault injection and reset

    A shallow embedding of the Lambda handlers and of the observation state
    machine of the interactive incident learning simulator:

    - [cdk/lambda/observer/*.ts]         the ten observer Lambdas,
    - [cdk/lib/construct/observation.ts] the Step Functions polling loop,
    - [cdk/lambda/security/{easy,hard}.ts], [cdk/lambda/resilience/{easy,hard}.ts]
                                          the four injection handlers,
    - [cdk/lambda/reset/index.ts]        the reset handler
                                          (under [cdk/lambda/time-record/index.ts]
                                          in this source tree).

    The handlers are [async] functions that read and write DynamoDB tables and
    call AWS control-plane APIs.  They are embedded in a state-and-exception
    monad over a [World]: the tables, the cloud resources the handlers touch,
    the Step Functions executions, the environment variables, and a schedule
    of transient API faults.  An [await]ed call that rejects is a [Throw];
    [try]/[catch] is [tryCatch].

    DynamoDB tables are finite maps and operations on an existing table are
    total.  Calls of the other AWS services first consult the fault schedule,
    so that any single call may fail on its own.  Of the console output only
    the lines that mark a step or report a caught error are kept, as trace
    events, next to the table writes and the mutating API calls. *)

From Stdlib Require Import ZArith Ascii String List Bool Lia.
From stdpp Require Import gmap strings list fin_maps pretty.

Local Open Scope string_scope.
Local Open Scope Z_scope.
Local Open Scope list_scope.

(** ** Data model *)

(** [CurrentState] of a scenario-table item. *)
Inductive Health := Green | Red.

#[global] Instance Health_eq_dec : EqDecision Health.
Proof. solve_decision. Defined.

(** The two scenario tables. *)
Inductive Scenario := Security | Resilience.

#[global] Instance Scenario_eq_dec : EqDecision Scenario.
Proof. solve_decision. Defined.

(** An item of the resource-mapping table.  An absent attribute is the empty
    string, which JavaScript also treats as falsy. *)
Record ResourceItem := mkResource {
  ResourceId : string;
  ResourceName : string;
  ResourceArn : string
}.

Definition truthy (s : string) : bool := negb (String.eqb s EmptyString).

Record Db := mkDb {
  gameStateTable : gmap string string;           (* GameId -> State *)
  securityScenarioTable : gmap string Health;    (* ComponentName -> CurrentState *)
  resilienceScenarioTable : gmap string Health;
  mappingTables : gmap string (gmap string ResourceItem)  (* table name -> ResourceType -> item *)
}.

(** An inbound rule as [DescribeSecurityGroups] reports it. *)
Record IpPermission := mkPerm {
  IpProtocol : string;
  FromPort : option Z;
  ToPort : option Z;
  IpRanges : list string;            (* CidrIp of each range *)
  UserIdGroupPairs : list string     (* GroupId of each pair *)
}.

Record SecurityGroup := mkSg {
  GroupId : string;
  IpPermissions : list IpPermission
}.

(** An EC2 instance: its state name, the instance-profile association, and
    how many polls a pending transition (stopping, pending) still takes. *)
Record Instance := mkInstance {
  StateName : string;
  AssociationId : string;
  ProfileArn : string;               (* empty when no instance profile *)
  lag : nat;
  countdown : nat
}.

Record PublicAccessBlock := mkPab {
  BlockPublicAcls : bool;
  BlockPublicPolicy : bool;
  IgnorePublicAcls : bool;
  RestrictPublicBuckets : bool
}.

Record Trail := mkTrail {
  TrailName : string;
  TrailARN : string;
  IsLogging : bool;
  IsMultiRegionTrail : bool;
  IncludeGlobalServiceEvents : bool
}.

Record Aws := mkAws {
  securityGroups : gmap string (list IpPermission);
  taggedGroups : gmap string (list string);      (* logical-id pattern -> group ids *)
  instances : gmap string Instance;
  instanceProfiles : gmap string (list string);  (* profile name -> role names *)
  buckets : gmap string (option PublicAccessBlock);
  trails : list Trail;
  lbStatus : option Z                            (* HTTP status of the load balancer *)
}.

Inductive ExecutionStatus := RUNNING | SUCCEEDED | FAILED | ABORTED.

#[global] Instance ExecutionStatus_eq_dec : EqDecision ExecutionStatus.
Proof. solve_decision. Defined.

Record Execution := mkExecution {
  executionArn : string;
  stateMachine : string;
  status : ExecutionStatus;
  inputGameId : string
}.

Record Env := mkEnv {
  RESOURCE_MAPPING_TABLE_NAME : option string;
  OBSERVATION_STATE_MACHINE_ARN : option string;
  MEMO_APP_INSTANCE_ID : option string;
  MEMO_APP_BUCKET_NAME : option string;
  MEMO_APP_CLOUDTRAIL_NAME : option string;
  MEMO_APP_EC2_ROLE_NAME : option string;
  ALB_SECURITY_GROUP_ID : option string
}.

Inductive Event :=
| Log (msg : string)                                   (* console.log / console.warn *)
| LogError (msg : string)                              (* console.error *)
| LedgerWrite (t : Scenario) (component : string) (h : Health)
| PhaseWrite (gameId : string) (state : string)
| Api (operation : string) (target : string).          (* a mutating API call that went through *)

Record World := mkWorld {
  db : Db;
  aws : Aws;
  executions : list Execution;
  env : Env;
  now : string;                      (* rendering of Date.now() *)
  random : nat;                      (* the next draw of Math.random, as an index *)
  faults : list (option string);     (* per API call: the error name it fails with *)
  trace : list Event
}.

Definition set_db (f : Db -> Db) (w : World) : World :=
  mkWorld (f (db w)) (aws w) (executions w) (env w) (now w) (random w) (faults w) (trace w).
Definition set_aws (f : Aws -> Aws) (w : World) : World :=
  mkWorld (db w) (f (aws w)) (executions w) (env w) (now w) (random w) (faults w) (trace w).
Definition set_executions (f : list Execution -> list Execution) (w : World) : World :=
  mkWorld (db w) (aws w) (f (executions w)) (env w) (now w) (random w) (faults w) (trace w).
Definition set_faults (fs : list (option string)) (w : World) : World :=
  mkWorld (db w) (aws w) (executions w) (env w) (now w) (random w) fs (trace w).
Definition emit (e : Event) (w : World) : World :=
  mkWorld (db w) (aws w) (executions w) (env w) (now w) (random w) (faults w) (trace w ++ [e]).

(** ** The handler monad *)

Record JsError := mkError { errName : string; errMessage : string }.

Inductive Res (A : Type) :=
| Return (a : A)
| Throw (e : JsError).
Arguments Return {A} a.
Arguments Throw {A} e.

Definition M (A : Type) : Type := World -> Res A * World.

Definition ret {A} (a : A) : M A := fun w => (Return a, w).
Definition throw {A} (e : JsError) : M A := fun w => (Throw e, w).
Definition bind {A B} (m : M A) (k : A -> M B) : M B :=
  fun w => match m w with
           | (Return a, w') => k a w'
           | (Throw e, w') => (Throw e, w')
           end.
Definition tryCatch {A} (m : M A) (h : JsError -> M A) : M A :=
  fun w => match m w with
           | (Return a, w') => (Return a, w')
           | (Throw e, w') => h e w'
           end.

Notation "'let*' x := m 'in' k" := (bind m (fun x => k))
  (at level 10, x pattern, m at level 100, k at level 200).
Notation "m >> k" := (bind m (fun _ => k))
  (at level 100, k at level 200, right associativity).

Definition gets {A} (f : World -> A) : M A := fun w => (Return (f w), w).
Definition modify (f : World -> World) : M unit := fun w => (Return tt, f w).

(** [new Error(msg)] *)
Definition Error (msg : string) : JsError := mkError "Error" msg.

Definition consoleLog (msg : string) : M unit := modify (emit (Log msg)).
Definition consoleError (msg : string) : M unit := modify (emit (LogError msg)).

(** [try { m } catch (error) { console.error(msg, error); throw error; }] *)
Definition rethrow {A} (msg : string) (m : M A) : M A :=
  tryCatch m (fun e => consoleError msg >> throw e).

(** [for (const x of xs) { body x }] *)
Fixpoint forOf {A} (xs : list A) (body : A -> M unit) : M unit :=
  match xs with
  | [] => ret tt
  | x :: rest => body x >> forOf rest body
  end.

(** [process.env.X || fallback] *)
Definition orDefault (v : option string) (fallback : string) : string :=
  match v with
  | Some s => if truthy s then s else fallback
  | None => fallback
  end.

(** ** DynamoDB *)

Definition scenarioTable (t : Scenario) (d : Db) : gmap string Health :=
  match t with
  | Security => securityScenarioTable d
  | Resilience => resilienceScenarioTable d
  end.

Definition putComponent (t : Scenario) (name : string) (h : Health) (d : Db) : Db :=
  match t with
  | Security =>
      mkDb (gameStateTable d) (<[name := h]> (securityScenarioTable d))
           (resilienceScenarioTable d) (mappingTables d)
  | Resilience =>
      mkDb (gameStateTable d) (securityScenarioTable d)
           (<[name := h]> (resilienceScenarioTable d)) (mappingTables d)
  end.

Definition putGameState (gameId state : string) (d : Db) : Db :=
  mkDb (<[gameId := state]> (gameStateTable d)) (securityScenarioTable d)
       (resilienceScenarioTable d) (mappingTables d).

(** [UpdateCommand] with [SET CurrentState = :state] on key [ComponentName]. *)
Definition ddbUpdateComponent (t : Scenario) (name : string) (h : Health) : M unit :=
  modify (fun w => emit (LedgerWrite t name h) (set_db (putComponent t name h) w)).

(** [UpdateCommand] with [SET #state = :state] on key [GameId]. *)
Definition ddbUpdateGameState (gameId state : string) : M unit :=
  modify (fun w => emit (PhaseWrite gameId state) (set_db (putGameState gameId state) w)).

(** [GetCommand] on the game-state table; [Item?.State]. *)
Definition ddbGetGameState (gameId : string) : M (option string) :=
  gets (fun w => gameStateTable (db w) !! gameId).

(** [ScanCommand]: the [ComponentName] of every item. *)
Definition ddbScan (t : Scenario) : M (list string) :=
  gets (fun w => (map_to_list (scenarioTable t (db w))).*1).

(** [GetCommand] on a resource-mapping table given by name. *)
Definition ddbGetMapping (table key : string) : M (option ResourceItem) :=
  fun w => match mappingTables (db w) !! table with
           | Some t => (Return (t !! key), w)
           | None => (Throw (mkError "ResourceNotFoundException"
                                     "Requested resource not found"), w)
           end.

Definition resourceMappingTableName : M string :=
  gets (fun w => orDefault (RESOURCE_MAPPING_TABLE_NAME (env w)) "ResourceMappingTable").

(** [!item || !item.ResourceId] *)
Definition hasResourceId (item : option ResourceItem) : bool :=
  match item with
  | Some it => truthy (ResourceId it)
  | None => false
  end.

Definition resourceIdOf (item : option ResourceItem) : string :=
  match item with
  | Some it => ResourceId it
  | None => EmptyString
  end.

(** ** The AWS control plane *)

(** Every SDK call meets the fault schedule first. *)
Definition apiCall : M unit :=
  fun w => match faults w with
           | Some n :: fs => (Throw (mkError n "the service call failed"), set_faults fs w)
           | None :: fs => (Return tt, set_faults fs w)
           | [] => (Return tt, w)
           end.

Definition apiEvent (operation target : string) : M unit :=
  modify (emit (Api operation target)).

Definition portIs (p : option Z) (n : Z) : bool :=
  match p with
  | Some m => Z.eqb m n
  | None => false
  end.

Definition optZ_eqb (a b : option Z) : bool :=
  match a, b with
  | Some x, Some y => Z.eqb x y
  | None, None => true
  | _, _ => false
  end.

Definition mem (s : string) (l : list string) : bool := existsb (String.eqb s) l.

(** *** Security groups *)

Fixpoint lookupGroups (sgs : gmap string (list IpPermission)) (ids : list string)
  : option (list SecurityGroup) :=
  match ids with
  | [] => Some []
  | id :: rest =>
      match sgs !! id, lookupGroups sgs rest with
      | Some perms, Some l => Some (mkSg id perms :: l)
      | _, _ => None
      end
  end.

(** [DescribeSecurityGroups] with [GroupIds]; without ids it lists all groups. *)
Definition describeSecurityGroups (ids : list string) : M (list SecurityGroup) :=
  apiCall >>
  fun w =>
    match ids with
    | [] => (Return (List.map (fun kv => mkSg kv.1 kv.2)
                              (map_to_list (securityGroups (aws w)))), w)
    | _ =>
        match lookupGroups (securityGroups (aws w)) ids with
        | Some l => (Return l, w)
        | None => (Throw (mkError "InvalidGroup.NotFound"
                                  "The security group does not exist"), w)
        end
    end.

(** [DescribeSecurityGroups] with the two CloudFormation tag filters. *)
Definition describeSecurityGroupsByLogicalId (pattern : string) : M (list SecurityGroup) :=
  apiCall >>
  gets (fun w =>
          omap (fun id => mkSg id <$> securityGroups (aws w) !! id)
               (default [] (taggedGroups (aws w) !! pattern))).

Definition sameRule (p q : IpPermission) : bool :=
  String.eqb (IpProtocol p) (IpProtocol q)
  && optZ_eqb (FromPort p) (FromPort q)
  && optZ_eqb (ToPort p) (ToPort q).

(** What is left of a stored rule once the sources named by [req] for the
    same protocol and ports are taken out. *)
Definition subtractRule (req : list IpPermission) (q : IpPermission) : IpPermission :=
  let hits := List.filter (sameRule q) req in
  mkPerm (IpProtocol q) (FromPort q) (ToPort q)
    (List.filter (fun c => negb (existsb (fun p => mem c (IpRanges p)) hits)) (IpRanges q))
    (List.filter (fun g => negb (existsb (fun p => mem g (UserIdGroupPairs p)) hits))
                 (UserIdGroupPairs q)).

Definition noSource (q : IpPermission) : bool :=
  match IpRanges q, UserIdGroupPairs q with
  | [], [] => true
  | _, _ => false
  end.

Definition revokeRules (req stored : list IpPermission) : list IpPermission :=
  List.filter (fun q => negb (noSource q)) (List.map (subtractRule req) stored).

Definition setGroup (gid : string) (perms : list IpPermission) (a : Aws) : Aws :=
  mkAws (<[gid := perms]> (securityGroups a)) (taggedGroups a) (instances a)
        (instanceProfiles a) (buckets a) (trails a) (lbStatus a).

(** [RevokeSecurityGroupIngress]: rules that are not there are passed over. *)
Definition revokeSecurityGroupIngress (gid : string) (req : list IpPermission) : M unit :=
  apiCall >>
  fun w =>
    match securityGroups (aws w) !! gid with
    | Some stored =>
        (Return tt,
         emit (Api "RevokeSecurityGroupIngress" gid)
              (set_aws (setGroup gid (revokeRules req stored)) w))
    | None => (Throw (mkError "InvalidGroup.NotFound"
                              "The security group does not exist"), w)
    end.

Definition alreadyGranted (stored : list IpPermission) (p : IpPermission) : bool :=
  existsb (fun q => sameRule p q
                    && (existsb (fun c => mem c (IpRanges q)) (IpRanges p)
                        || existsb (fun g => mem g (UserIdGroupPairs q)) (UserIdGroupPairs p)))
          stored.

Definition addRule (stored : list IpPermission) (p : IpPermission) : list IpPermission :=
  if existsb (sameRule p) stored
  then List.map (fun q => if sameRule p q
                          then mkPerm (IpProtocol q) (FromPort q) (ToPort q)
                                      (IpRanges q ++ IpRanges p)
                                      (UserIdGroupPairs q ++ UserIdGroupPairs p)
                          else q) stored
  else stored ++ [p].

(** [AuthorizeSecurityGroupIngress]: a grant that exists already is refused. *)
Definition authorizeSecurityGroupIngress (gid : string) (req : list IpPermission) : M unit :=
  apiCall >>
  fun w =>
    match securityGroups (aws w) !! gid with
    | Some stored =>
        if existsb (alreadyGranted stored) req
        then (Throw (mkError "InvalidPermission.Duplicate"
                             "the specified rule already exists"), w)
        else (Return tt,
              emit (Api "AuthorizeSecurityGroupIngress" gid)
                   (set_aws (setGroup gid (fold_left addRule req stored)) w))
    | None => (Throw (mkError "InvalidGroup.NotFound"
                              "The security group does not exist"), w)
    end.

(** *** EC2 instances *)

Definition withState (s : string) (i : Instance) : Instance :=
  mkInstance s (AssociationId i) (ProfileArn i) (lag i) (countdown i).

Definition withCountdown (n : nat) (i : Instance) : Instance :=
  mkInstance (StateName i) (AssociationId i) (ProfileArn i) (lag i) n.

Definition withProfile (arn : string) (i : Instance) : Instance :=
  mkInstance (StateName i) (AssociationId i) arn (lag i) (countdown i).

(** A transition whose countdown has run out is complete. *)
Definition settle (i : Instance) : Instance :=
  match countdown i with
  | O => if String.eqb (StateName i) "stopping" then withState "stopped" i
         else if String.eqb (StateName i) "pending" then withState "running" i
         else i
  | S _ => i
  end.

Definition setInstances (f : gmap string Instance -> gmap string Instance) (a : Aws) : Aws :=
  mkAws (securityGroups a) (taggedGroups a) (f (instances a))
        (instanceProfiles a) (buckets a) (trails a) (lbStatus a).

Fixpoint lookupInstances (insts : gmap string Instance) (ids : list string)
  : option (list (string * Instance)) :=
  match ids with
  | [] => Some []
  | id :: rest =>
      match insts !! id, lookupInstances insts rest with
      | Some i, Some l => Some ((id, settle i) :: l)
      | _, _ => None
      end
  end.

(** [DescribeInstances]: the instances of all reservations, in order. *)
Definition describeInstances (ids : list string) : M (list (string * Instance)) :=
  apiCall >>
  fun w =>
    match ids with
    | [] => (Return (List.map (fun kv => (kv.1, settle kv.2))
                              (map_to_list (instances (aws w)))), w)
    | _ =>
        match lookupInstances (instances (aws w)) ids with
        | Some l => (Return l, w)
        | None => (Throw (mkError "InvalidInstanceID.NotFound"
                                  "The instance ID does not exist"), w)
        end
    end.

(** [setTimeout] for [seconds]: pending transitions get that much closer. *)
Definition sleep (seconds : nat) : M unit :=
  modify (set_aws (setInstances
    (fmap (fun i => withCountdown (countdown i - seconds)%nat i)))).

Definition stopInstances (id : string) : M unit :=
  apiCall >>
  fun w =>
    match instances (aws w) !! id with
    | Some i0 =>
        let i := settle i0 in
        if String.eqb (StateName i) "running" || String.eqb (StateName i) "pending"
        then (Return tt,
              emit (Api "StopInstances" id)
                   (set_aws (setInstances
                      <[id := withCountdown (lag i) (withState "stopping" i)]>) w))
        else if String.eqb (StateName i) "stopped" || String.eqb (StateName i) "stopping"
        then (Return tt, emit (Api "StopInstances" id) w)
        else (Throw (mkError "IncorrectInstanceState"
                             "The instance is not in a state from which it can be stopped"), w)
    | None => (Throw (mkError "InvalidInstanceID.NotFound"
                              "The instance ID does not exist"), w)
    end.

Definition startInstances (id : string) : M unit :=
  apiCall >>
  fun w =>
    match instances (aws w) !! id with
    | Some i0 =>
        let i := settle i0 in
        if String.eqb (StateName i) "stopped"
        then (Return tt,
              emit (Api "StartInstances" id)
                   (set_aws (setInstances
                      <[id := withCountdown (lag i) (withState "pending" i)]>) w))
        else if String.eqb (StateName i) "running" || String.eqb (StateName i) "pending"
        then (Return tt, emit (Api "StartInstances" id) w)
        else (Throw (mkError "IncorrectInstanceState"
                             "The instance is not in a state from which it can be started"), w)
    | None => (Throw (mkError "InvalidInstanceID.NotFound"
                              "The instance ID does not exist"), w)
    end.

(** *** Instance profiles *)

(** [DescribeIamInstanceProfileAssociations] filtered by [instance-id]:
    the association ids of the listed instances that carry a profile. *)
Definition describeIamInstanceProfileAssociations (ids : list string) : M (list string) :=
  apiCall >>
  gets (fun w =>
          omap (fun id => match instances (aws w) !! id with
                          | Some i => if truthy (ProfileArn i)
                                      then Some (AssociationId i) else None
                          | None => None
                          end) ids).

Definition replaceIamInstanceProfileAssociation (associationId arn : string) : M unit :=
  apiCall >>
  fun w =>
    if existsb (fun kv => String.eqb (AssociationId kv.2) associationId)
               (map_to_list (instances (aws w)))
    then (Return tt,
          emit (Api "ReplaceIamInstanceProfileAssociation" associationId)
               (set_aws (setInstances
                  (fmap (fun i => if String.eqb (AssociationId i) associationId
                                  then withProfile arn i else i))) w))
    else (Throw (mkError "InvalidAssociationID.NotFound"
                         "The association ID does not exist"), w).

(** [iam.getInstanceProfile]: the role names of the profile. *)
Definition getInstanceProfile (profileName : string) : M (list string) :=
  apiCall >>
  fun w =>
    match instanceProfiles (aws w) !! profileName with
    | Some roles => (Return roles, w)
    | None => (Throw (mkError "NoSuchEntity" "Instance profile cannot be found"), w)
    end.

(** *** S3 public access block *)

Definition setBuckets (f : gmap string (option PublicAccessBlock)
                           -> gmap string (option PublicAccessBlock)) (a : Aws) : Aws :=
  mkAws (securityGroups a) (taggedGroups a) (instances a)
        (instanceProfiles a) (f (buckets a)) (trails a) (lbStatus a).

Definition getPublicAccessBlock (bucket : string) : M PublicAccessBlock :=
  apiCall >>
  fun w =>
    match buckets (aws w) !! bucket with
    | Some (Some config) => (Return config, w)
    | Some None => (Throw (mkError "NoSuchPublicAccessBlockConfiguration"
                                   "The public access block configuration was not found"), w)
    | None => (Throw (mkError "NoSuchBucket" "The specified bucket does not exist"), w)
    end.

Definition putPublicAccessBlock (bucket : string) (config : PublicAccessBlock) : M unit :=
  apiCall >>
  fun w =>
    match buckets (aws w) !! bucket with
    | Some _ => (Return tt,
                 emit (Api "PutPublicAccessBlock" bucket)
                      (set_aws (setBuckets <[bucket := Some config]>) w))
    | None => (Throw (mkError "NoSuchBucket" "The specified bucket does not exist"), w)
    end.

(** *** CloudTrail *)

Definition setTrails (f : list Trail -> list Trail) (a : Aws) : Aws :=
  mkAws (securityGroups a) (taggedGroups a) (instances a)
        (instanceProfiles a) (buckets a) (f (trails a)) (lbStatus a).

(** A trail is addressed by its name or by its ARN. *)
Definition isTrail (nameOrArn : string) (t : Trail) : bool :=
  String.eqb (TrailName t) nameOrArn || String.eqb (TrailARN t) nameOrArn.

Definition describeTrails (names : list string) : M (list Trail) :=
  apiCall >>
  gets (fun w => match names with
                 | [] => trails (aws w)
                 | _ => List.filter (fun t => existsb (fun n => isTrail n t) names)
                                    (trails (aws w))
                 end).

Definition trailNotFound : JsError :=
  mkError "TrailNotFoundException" "Unknown trail".

Definition getTrailStatus (name : string) : M bool :=
  apiCall >>
  fun w =>
    match List.find (isTrail name) (trails (aws w)) with
    | Some t => (Return (IsLogging t), w)
    | None => (Throw trailNotFound, w)
    end.

Definition updateTrails (name : string) (f : Trail -> Trail) (operation : string) : M unit :=
  apiCall >>
  fun w =>
    match List.find (isTrail name) (trails (aws w)) with
    | Some _ => (Return tt,
                 emit (Api operation name)
                      (set_aws (setTrails
                         (List.map (fun t => if isTrail name t then f t else t))) w))
    | None => (Throw trailNotFound, w)
    end.

Definition startLogging (name : string) : M unit :=
  updateTrails name
    (fun t => mkTrail (TrailName t) (TrailARN t) true
                      (IsMultiRegionTrail t) (IncludeGlobalServiceEvents t))
    "StartLogging".

(** [UpdateTrail] with [IsMultiRegionTrail] and [IncludeGlobalServiceEvents]. *)
Definition updateTrail (name : string) (multiRegion globalEvents : bool) : M unit :=
  updateTrails name
    (fun t => mkTrail (TrailName t) (TrailARN t) (IsLogging t) multiRegion globalEvents)
    "UpdateTrail".

(** *** Systems Manager, HTTP *)

(** [SendCommand] with [AWS-RunShellScript] on one instance. *)
Definition sendCommand (instanceId : string) : M unit :=
  apiCall >>
  fun w =>
    match instances (aws w) !! instanceId with
    | Some _ => (Return tt, emit (Api "SendCommand" instanceId) w)
    | None => (Throw (mkError "ValidationException" "invalid instance id"), w)
    end.

(** [axios.get]: rejects on a timeout and on a status outside 2xx. *)
Definition httpGetLoadBalancer : M Z :=
  fun w =>
    match lbStatus (aws w) with
    | Some s => if (200 <=? s) && (s <? 300) then (Return s, w)
                else (Throw (mkError "AxiosError" "Request failed"), w)
    | None => (Throw (mkError "AxiosError" "timeout of 2000ms exceeded"), w)
    end.

(** *** Step Functions *)

(** [ListExecutions] with [statusFilter: RUNNING] and [maxResults: 100]. *)
Definition listRunningExecutions (stateMachineArn : string) : M (list Execution) :=
  apiCall >>
  gets (fun w =>
          take 100 (List.filter
                      (fun e => String.eqb (stateMachine e) stateMachineArn
                                && bool_decide (status e = RUNNING))
                      (executions w))).

Definition abort (arn : string) (e : Execution) : Execution :=
  if String.eqb (executionArn e) arn && bool_decide (status e = RUNNING)
  then mkExecution (executionArn e) (stateMachine e) ABORTED (inputGameId e)
  else e.

Definition stopExecution (arn : string) : M unit :=
  apiCall >>
  fun w =>
    if existsb (fun e => String.eqb (executionArn e) arn) (executions w)
    then (Return tt,
          emit (Api "StopExecution" arn) (set_executions (List.map (abort arn)) w))
    else (Throw (mkError "ExecutionDoesNotExist" "Execution does not exist"), w).

Definition startExecution (stateMachineArn name gameId : string) : M string :=
  apiCall >>
  fun w =>
    let arn := stateMachineArn +:+ ":" +:+ name in
    if existsb (fun e => String.eqb (executionArn e) arn) (executions w)
    then (Throw (mkError "ExecutionAlreadyExists" "Execution already exists"), w)
    else (Return arn,
          emit (Api "StartExecution" arn)
               (set_executions
                  (fun es => (es ++ [mkExecution arn stateMachineArn RUNNING gameId])%list) w)).

(** ** The observer Lambdas ([cdk/lambda/observer/*.ts]) *)

Module Observer.

(** [updateDynamoDBState]: each observer file has its own copy, bound to the
    security or to the resilience scenario table. *)
Definition updateDynamoDBState (t : Scenario) (componentName : string)
    (currentState : Health) : M unit :=
  rethrow "Error updating DynamoDB"
    (ddbUpdateComponent t componentName currentState).

(** The lookups [getAlbSecurityGroupId], [getRdsSecurityGroupId],
    [getS3BucketName]: the [ResourceId] of one resource type, or an error. *)
Definition getMappedResourceId (resourceType notFound logMsg : string) : M string :=
  rethrow logMsg
    (let* table := resourceMappingTableName in
     let* item := ddbGetMapping table resourceType in
     if hasResourceId item then ret (resourceIdOf item)
     else throw (Error notFound)).

Definition getAlbSecurityGroupId : M string :=
  getMappedResourceId "ALB_SG"
    "ALB security group ID not found in resource mapping table"
    "Error getting ALB security group ID".

Definition getRdsSecurityGroupId : M string :=
  getMappedResourceId "RDS_SG"
    "RDS security group ID not found in resource mapping table"
    "Error getting RDS security group ID".

Definition getS3BucketName : M string :=
  getMappedResourceId "S3_BUCKET"
    "S3 bucket name not found in resource mapping table"
    "Error getting S3 bucket name".

(** A single id becomes a one-element array. *)
Definition getEc2SecurityGroupIds : M (list string) :=
  let* id := getMappedResourceId "EC2_SG"
               "EC2 security group IDs not found in resource mapping table"
               "Error getting EC2 security group IDs" in
  ret [id].

(** It tests [ResourceId] and returns [ResourceArn]. *)
Definition getCloudTrailArn : M string :=
  rethrow "Error getting cloudtrail name"
    (let* table := resourceMappingTableName in
     let* item := ddbGetMapping table "CLOUDTRAIL" in
     match item with
     | Some it => if truthy (ResourceId it) then ret (ResourceArn it)
                  else throw (Error "cloudtrail name not found in resource mapping table")
     | None => throw (Error "cloudtrail name not found in resource mapping table")
     end).

Definition getEc2InstanceIds : M (list string) :=
  rethrow "Error getting EC2 instance IDs"
    (let* table := resourceMappingTableName in
     let* result1 := ddbGetMapping table "EC2_INSTANCE_1" in
     let* result2 := ddbGetMapping table "EC2_INSTANCE_2" in
     let instanceIds :=
       ((if hasResourceId result1 then [resourceIdOf result1] else [])
        ++ (if hasResourceId result2 then [resourceIdOf result2] else []))%list in
     match instanceIds with
     | [] => throw (Error "EC2 instance IDs not found in resource mapping table")
     | _ => ret instanceIds
     end).

(** A rule on [port] that is open to [0.0.0.0/0]. *)
Definition openToWorld (port : Z) (rule : IpPermission) : bool :=
  (portIs (FromPort rule) port || portIs (ToPort rule) port)
  && mem "0.0.0.0/0" (IpRanges rule).

(** security-albsg: is SSH open to the world on the ALB group? *)
Definition checkAlbSecurityGroupSsh (securityGroupId : string) : M bool :=
  rethrow "Error checking ALB security group"
    (let* groups := describeSecurityGroups [securityGroupId] in
     match groups with
     | [] => consoleError "Security group not found" >> ret false
     | securityGroup :: _ => ret (existsb (openToWorld 22) (IpPermissions securityGroup))
     end).

(** security-ec2sg: the same on any of the EC2 groups. *)
Definition checkEc2SecurityGroupsSsh (securityGroupIds : list string) : M bool :=
  rethrow "Error checking EC2 security groups"
    (let* groups := describeSecurityGroups securityGroupIds in
     match groups with
     | [] => consoleError "No security groups found for the provided IDs" >> ret false
     | _ => ret (existsb (fun sg => existsb (openToWorld 22) (IpPermissions sg)) groups)
     end).

(** security-rdssg: port 3306 open to the world. *)
Definition checkRdsSecurityGroup (securityGroupId : string) : M bool :=
  rethrow "Error checking RDS security group"
    (let* groups := describeSecurityGroups [securityGroupId] in
     match groups with
     | [] => consoleError "Security group not found" >> ret false
     | securityGroup :: _ => ret (existsb (openToWorld 3306) (IpPermissions securityGroup))
     end).

(** security-s3: is the public access block off? *)
Definition checkS3PublicAccessBlock (bucketName : string) : M bool :=
  rethrow "Error checking S3 public access block"
    (tryCatch
       (let* config := getPublicAccessBlock bucketName in
        let isFullyBlocked :=
          BlockPublicAcls config && BlockPublicPolicy config
          && IgnorePublicAcls config && RestrictPublicBuckets config in
        ret (negb isFullyBlocked))
       (fun error =>
          if String.eqb (errName error) "NoSuchPublicAccessBlockConfiguration"
          then ret true
          else throw error)).

(** security-cloudtrail: is the trail not logging? *)
Definition checkCloudTrailStatus (cloudTrailArn : string) : M bool :=
  rethrow "Error checking CloudTrail status"
    (let* trailList := describeTrails [] in
     match trailList with
     | [] => consoleLog "No CloudTrail trails found" >> ret true
     | _ => let* isLogging := getTrailStatus cloudTrailArn in
            ret (negb isLogging)
     end).

(** [arn.split("/").pop()] *)
Fixpoint lastSegmentFrom (s acc : string) : string :=
  match s with
  | EmptyString => acc
  | String c rest =>
      if Ascii.eqb c "/"%char then lastSegmentFrom rest EmptyString
      else lastSegmentFrom rest (acc +:+ String c EmptyString)
  end.

Definition lastSegment (s : string) : string := lastSegmentFrom s EmptyString.

(** The two nested loops of [checkEc2Roles] over the described instances. *)
Fixpoint checkEc2RolesLoop (described : list (string * Instance)) (safeRoleName : string)
    (checkResult : bool) : M bool :=
  match described with
  | [] => ret checkResult
  | (_, instance) :: rest =>
      if truthy (ProfileArn instance)
      then
        let profileName := lastSegment (ProfileArn instance) in
        if truthy profileName
        then
          let* roles := getInstanceProfile profileName in
          checkEc2RolesLoop rest safeRoleName
            (checkResult && forallb (fun role => String.eqb role safeRoleName) roles)
        else
          consoleError "Could not extract profile name from ARN" >>
          checkEc2RolesLoop rest safeRoleName checkResult
      else checkEc2RolesLoop rest safeRoleName checkResult
  end.

(** security-ec2role: do all instance profiles carry the safe role only? *)
Definition checkEc2Roles (instanceIds : list string) (safeRoleName : string) : M bool :=
  rethrow "Error checking EC2 roles"
    (let* described := describeInstances instanceIds in
     match described with
     | [] => consoleError "No EC2 instances found" >> ret false
     | _ => checkEc2RolesLoop described safeRoleName true
     end).

Definition getSafeRoleName : M string :=
  rethrow "Error getting safe role name"
    (let* table := resourceMappingTableName in
     let* item := ddbGetMapping table "EC2_SAFE_ROLE" in
     match item with
     | Some it =>
         if truthy (ResourceId it)
         then
           rethrow "Error getting role from instance profile"
             (let* roles := getInstanceProfile (ResourceName it) in
              match roles with
              | role :: _ => ret role
              | [] => throw (Error "No roles found in instance profile")
              end)
         else throw (Error "unsafe role not found in resource mapping table")
     | None => throw (Error "unsafe role not found in resource mapping table")
     end).

(** resilience-albsg: is HTTP from the world missing on the ALB group? *)
Definition checkAlbSecurityGroupHttp (securityGroupId : string) : M bool :=
  rethrow "Error checking ALB security group"
    (let* groups := describeSecurityGroups [securityGroupId] in
     match groups with
     | [] => consoleError "Security group not found" >> ret true
     | securityGroup :: _ =>
         ret (negb (existsb (openToWorld 80) (IpPermissions securityGroup)))
     end).

(** A rule on port 8080 that lets the ALB group in. *)
Definition allowsAlb (albSecurityGroupId : string) (rule : IpPermission) : bool :=
  (portIs (FromPort rule) 8080 || portIs (ToPort rule) 8080)
  && mem albSecurityGroupId (UserIdGroupPairs rule).

(** resilience-ec2sg: does some EC2 group lack the rule for the ALB? *)
Definition checkEc2SecurityGroupsAlb (ec2SecurityGroupIds : list string)
    (albSecurityGroupId : string) : M bool :=
  rethrow "Error checking EC2 security groups"
    (let* groups := describeSecurityGroups ec2SecurityGroupIds in
     match groups with
     | [] => consoleError "No security groups found for the provided IDs" >> ret true
     | _ => ret (existsb (fun sg => negb (existsb (allowsAlb albSecurityGroupId)
                                                  (IpPermissions sg))) groups)
     end).

(** resilience-ec2: is some instance not running? *)
Definition checkEc2Status (instanceIds : list string) : M bool :=
  rethrow "Error checking EC2 status"
    (let* described := describeInstances instanceIds in
     match described with
     | [] => consoleError "No EC2 instances found" >> ret false
     | _ => ret (existsb (fun kv => negb (String.eqb (StateName kv.2) "running")) described)
     end).

(** *** resilience-ec2process *)

Definition checkLoadBalancerHealth : M bool :=
  tryCatch
    (let* status := httpGetLoadBalancer in ret (Z.eqb status 200))
    (fun _ => consoleError "Load balancer health check failed" >> ret false).

(** The three direct checks tell "abnormal" on any error. *)
Definition checkAlbSecurityGroupDirect (securityGroupId : string) : M bool :=
  tryCatch
    (let* groups := describeSecurityGroups [securityGroupId] in
     match groups with
     | [] => consoleError "Security group not found" >> ret true
     | securityGroup :: _ =>
         ret (negb (existsb (openToWorld 80) (IpPermissions securityGroup)))
     end)
    (fun _ => consoleError "Error checking ALB security group" >> ret true).

Definition checkEc2SecurityGroupsDirect (ec2SecurityGroupIds : list string)
    (albSecurityGroupId : string) : M bool :=
  tryCatch
    (let* groups := describeSecurityGroups ec2SecurityGroupIds in
     match groups with
     | [] => consoleError "No security groups found for the provided IDs" >> ret true
     | _ => ret (existsb (fun sg => negb (existsb (allowsAlb albSecurityGroupId)
                                                  (IpPermissions sg))) groups)
     end)
    (fun _ => consoleError "Error checking EC2 security groups" >> ret true).

Definition checkEc2StatusDirect (instanceIds : list string) : M bool :=
  tryCatch
    (let* described := describeInstances instanceIds in
     match described with
     | [] => consoleError "No EC2 instances found" >> ret true
     | _ => ret (existsb (fun kv => negb (String.eqb (StateName kv.2) "running")) described)
     end)
    (fun _ => consoleError "Error checking EC2 status" >> ret true).

(** The process is reported down only when the load balancer does not answer
    200 although the ALB group, the EC2 group and the instances look normal. *)
Definition checkEc2ProcessWithNewLogic : M bool :=
  rethrow "Error in checkEc2ProcessWithNewLogic"
    (let* isLoadBalancerHealthy := checkLoadBalancerHealth in
     if isLoadBalancerHealthy then ret false
     else
       let* albSecurityGroupId := getAlbSecurityGroupId in
       let* ec2SecurityGroupIds := getEc2SecurityGroupIds in
       let* instanceIds := getEc2InstanceIds in
       let* isAlbSgAbnormal := checkAlbSecurityGroupDirect albSecurityGroupId in
       let* isEc2SgAbnormal :=
         checkEc2SecurityGroupsDirect ec2SecurityGroupIds albSecurityGroupId in
       let* isEc2OsAbnormal := checkEc2StatusDirect instanceIds in
       if isAlbSgAbnormal || isEc2SgAbnormal || isEc2OsAbnormal
       then ret false
       else ret true).

(** *** The handlers

    All ten [handler]s have one shape: look the resource up, run the check,
    write [Red] or [Green] for the component, answer [{ solved }]; an error
    anywhere is logged and thrown again.  [probe] is the lookup and the
    check, telling whether the component is found faulted. *)

Record Branch := mkBranch {
  functionName : string;
  table : Scenario;
  component : string;
  probe : M bool
}.

Definition handler (b : Branch) : M bool :=
  rethrow "Error in handler"
    (let* faulted := probe b in
     let currentState := if faulted then Red else Green in
     updateDynamoDBState (table b) (component b) currentState >>
     ret (bool_decide (currentState = Green))).

Definition security_albsg : Branch :=
  mkBranch "security-albsg" Security "ALB SG"
    (let* securityGroupId := getAlbSecurityGroupId in
     checkAlbSecurityGroupSsh securityGroupId).

Definition security_cloudtrail : Branch :=
  mkBranch "security-cloudtrail" Security "CloudTrail"
    (let* cloudTrailName := getCloudTrailArn in
     checkCloudTrailStatus cloudTrailName).

(** Here the check tells "safe", so the component is faulted when it fails. *)
Definition security_ec2role : Branch :=
  mkBranch "security-ec2role" Security "EC2 Role"
    (let* instanceIds := getEc2InstanceIds in
     let* safeRoleName := getSafeRoleName in
     let* hasSafeRole := checkEc2Roles instanceIds safeRoleName in
     ret (negb hasSafeRole)).

Definition security_ec2sg : Branch :=
  mkBranch "security-ec2sg" Security "EC2 SG"
    (let* securityGroupIds := getEc2SecurityGroupIds in
     checkEc2SecurityGroupsSsh securityGroupIds).

Definition security_rdssg : Branch :=
  mkBranch "security-rdssg" Security "RDS SG"
    (let* securityGroupId := getRdsSecurityGroupId in
     checkRdsSecurityGroup securityGroupId).

Definition security_s3 : Branch :=
  mkBranch "security-s3" Security "S3"
    (let* bucketName := getS3BucketName in
     checkS3PublicAccessBlock bucketName).

Definition resilience_albsg : Branch :=
  mkBranch "resilience-albsg" Resilience "ALB SG"
    (let* securityGroupId := getAlbSecurityGroupId in
     checkAlbSecurityGroupHttp securityGroupId).

Definition resilience_ec2sg : Branch :=
  mkBranch "resilience-ec2sg" Resilience "EC2 SG"
    (let* ec2SecurityGroupIds := getEc2SecurityGroupIds in
     let* albSecurityGroupId := getAlbSecurityGroupId in
     checkEc2SecurityGroupsAlb ec2SecurityGroupIds albSecurityGroupId).

Definition resilience_ec2 : Branch :=
  mkBranch "resilience-ec2" Resilience "EC2"
    (let* instanceIds := getEc2InstanceIds in
     checkEc2Status instanceIds).

Definition resilience_ec2process : Branch :=
  mkBranch "resilience-ec2process" Resilience "EC2 Process"
    checkEc2ProcessWithNewLogic.

End Observer.

(** ** The observation state machine ([cdk/lib/construct/observation.ts]) *)

Module Observation.

Import Observer.

(** [functionNameArray]: one branch of [observationParallel] per observer. *)
Definition functionNameArray : list Branch :=
  [ security_albsg; security_cloudtrail; security_ec2role; security_ec2sg;
    security_rdssg; security_s3; resilience_albsg; resilience_ec2sg;
    resilience_ec2; resilience_ec2process ].

(** The [Parallel] state invokes every branch and collects the payloads in
    branch order.  It has no [Catch] and no [Retry] for function errors: when
    a branch fails the state fails.  The invocations that were started run to
    their end all the same, so every branch is run here, in array order. *)
Fixpoint observationParallel (branches : list Branch) : M (list bool) :=
  match branches with
  | [] => ret []
  | b :: rest =>
      fun w =>
        match handler b w with
        | (Return solved, w1) =>
            match observationParallel rest w1 with
            | (Return outputs, w2) => (Return (solved :: outputs), w2)
            | (Throw e, w2) => (Throw e, w2)
            end
        | (Throw e, w1) =>
            (Throw e, (observationParallel rest w1).2)
        end
  end.

(** [isGameEndCondition]:
    [$count($filter($states.input, function($v) {$v.solved})) = $count($states.input)] *)
Definition isGameEndCondition (input : list bool) : bool :=
  Nat.eqb (length (List.filter (fun solved => solved) input)) (length input).

(** [notifyGameEnd]: [SET #State = :nextState] with ["Ready"] on key [$gameId]. *)
Definition notifyGameEnd (gameId : string) : M unit :=
  ddbUpdateGameState gameId "Ready".

(** The [Wait] state of the loop, in seconds. *)
Definition waitInLoop : nat := 1.

(** What one pass through [observationParallel] and [isGameEndChoice] leads to. *)
Inductive Next :=
| GameEnd                    (* notifyGameEnd ran: the execution succeeds *)
| Wait (seconds : nat)       (* waitInLoop, then observationParallel again *)
| ExecutionFailed (e : JsError).

Definition iteration (branches : list Branch) (gameId : string) : World -> Next * World :=
  fun w =>
    match observationParallel branches w with
    | (Return outputs, w1) =>
        if isGameEndCondition outputs
        then (GameEnd, (notifyGameEnd gameId w1).2)
        else (Wait waitInLoop, w1)
    | (Throw e, w1) => (ExecutionFailed e, w1)
    end.

(** A run of the state machine.  Between two iterations the outside world
    moves on (an operator repairs or breaks something, an instance finishes
    stopping); [outside] lists these moves, one per wait.  The run is still
    polling when the list is used up. *)
Inductive RunStatus := Polling | Converged | Failed.

Fixpoint run (branches : list Branch) (gameId : string)
    (outside : list (Aws -> Aws)) (w : World) : RunStatus * World :=
  match iteration branches gameId w with
  | (GameEnd, w1) => (Converged, w1)
  | (ExecutionFailed _, w1) => (Failed, w1)
  | (Wait _, w1) =>
      match outside with
      | [] => (Polling, w1)
      | move :: later => run branches gameId later (set_aws move w1)
      end
  end.

(** The state machine as deployed; [pass] binds [$gameId] from the input. *)
Definition stateMachineIteration (gameId : string) : World -> Next * World :=
  iteration functionNameArray gameId.

Definition stateMachineRun (gameId : string) (outside : list (Aws -> Aws))
  : World -> RunStatus * World :=
  run functionNameArray gameId outside.

End Observation.

(** ** A sample deployment

    The tables as [initializeDatabase] fills them, and the resources in their
    baseline configuration. *)

Module Sample.

Definition mapping : gmap string ResourceItem :=
  list_to_map
    [ ("ALB_SG", mkResource "sg-alb" EmptyString EmptyString);
      ("EC2_SG", mkResource "sg-ec2" EmptyString EmptyString);
      ("RDS_SG", mkResource "sg-rds" EmptyString EmptyString);
      ("EC2_INSTANCE_1", mkResource "i-1" EmptyString EmptyString);
      ("EC2_INSTANCE_2", mkResource "i-2" EmptyString EmptyString);
      ("EC2_PROCESS", mkResource "demoapp" EmptyString EmptyString);
      ("S3_BUCKET", mkResource "trail-logs" EmptyString EmptyString);
      ("CLOUDTRAIL", mkResource "trail" "trail" "arn:aws:cloudtrail:trail/trail");
      ("EC2_SAFE_ROLE",
       mkResource "SafeRole" "SafeProfile" "arn:aws:iam::1:instance-profile/SafeProfile") ].

Definition securityComponents : gmap string Health :=
  list_to_map
    [ ("ALB SG", Green); ("EC2 SG", Green); ("EC2 Role", Green);
      ("S3", Green); ("RDS SG", Green); ("CloudTrail", Green) ].

Definition resilienceComponents : gmap string Health :=
  list_to_map
    [ ("EC2", Green); ("ALB SG", Green); ("EC2 SG", Green); ("EC2 Process", Green) ].

Definition tables (state : string) : Db :=
  mkDb {[ "default" := state ]} securityComponents resilienceComponents
       {[ "ResourceMappingTable" := mapping ]}.

Definition albRule : IpPermission := mkPerm "tcp" (Some 80) (Some 80) ["0.0.0.0/0"] [].
Definition ec2Rule : IpPermission := mkPerm "tcp" (Some 8080) (Some 8080) [] ["sg-alb"].
Definition rdsRule : IpPermission := mkPerm "tcp" (Some 5432) (Some 5432) [] ["sg-ec2"].
Definition sshRule : IpPermission := mkPerm "tcp" (Some 22) (Some 22) ["0.0.0.0/0"] [].

Definition instance (association : string) : Instance :=
  mkInstance "running" association "arn:aws:iam::1:instance-profile/SafeProfile" 20 0.

Definition cloud : Aws :=
  mkAws
    (list_to_map [ ("sg-alb", [albRule]); ("sg-ec2", [ec2Rule]); ("sg-rds", [rdsRule]) ])
    ∅
    (list_to_map [ ("i-1", instance "assoc-1"); ("i-2", instance "assoc-2") ])
    {[ "SafeProfile" := ["SafeRole"] ]}
    {[ "trail-logs" := Some (mkPab true true true true) ]}
    [ mkTrail "trail" "arn:aws:cloudtrail:trail/trail" true true true ]
    (Some 200).

Definition environment : Env :=
  mkEnv None (Some "arn:observation") None None None None None.

Definition world (state : string) : World :=
  mkWorld (tables state) cloud [] environment "1700000000000" 0 [] [].

(** The ALB group also allows SSH from anywhere. *)
Definition openSsh (a : Aws) : Aws := setGroup "sg-alb" [albRule; sshRule] a.

(** The ALB group is back to its baseline. *)
Definition closeSsh (a : Aws) : Aws := setGroup "sg-alb" [albRule] a.

(** Public access to the bucket is no longer blocked. *)
Definition unblockBucket (a : Aws) : Aws :=
  setBuckets <[ "trail-logs" := Some (mkPab false false false false) ]> a.

(** The game is running with SSH open on the ALB group and "ALB SG" marked Red. *)
Definition faulted : World :=
  set_db (putComponent Security "ALB SG" Red) (set_aws openSsh (world "Ongoing")).

(** A reset is under way: its confirmation pass is running. *)
Definition confirmationPass : Execution :=
  mkExecution "arn:observation:reset-observation-1699999999999" "arn:observation"
              RUNNING "default".

Definition resetting : World :=
  set_executions (fun _ => [confirmationPass]) (world "Resetting").

End Sample.

(** ** The injection handlers
    ([cdk/lambda/security/{easy,hard}.ts], [cdk/lambda/resilience/{easy,hard}.ts]) *)

(** The answer of an API handler: status code, message, and the component
    names the body carries. *)
Record Response := mkResponse {
  statusCode : Z;
  message : string;
  payload : list string
}.

(** What the four files have in common, each with its own identical copy. *)
Module Injection.

Definition getGameState : M (option string) := ddbGetGameState "default".

Definition getComponents (t : Scenario) : M (list string) := ddbScan t.

Definition updateComponentState (t : Scenario) (componentName : string)
    (state : Health) : M unit :=
  ddbUpdateComponent t componentName state.

Definition updateGameState (state : string) : M unit :=
  ddbUpdateGameState "default" state.

(** [gameState !== "Ready"] *)
Definition notReady (gameState : option string) : bool :=
  negb (bool_decide (gameState = Some "Ready")).

(** The answer to a request made outside ["Ready"]; an absent state prints
    as [undefined]. *)
Definition gameNotReady (gameState : option string) : Response :=
  mkResponse 400
    ("Game is not ready to start. Current state: " +:+ default "undefined" gameState) [].

(** [components[Math.floor(Math.random() * components.length)]] *)
Definition pickRandom (components : list string) : M (option string) :=
  gets (fun w => components !! (random w `mod` length components)%nat).

Definition typeError : JsError :=
  mkError "TypeError" "Cannot read properties of undefined".

End Injection.

(** *** Security scenario *)

Module SecurityInjection.

Import Injection.

(** [ResourceHelper.mapComponentToResourceType] *)
Definition mapComponentToResourceType (componentName : string) : string :=
  if String.eqb componentName "ALB SG" then "ALB_SG"
  else if String.eqb componentName "EC2 SG" then "EC2_SG"
  else if String.eqb componentName "EC2 Role" then "EC2_SAFE_ROLE"
  else if String.eqb componentName "S3" then "S3_BUCKET"
  else if String.eqb componentName "RDS SG" then "RDS_SG"
  else if String.eqb componentName "CloudTrail" then "CLOUDTRAIL"
  else componentName.

(** [ResourceHelper.getResourceInfo], for a helper built on [table]. *)
Definition getResourceInfo (table resourceType : string) : M (option ResourceItem) :=
  rethrow "Error getting resource info" (ddbGetMapping table resourceType).

Section Handlers.

(** [injectVulnerability] of [security/utils/vulnerability-injector]: the
    actuator of the security scenario, given a resource type and the
    mapping item. *)
Variable injectVulnerability : string -> option ResourceItem -> M unit.

(** The inner [try] of both handlers: fetch the resource, inject, mark Red. *)
Definition injectAndMark (table componentName : string) : M unit :=
  let resourceType := mapComponentToResourceType componentName in
  let* resourceInfo := getResourceInfo table resourceType in
  injectVulnerability resourceType resourceInfo >>
  consoleLog ("Injected vulnerability to " +:+ resourceType) >>
  updateComponentState Security componentName Red.

Definition easy : M Response :=
  tryCatch
    (let* table := resourceMappingTableName in
     let* gameState := getGameState in
     if notReady gameState then ret (gameNotReady gameState)
     else
       let* components := getComponents Security in
       let* selectedComponent := pickRandom components in
       match selectedComponent with
       | None => throw typeError
       | Some componentName =>
           consoleLog ("Selected component: " +:+ componentName) >>
           let* failure :=
             tryCatch
               (injectAndMark table componentName >> ret None)
               (fun error =>
                  consoleError ("Error injecting vulnerability to " +:+ componentName) >>
                  ret (Some (mkResponse 500 "Error injecting vulnerability" []))) in
           match failure with
           | Some response => ret response
           | None =>
               consoleLog "Setting game state to Ongoing" >>
               updateGameState "Ongoing" >>
               ret (mkResponse 200 "Security Easy scenario started successfully"
                               [componentName])
           end
       end)
    (fun error => consoleError "Error:" >>
                  ret (mkResponse 500 "Error starting security easy scenario" [])).

(** The body of [for (const component of components)] in the hard handler. *)
Definition injectOne (table componentName : string) : M unit :=
  tryCatch
    (injectAndMark table componentName)
    (fun error =>
       consoleError ("Error injecting vulnerability to " +:+ componentName)).

Definition hard : M Response :=
  tryCatch
    (let* table := resourceMappingTableName in
     let* gameState := getGameState in
     if notReady gameState then ret (gameNotReady gameState)
     else
       let* components := getComponents Security in
       forOf components (injectOne table) >>
       updateGameState "Ongoing" >>
       ret (mkResponse 200 "Security Hard scenario started successfully" []))
    (fun error => consoleError "Error:" >>
                  ret (mkResponse 500 "Error starting security hard scenario" [])).

End Handlers.

End SecurityInjection.

(** *** Resilience scenario *)

Module ResilienceInjection.

Import Injection.

(** [getResourceInfo] of the resilience files: no [catch]. *)
Definition getResourceInfo (tableName resourceType : string) : M (option ResourceItem) :=
  ddbGetMapping tableName resourceType.

Definition stopEC2Instance (instanceId : string) : M unit := stopInstances instanceId.

Definition isNotFound (error : JsError) : bool :=
  String.eqb (errName error) "InvalidPermission.NotFound".

(** [killApplicationProcess]: a [ValidationException] is passed over. *)
Definition killApplicationProcess (instanceId serviceId : string) : M unit :=
  tryCatch
    (sendCommand instanceId)
    (fun error =>
       consoleError "Error executing SSM command" >>
       if String.eqb (errName error) "ValidationException"
       then consoleLog "Invalid instance ID or SSM not available. Simulating process stop."
       else throw error).

Definition httpRule : IpPermission :=
  mkPerm "tcp" (Some 80) (Some 80) ["0.0.0.0/0"] [].

Definition albRule (sourceGroupId : string) : IpPermission :=
  mkPerm "tcp" (Some 8080) (Some 8080) [] [sourceGroupId].

(** Both instances, each in a [try] of its own. *)
Definition onBothInstances (tableName : string) (action : string -> M unit)
    (failureMsg : string) : M unit :=
  let* ec2Instance1 := getResourceInfo tableName "EC2_INSTANCE_1" in
  let* ec2Instance2 := getResourceInfo tableName "EC2_INSTANCE_2" in
  if negb (hasResourceId ec2Instance1)
  then throw (Error "EC2 Instance 1 information not found")
  else if negb (hasResourceId ec2Instance2)
  then throw (Error "EC2 Instance 2 information not found")
  else
    tryCatch (action (resourceIdOf ec2Instance1))
             (fun _ => consoleError (failureMsg +:+ " 1")) >>
    tryCatch (action (resourceIdOf ec2Instance2))
             (fun _ => consoleError (failureMsg +:+ " 2")).

(** [mapComponentToResourceType]; ["EC2"] maps to [ec2] in this file. *)
Definition mapComponentToResourceType (ec2 componentName : string) : string :=
  if String.eqb componentName "EC2" then ec2
  else if String.eqb componentName "ALB SG" then "ALB_SG"
  else if String.eqb componentName "EC2 SG" then "EC2_SG"
  else if String.eqb componentName "EC2 Process" then "EC2_PROCESS"
  else componentName.

Module Easy.

Definition mapComponentToResourceType : string -> string :=
  ResilienceInjection.mapComponentToResourceType "EC2_INSTANCE_1".

Definition stopBothEC2Instances : M unit :=
  let* table := resourceMappingTableName in
  onBothInstances table stopEC2Instance "Error stopping EC2 instance".

(** Here every error of the revoke is passed over. *)
Definition removeHTTPInboundRule (securityGroupId : string) : M unit :=
  tryCatch
    (revokeSecurityGroupIngress securityGroupId [httpRule])
    (fun error =>
       if isNotFound error
       then consoleLog "Security group rule already removed or does not exist"
       else consoleError "Error removing HTTP inbound rule").

Definition removeInboundRule (securityGroupId sourceGroupId : string) : M unit :=
  tryCatch
    (revokeSecurityGroupIngress securityGroupId [albRule sourceGroupId])
    (fun error =>
       if isNotFound error
       then consoleLog "Security group rule already removed or does not exist"
       else throw error).

Definition removeALBInboundRule (securityGroupId : string) : M unit :=
  tryCatch
    (let* table := resourceMappingTableName in
     let* albSgInfo := getResourceInfo table "ALB_SG" in
     if hasResourceId albSgInfo
     then removeInboundRule securityGroupId (resourceIdOf albSgInfo)
     else
       consoleError "ALB Security Group information not found, using environment variable as fallback" >>
       let* fallback := gets (fun w => ALB_SECURITY_GROUP_ID (env w)) in
       match fallback with
       | Some albSecurityGroupId =>
           if truthy albSecurityGroupId
           then removeInboundRule securityGroupId albSecurityGroupId
           else throw (Error "ALB Security Group ID not found")
       | None => throw (Error "ALB Security Group ID not found")
       end)
    (fun error =>
       if isNotFound error
       then consoleLog "Security group rule already removed or does not exist"
       else consoleError "Error removing ALB inbound rule").

(** Despite its name it stops the process on both instances. *)
Definition killRandomApplicationProcess (serviceId : string) : M unit :=
  let* table := resourceMappingTableName in
  onBothInstances table (fun instanceId => killApplicationProcess instanceId "demoapp")
                  "Error stopping process on EC2 instance".

Definition isDummy (resourceId : string) : bool :=
  String.eqb resourceId "i-dummy"
  || String.prefix "dummy-" resourceId
  || String.prefix "sg-dummy" resourceId.

Definition injectFailure (resourceType resourceId componentName : string) : M unit :=
  if isDummy resourceId
  then consoleLog "[MOCK] Simulating failure injection"
  else if String.eqb resourceType "EC2_INSTANCE_1" || String.eqb resourceType "EC2_INSTANCE_2"
  then stopBothEC2Instances
  else if String.eqb resourceType "ALB_SG" then removeHTTPInboundRule resourceId
  else if String.eqb resourceType "EC2_SG" then removeALBInboundRule resourceId
  else if String.eqb resourceType "EC2_PROCESS" then killRandomApplicationProcess resourceId
  else throw (Error ("Unsupported resource type: " +:+ resourceType)).

Definition handler : M Response :=
  tryCatch
    (let* table := resourceMappingTableName in
     let* gameState := getGameState in
     if notReady gameState then ret (gameNotReady gameState)
     else
       let* components := getComponents Resilience in
       let* selectedComponent := pickRandom components in
       match selectedComponent with
       | None => throw typeError
       | Some componentName =>
           let resourceType := mapComponentToResourceType componentName in
           let* resourceInfo := getResourceInfo table resourceType in
           if negb (hasResourceId resourceInfo)
           then throw (Error ("Resource information not found for " +:+ resourceType))
           else
             injectFailure resourceType (resourceIdOf resourceInfo) componentName >>
             consoleLog ("Injected failure to " +:+ resourceType) >>
             updateComponentState Resilience componentName Red >>
             updateGameState "Ongoing" >>
             ret (mkResponse 200 "Resilience Easy scenario started successfully"
                             [componentName])
       end)
    (fun error => consoleError "Error:" >>
                  ret (mkResponse 500 "Error starting resilience easy scenario" [])).

End Easy.

Module Hard.

Definition mapComponentToResourceType : string -> string :=
  ResilienceInjection.mapComponentToResourceType "EC2_INSTANCE".

Definition injectEC2Failure (tableName : string) : M unit :=
  onBothInstances tableName stopEC2Instance "Error stopping EC2 instance".

Definition killAllApplicationProcesses (tableName serviceId : string) : M unit :=
  onBothInstances tableName (fun instanceId => killApplicationProcess instanceId serviceId)
                  "Error killing process on EC2 instance".

(** Here only a missing rule is passed over. *)
Definition removeHTTPInboundRule (securityGroupId : string) : M unit :=
  tryCatch
    (revokeSecurityGroupIngress securityGroupId [httpRule])
    (fun error =>
       if isNotFound error
       then consoleLog "Security group rule already removed or does not exist"
       else throw error).

Definition removeALBInboundRule (securityGroupId tableName : string) : M unit :=
  let* albSgInfo := getResourceInfo tableName "ALB_SG" in
  if negb (hasResourceId albSgInfo)
  then throw (Error "ALB Security Group information not found")
  else
    tryCatch
      (revokeSecurityGroupIngress securityGroupId [albRule (resourceIdOf albSgInfo)])
      (fun error =>
         if isNotFound error
         then consoleLog "Security group rule already removed or does not exist"
         else throw error).

Definition injectFailure (tableName resourceType componentName : string) : M unit :=
  if String.eqb resourceType "EC2_INSTANCE" then injectEC2Failure tableName
  else if String.eqb resourceType "ALB_SG" then
    let* albSgInfo := getResourceInfo tableName "ALB_SG" in
    if negb (hasResourceId albSgInfo)
    then throw (Error "ALB Security Group information not found")
    else removeHTTPInboundRule (resourceIdOf albSgInfo)
  else if String.eqb resourceType "EC2_SG" then
    let* ec2SgInfo := getResourceInfo tableName "EC2_SG" in
    if negb (hasResourceId ec2SgInfo)
    then throw (Error "EC2 Security Group information not found")
    else removeALBInboundRule (resourceIdOf ec2SgInfo) tableName
  else if String.eqb resourceType "EC2_PROCESS" then
    let* processInfo := getResourceInfo tableName "EC2_PROCESS" in
    if negb (hasResourceId processInfo)
    then throw (Error "EC2 Process information not found")
    else killAllApplicationProcesses tableName (resourceIdOf processInfo)
  else throw (Error ("Unsupported resource type: " +:+ resourceType)).

(** The body of the loop, without the skip: inject, mark Red, remember. *)
Definition injectAndMark (table componentName : string) (failedComponents : list string)
  : M (list string) :=
  let resourceType := mapComponentToResourceType componentName in
  injectFailure table resourceType componentName >>
  consoleLog ("Injected failure to " +:+ resourceType) >>
  updateComponentState Resilience componentName Red >>
  ret (failedComponents ++ [componentName]).

(** One turn of [for (const component of components)]: [failedComponents]
    is the array the loop pushes to. *)
Definition injectOne (table componentName : string) (failedComponents : list string)
  : M (list string) :=
  tryCatch
    (if String.eqb componentName "EC2 Process"
     then consoleLog "Skipping EC2 Process component in Hard mode" >> ret failedComponents
     else injectAndMark table componentName failedComponents)
    (fun error =>
       consoleError ("Error injecting failure to component " +:+ componentName) >>
       ret failedComponents).

Fixpoint injectAll (table : string) (components : list string)
    (failedComponents : list string) : M (list string) :=
  match components with
  | [] => ret failedComponents
  | componentName :: rest =>
      let* failedComponents' := injectOne table componentName failedComponents in
      injectAll table rest failedComponents'
  end.

Definition handler : M Response :=
  tryCatch
    (let* table := resourceMappingTableName in
     let* gameState := getGameState in
     if notReady gameState then ret (gameNotReady gameState)
     else
       let* components := getComponents Resilience in
       let* failedComponents := injectAll table components [] in
       updateGameState "Ongoing" >>
       ret (mkResponse 200 "Resilience Hard scenario started successfully"
                       failedComponents))
    (fun error => consoleError "Error:" >>
                  ret (mkResponse 500 "Error starting resilience hard scenario" [])).

End Hard.

End ResilienceInjection.

(** ** The reset handler ([cdk/lambda/reset/index.ts]) *)

Module Reset.

(** [getResourceInfo]: a failed read is logged and answered with [null]. *)
Definition getResourceInfo (tableName resourceType : string) : M (option ResourceItem) :=
  tryCatch
    (ddbGetMapping tableName resourceType)
    (fun error => consoleError ("Error getting resource info for " +:+ resourceType) >>
                  ret None).

Definition updateGameState (state : string) : M unit :=
  ddbUpdateGameState "default" state.

(** [result.Item?.State || "Unknown"] *)
Definition getGameState : M string :=
  rethrow "Error getting game state:"
    (let* state := ddbGetGameState "default" in
     ret (match state with
          | Some s => if truthy s then s else "Unknown"
          | None => "Unknown"
          end)).

(** [Promise.all]: all tasks are started; the first rejection is the result. *)
Fixpoint promiseAll (tasks : list (M unit)) : M unit :=
  match tasks with
  | [] => ret tt
  | task :: rest =>
      fun w =>
        match task w with
        | (Return _, w1) => promiseAll rest w1
        | (Throw e, w1) => (Throw e, (promiseAll rest w1).2)
        end
  end.

(** *** Step 1: stop the running observation executions *)

(** The callback of [listResult.executions.map]: stop one execution; an
    error of its own is logged and passed over. *)
Definition stopOne (execution : Execution) : M unit :=
  if truthy (executionArn execution)
  then tryCatch
         (stopExecution (executionArn execution))
         (fun error =>
            consoleError ("Error stopping execution " +:+ executionArn execution))
  else ret tt.

Definition stopRunningStepFunctions : M unit :=
  tryCatch
    (let* stateMachineArn := gets (fun w => OBSERVATION_STATE_MACHINE_ARN (env w)) in
     match stateMachineArn with
     | None => consoleLog "OBSERVATION_STATE_MACHINE_ARN environment variable is not set"
     | Some arn =>
         if negb (truthy arn)
         then consoleLog "OBSERVATION_STATE_MACHINE_ARN environment variable is not set"
         else
           let* running := listRunningExecutions arn in
           match running with
           | [] => consoleLog "No running Step Function executions found"
           | _ =>
               promiseAll (List.map stopOne running) >>
               consoleLog "All running Step Function executions have been stopped"
           end
     end)
    (fun error =>
       consoleError "Error stopping Step Functions:" >>
       consoleLog "Continuing reset process despite Step Function stop error").

(** *** Step 2: security groups *)

(** [getAlbSecurityGroup], [getEc2SecurityGroup], [getRdsSecurityGroup]: by
    the mapping table, or else by the CloudFormation tags. *)
Definition getSecurityGroup (resourceMappingTableName resourceType pattern label : string)
  : M SecurityGroup :=
  tryCatch
    (let* info := getResourceInfo resourceMappingTableName resourceType in
     if negb (hasResourceId info)
     then throw (Error (label +:+ " Security Group information not found in resource mapping table"))
     else
       let* groups := describeSecurityGroups [resourceIdOf info] in
       match groups with
       | sg :: _ => ret sg
       | [] => throw (Error (label +:+ " Security Group " +:+ resourceIdOf info
                             +:+ " not found"))
       end)
    (fun error =>
       consoleError ("Error getting " +:+ label +:+ " security group:") >>
       let* groups := describeSecurityGroupsByLogicalId pattern in
       match groups with
       | sg :: _ => ret sg
       | [] => throw (Error (label +:+ " Security Group not found"))
       end).

Definition getAlbSecurityGroup (table : string) : M SecurityGroup :=
  getSecurityGroup table "ALB_SG" "*AlbSecurityGroup*" "ALB".

Definition getEc2SecurityGroup (table : string) : M SecurityGroup :=
  getSecurityGroup table "EC2_SG" "*WebappServiceEc2ServiceSecurityGroup*" "EC2".

Definition getRdsSecurityGroup (table : string) : M SecurityGroup :=
  getSecurityGroup table "RDS_SG" "*AuroraClusterSecurityGroup*" "RDS".

(** The rules the CDK stack defines. *)
Definition albBaseline : IpPermission :=
  mkPerm "tcp" (Some 80) (Some 80) ["0.0.0.0/0"] [].

Definition ec2Baseline (albGroupId : string) : IpPermission :=
  mkPerm "tcp" (Some 8080) (Some 8080) [] [albGroupId].

Definition rdsBaseline (ec2GroupId : string) : IpPermission :=
  mkPerm "tcp" (Some 5432) (Some 5432) [] [ec2GroupId].

(** The body shared by the three [reset*SecurityGroup]: revoke the inbound
    rules the group was described with, then authorize the one rule. *)
Definition resetGroup (sg : SecurityGroup) (rule : IpPermission) (label : string) : M unit :=
  rethrow ("Error resetting " +:+ label +:+ " security group:")
    ((match IpPermissions sg with
      | [] => ret tt
      | _ => revokeSecurityGroupIngress (GroupId sg) (IpPermissions sg)
      end) >>
     authorizeSecurityGroupIngress (GroupId sg) [rule] >>
     consoleLog ("Reset " +:+ label +:+ " security group " +:+ GroupId sg +:+ " successfully")).

Definition resetAlbSecurityGroup (sg : SecurityGroup) : M unit :=
  resetGroup sg albBaseline "ALB".

Definition resetEc2SecurityGroup (sg albSg : SecurityGroup) : M unit :=
  resetGroup sg (ec2Baseline (GroupId albSg)) "EC2".

Definition resetRdsSecurityGroup (sg ec2Sg : SecurityGroup) : M unit :=
  resetGroup sg (rdsBaseline (GroupId ec2Sg)) "RDS".

Definition resetSecurityGroups (resourceMappingTableName : string) : M unit :=
  rethrow "Error resetting security groups:"
    (let* albSg := getAlbSecurityGroup resourceMappingTableName in
     resetAlbSecurityGroup albSg >>
     let* ec2Sg := getEc2SecurityGroup resourceMappingTableName in
     resetEc2SecurityGroup ec2Sg albSg >>
     let* rdsSg := getRdsSecurityGroup resourceMappingTableName in
     resetRdsSecurityGroup rdsSg ec2Sg >>
     consoleLog "All security groups reset successfully").

(** *** Step 3: S3 public access block *)

Definition enablePublicAccessBlock (bucketName : string) : M unit :=
  rethrow ("Error configuring public access block for bucket " +:+ bucketName)
    (let* currentConfig := getPublicAccessBlock bucketName in
     putPublicAccessBlock bucketName (mkPab true true true true) >>
     consoleLog ("S3 public access block enabled for bucket: " +:+ bucketName)).

(** The lookup shared by steps 3 to 5: the mapped resource, or else the one
    named by an environment variable, or else nothing to do. *)
Definition withMappedOrEnv (resourceMappingTableName resourceType : string)
    (variable : Env -> option string) (notMapped notSet : string)
    (action : string -> M unit) : M unit :=
  let* info := getResourceInfo resourceMappingTableName resourceType in
  if hasResourceId info then action (resourceIdOf info)
  else
    consoleLog notMapped >>
    let* fallback := gets (fun w => variable (env w)) in
    match fallback with
    | Some name => if truthy name then action name else consoleLog notSet
    | None => consoleLog notSet
    end.

Definition enableS3PublicAccessBlock (resourceMappingTableName : string) : M unit :=
  rethrow "Error enabling S3 public access block:"
    (withMappedOrEnv resourceMappingTableName "S3_BUCKET" MEMO_APP_BUCKET_NAME
       "S3 Bucket information not found in resource mapping table"
       "MEMO_APP_BUCKET_NAME environment variable is not set"
       enablePublicAccessBlock).

(** *** Step 4: CloudTrail *)

Definition enableTrailLogging (trailName : string) : M unit :=
  rethrow ("Error configuring CloudTrail " +:+ trailName)
    (if String.eqb trailName "IsengardTrail-DO-NOT-DELETE"
     then consoleLog "[SIMULATION] Skipping Isengard CloudTrail"
     else
       let* trailList := describeTrails [trailName] in
       match trailList with
       | [] => throw (Error ("CloudTrail " +:+ trailName +:+ " not found"))
       | _ =>
           let* isLogging := getTrailStatus trailName in
           (if negb isLogging
            then startLogging trailName >>
                 consoleLog ("CloudTrail logging enabled for: " +:+ trailName)
            else consoleLog ("CloudTrail logging already enabled for: " +:+ trailName)) >>
           updateTrail trailName true true >>
           consoleLog ("CloudTrail configuration updated for: " +:+ trailName)
       end).

Definition enableCloudTrail (resourceMappingTableName : string) : M unit :=
  rethrow "Error enabling CloudTrail:"
    (withMappedOrEnv resourceMappingTableName "CLOUDTRAIL" MEMO_APP_CLOUDTRAIL_NAME
       "CloudTrail information not found in resource mapping table"
       "MEMO_APP_CLOUDTRAIL_NAME environment variable is not set"
       enableTrailLogging).

(** *** Step 5: IAM role *)

(** [resetRole] builds a [ResourceHelper] with its default table name and
    passes over every error. *)
Definition resetRole (roleName : string) : M unit :=
  tryCatch
    (let helperTable := "ResourceMappingTable" in
     let* safeRoleInfo := SecurityInjection.getResourceInfo helperTable "EC2_SAFE_ROLE" in
     match safeRoleInfo with
     | None => throw (Error "Safe role information not found")
     | Some safeRole =>
         if negb (truthy (ResourceArn safeRole))
         then throw (Error "Safe role information not found")
         else
           let* instance1Info := SecurityInjection.getResourceInfo helperTable "EC2_INSTANCE_1" in
           let* instance2Info := SecurityInjection.getResourceInfo helperTable "EC2_INSTANCE_2" in
           match instance1Info, instance2Info with
           | Some instance1, Some instance2 =>
               if negb (truthy (ResourceId instance1)) || negb (truthy (ResourceId instance2))
               then throw (Error "EC2 instance information not found")
               else
                 let* associations :=
                   describeIamInstanceProfileAssociations
                     [ResourceId instance1; ResourceId instance2] in
                 forOf associations
                   (fun associationId =>
                      replaceIamInstanceProfileAssociation associationId
                        (ResourceArn safeRole)) >>
                 consoleLog "EC2 role reset completed successfully"
           | _, _ => throw Injection.typeError
           end
     end)
    (fun error =>
       consoleError "Error resetting EC2 role" >>
       consoleLog "Continuing with role reset simulation").

Definition resetIAMRole (resourceMappingTableName : string) : M unit :=
  rethrow "Error resetting IAM role:"
    (withMappedOrEnv resourceMappingTableName "EC2_SAFE_ROLE" MEMO_APP_EC2_ROLE_NAME
       "EC2 Safe Role information not found in resource mapping table"
       "MEMO_APP_EC2_ROLE_NAME environment variable is not set"
       resetRole).

(** *** Step 6: restart of the instances, then "Resetting" *)

Definition maxWaitTime : nat := 300.
Definition checkInterval : nat := 10.

(** [waitForInstanceStopped] and [waitForInstanceRunning]: poll every
    [checkInterval] seconds while less than [maxWaitTime] seconds have been
    waited; [polls] is the number of polls that are left. *)
Fixpoint waitForState (target : string) (polls : nat) (instanceId : string) : M unit :=
  match polls with
  | O => throw (Error ("Timeout waiting for EC2 instance " +:+ instanceId))
  | S polls' =>
      let* again :=
        rethrow ("Error checking EC2 instance " +:+ instanceId +:+ " state:")
          (let* described := describeInstances [instanceId] in
           let currentState :=
             match described with
             | (_, instance) :: _ => StateName instance
             | [] => EmptyString
             end in
           if String.eqb currentState target then ret false
           else if String.eqb currentState "terminated"
                   || String.eqb currentState "shutting-down"
           then throw (Error ("EC2 instance " +:+ instanceId +:+ " is " +:+ currentState))
           else sleep checkInterval >> ret true) in
      if again then waitForState target polls' instanceId else ret tt
  end.

Definition waitForInstanceStopped (instanceId : string) : M unit :=
  waitForState "stopped" (maxWaitTime / checkInterval) instanceId.

Definition waitForInstanceRunning (instanceId : string) : M unit :=
  waitForState "running" (maxWaitTime / checkInterval) instanceId.

(** Stop, wait until stopped, start. *)
Definition forceRestartInstance (instanceId : string) : M unit :=
  rethrow ("Error force restarting EC2 instance " +:+ instanceId)
    (stopInstances instanceId >>
     waitForInstanceStopped instanceId >>
     startInstances instanceId).

Definition startEC2InstanceRestart (instanceId : string) : M unit :=
  rethrow ("Error restarting EC2 instance " +:+ instanceId)
    (let* described := describeInstances [instanceId] in
     match described with
     | [] => throw (Error ("Instance " +:+ instanceId +:+ " not found"))
     | (_, instance) :: _ =>
         let currentState := StateName instance in
         if String.eqb currentState "running" then forceRestartInstance instanceId
         else if String.eqb currentState "stopped" then startInstances instanceId
         else if String.eqb currentState "stopping"
         then waitForInstanceStopped instanceId >> startInstances instanceId
         else if String.eqb currentState "pending"
         then waitForInstanceRunning instanceId >> forceRestartInstance instanceId
         else consoleLog ("EC2 instance " +:+ instanceId +:+ " cannot restart")
     end).

Definition forceRestartEC2InstancesWithStateChange (resourceMappingTableName : string)
  : M unit :=
  rethrow "Error in force restart EC2 instances with state change:"
    (let* ec2Instance1 := getResourceInfo resourceMappingTableName "EC2_INSTANCE_1" in
     let* ec2Instance2 := getResourceInfo resourceMappingTableName "EC2_INSTANCE_2" in
     let mapped :=
       (if hasResourceId ec2Instance1 then [resourceIdOf ec2Instance1] else [])
       ++ (if hasResourceId ec2Instance2 then [resourceIdOf ec2Instance2] else []) in
     let* fallback := gets (fun w => MEMO_APP_INSTANCE_ID (env w)) in
     let instanceIds :=
       match mapped, fallback with
       | [], Some instanceId => if truthy instanceId then [instanceId] else []
       | _, _ => mapped
       end in
     match instanceIds with
     | [] => consoleLog "No EC2 instance information found"
     | _ =>
         promiseAll (List.map startEC2InstanceRestart instanceIds) >>
         consoleLog "All EC2 restart processes initiated. Setting game state to Resetting..." >>
         updateGameState "Resetting" >>
         consoleLog "Game state set to Resetting. Step Functions will now monitor and eventually set state to Ready."
     end).

(** *** Step 7: start the observation state machine *)

Definition startObservationStateMachine : M unit :=
  tryCatch
    (let* stateMachineArn := gets (fun w => OBSERVATION_STATE_MACHINE_ARN (env w)) in
     match stateMachineArn with
     | None => consoleLog "OBSERVATION_STATE_MACHINE_ARN environment variable is not set"
     | Some arn =>
         if negb (truthy arn)
         then consoleLog "OBSERVATION_STATE_MACHINE_ARN environment variable is not set"
         else
           let* timestamp := gets now in
           let executionName := "reset-observation-" +:+ timestamp in
           let* started := startExecution arn executionName "default" in
           consoleLog "Observation StepFunction started successfully:"
     end)
    (fun error =>
       consoleError "Error starting observation StepFunction:" >>
       consoleLog "Continuing reset process despite StepFunction start error").

(** *** The handler *)

Definition resetInProgress : Response :=
  mkResponse 409
    "Reset operation is currently in progress. Please wait 5-15 minutes for completion." [].

Definition resetInitiated : Response :=
  mkResponse 202
    ("Reset process initiated. AWS resources have been reset and EC2 instances are "
     +:+ "restarting. The system will automatically return to Ready state once all "
     +:+ "components are verified as healthy.") [].

Definition resetFailed : Response :=
  mkResponse 500 "Error resetting game" [].

(** The steps that follow the check of the game state. *)
Definition restore (resourceMappingTableName : string) : M unit :=
  consoleLog "Resetting security groups..." >>
  resetSecurityGroups resourceMappingTableName >>
  consoleLog "Enabling S3 public access block..." >>
  enableS3PublicAccessBlock resourceMappingTableName >>
  consoleLog "Enabling CloudTrail..." >>
  enableCloudTrail resourceMappingTableName >>
  consoleLog "Resetting IAM roles..." >>
  resetIAMRole resourceMappingTableName >>
  consoleLog "Starting EC2 force restart and setting game state to Resetting..." >>
  forceRestartEC2InstancesWithStateChange resourceMappingTableName >>
  consoleLog "Starting observation StepFunction..." >>
  startObservationStateMachine.

Definition handler : M Response :=
  tryCatch
    (let* resourceMappingTableName := resourceMappingTableName in
     consoleLog "Stopping running Step Functions..." >>
     stopRunningStepFunctions >>
     let* currentGameState := getGameState in
     if String.eqb currentGameState "Resetting"
     then ret resetInProgress
     else restore resourceMappingTableName >> ret resetInitiated)
    (fun error => consoleError "Error:" >> ret resetFailed).

End Reset.

(** ** The dashboard ([webapp/src])

    The stopwatch of the dashboard runs in a Web Worker
    ([webapp/src/timer.worker.ts]); [formatTime] of [webapp/src/Ranking.tsx]
    renders its readings. *)

Module TimerWorker.

Local Open Scope Z_scope.

(** [TimerWorkerResponse]: what the worker posts to the page. *)
Inductive TimerWorkerResponse :=
| TIME_UPDATE (time : Z)
| TIMER_STARTED
| TIMER_STOPPED (time : Z)
| TIMER_RESET
| CURRENT_TIME (time : Z)
| ERROR (error : string).

(** The module-level variables of the worker. *)
Record Variables := mkVariables {
  isRunning : bool;
  startTime : option Z;              (* number | null *)
  pausedTime : Z;
  intervalId : option Z              (* number | null *)
}.

(** The worker in its global scope: its variables, the intervals that are
    set, and the id [setInterval] hands out next. *)
Record Scope := mkScope {
  variables : Variables;
  intervals : list Z;
  nextIntervalId : Z
}.

(** The scope when the worker script has just been loaded. *)
Definition loaded : Scope := mkScope (mkVariables false None 0 None) [] 1.

(** A number or [null] in a condition: [null] and [0] are falsy. *)
Definition truthyNumber (x : option Z) : bool :=
  match x with
  | Some v => negb (v =? 0)
  | None => false
  end.

(** [clearInterval(intervalId)] under [if (intervalId)], then [intervalId = null]. *)
Definition clearIfSet (s : Scope) : list Z :=
  match intervalId (variables s) with
  | Some id => if negb (id =? 0) then List.filter (fun i => negb (i =? id)) (intervals s)
               else intervals s
  | None => intervals s
  end.

Definition clearedId (s : Scope) : option Z :=
  if truthyNumber (intervalId (variables s)) then None else intervalId (variables s).

(** Each function gets the reading of [Date.now()] it makes. *)
Definition startTimer (now : Z) (s : Scope) : list TimerWorkerResponse * Scope :=
  let v := variables s in
  if negb (isRunning v)
  then ([TIMER_STARTED],
        mkScope (mkVariables true (Some (now - pausedTime v)) (pausedTime v)
                             (Some (nextIntervalId s)))
                (intervals s ++ [nextIntervalId s]) (nextIntervalId s + 1))
  else ([], s).

Definition stopTimer (now : Z) (s : Scope) : list TimerWorkerResponse * Scope :=
  let v := variables s in
  if isRunning v
  then
    let finalTime :=
      match startTime v with
      | Some t => if negb (t =? 0) then now - t else pausedTime v
      | None => pausedTime v
      end in
    ([TIMER_STOPPED finalTime],
     mkScope (mkVariables false (startTime v) finalTime (clearedId s))
             (clearIfSet s) (nextIntervalId s))
  else ([], s).

Definition resetTimer (s : Scope) : list TimerWorkerResponse * Scope :=
  ([TIMER_RESET],
   mkScope (mkVariables false None 0 (clearedId s)) (clearIfSet s) (nextIntervalId s)).

(** [isRunning && startTime ? Date.now() - startTime : pausedTime] *)
Definition currentTime (now : Z) (v : Variables) : Z :=
  match startTime v with
  | Some t => if isRunning v && negb (t =? 0) then now - t else pausedTime v
  | None => pausedTime v
  end.

Definition getCurrentTime (now : Z) (s : Scope) : list TimerWorkerResponse * Scope :=
  ([CURRENT_TIME (currentTime now (variables s))], s).

(** [self.onmessage] *)
Definition onmessage (now : Z) (type : string) (s : Scope)
  : list TimerWorkerResponse * Scope :=
  if String.eqb type "START" then startTimer now s
  else if String.eqb type "STOP" then stopTimer now s
  else if String.eqb type "RESET" then resetTimer s
  else if String.eqb type "GET_TIME" then getCurrentTime now s
  else ([ERROR ("Unknown message type: " +:+ type)], s).

(** The callback of the interval set by [startTimer]. *)
Definition onInterval (now : Z) (s : Scope) : list TimerWorkerResponse :=
  match startTime (variables s) with
  | Some t => if isRunning (variables s) then [TIME_UPDATE (now - t)] else []
  | None => []
  end.

(** What happens in the worker: a message arrives, or 100 ms have passed
    and the intervals that are set fire. *)
Inductive Happening :=
| Message (type : string)
| Elapsed.

Definition happen (now : Z) (h : Happening) (s : Scope) : list TimerWorkerResponse * Scope :=
  match h with
  | Message type => onmessage now type s
  | Elapsed => (flat_map (fun _ => onInterval now s) (intervals s), s)
  end.

(** A history of the worker: each happening with its reading of the clock. *)
Fixpoint run (history : list (Z * Happening)) (s : Scope)
  : list TimerWorkerResponse * Scope :=
  match history with
  | [] => ([], s)
  | (now, h) :: later =>
      let (posted, s1) := happen now h s in
      let (posted', s2) := run later s1 in
      (posted ++ posted', s2)
  end.

End TimerWorker.

(** [formatTime] of [Ranking.tsx], on a time in whole milliseconds. *)
Module Ranking.

Local Open Scope Z_scope.

(** The whole numbers from zero on that a [number] holds exactly, and that
    [toString] writes out in full. *)
Definition MAX_SAFE_INTEGER : Z := 9007199254740991.

Definition wholeMilliseconds (time : Z) : Prop := 0 <= time <= MAX_SAFE_INTEGER.

(** [s.padStart(2, "0")] *)
Definition padStart2 (s : string) : string :=
  match String.length s with
  | O => "00"
  | S O => "0" +:+ s
  | _ => s
  end.

Definition formatTime (time : Z) : string :=
  let minutes := time `div` 60000 in
  let seconds := (time `rem` 60000) `div` 1000 in
  let milliseconds := (time `rem` 1000) `div` 10 in
  padStart2 (pretty minutes) +:+ ":" +:+ padStart2 (pretty seconds)
  +:+ "." +:+ padStart2 (pretty milliseconds).

End Ranking.

(** ** From the ledger to the dashboard

    A change of a table reaches [cdk/lambda/pass-incident/index.ts] as the new
    image of the row; the handler sends an AppSync mutation, which the
    resolvers of [cdk/lib/construct/detect-incidents.ts] pass on unchanged to
    the subscription of [webapp/src/Architecture.tsx]. *)
Module PassIncident.

(** [dynamodb.NewImage]: the attributes the handler reads, when present. *)
Record NewImage := mkNewImage {
  ComponentName : option string;
  CurrentState : option string;
  State : option string
}.

Inductive Mutation :=
| UpdatedCompnent (component state : string)
| UpdatedGameState (state : string).

(** What an invocation does: it sends a mutation, does nothing, or fails
    reading a property of [undefined]. *)
Inductive Outcome :=
| Sent (mutation : Mutation)
| Idle
| TypeError.

Definition handler (image : NewImage) : Outcome :=
  match ComponentName image with
  | Some componentType =>
      match CurrentState image with
      | None => TypeError
      | Some statusType =>
          let sendStatusType :=
            if String.eqb statusType "Green" then "normal"
            else if String.eqb statusType "Red" then "incident"
            else EmptyString in
          let sendComponentType :=
            if String.eqb componentType "ALB SG" then "albsg"
            else if String.eqb componentType "EC2 SG" then "ec2sg"
            else if String.eqb componentType "EC2 Role" then "ec2"
            else if String.eqb componentType "RDS SG" then "rdssg"
            else if String.eqb componentType "S3" then "s3"
            else if String.eqb componentType "CloudTrail" then "cloudtrail"
            else if String.eqb componentType "EC2" then "ec2"
            else if String.eqb componentType "EC2 Process" then "ec2"
            else EmptyString in
          Sent (UpdatedCompnent sendComponentType sendStatusType)
      end
  | None =>
      match State image with
      | Some stateType =>
          let sendStateType :=
            if String.eqb stateType "Ready" then "ready"
            else if String.eqb stateType "Ongoing" then "ongoing"
            else if String.eqb stateType "Resetting" then "resetting"
            else EmptyString in
          Sent (UpdatedGameState sendStateType)
      | None => Idle
      end
  end.

End PassIncident.

Module Architecture.

Inductive IconState := normal | incident.

(** The six [useState] cells of the component. *)
Record Icons := mkIcons {
  albState : IconState;
  ec2sgState : IconState;
  ec2State : IconState;
  rdssgState : IconState;
  cloudtrailState : IconState;
  s3State : IconState
}.

Definition initial : Icons := mkIcons normal normal normal normal normal normal.

(** [state === "normal" || state === "incident"] *)
Definition known (state : string) : option IconState :=
  if String.eqb state "normal" then Some normal
  else if String.eqb state "incident" then Some incident
  else None.

(** The [next] callback of the subscription, on [result.data?.updatedCompnentSub]. *)
Definition next (componentData : option (string * string)) (icons : Icons) : Icons :=
  match componentData with
  | None => icons
  | Some (component, state) =>
      let icons :=
        if String.eqb component "albsg"
        then match known state with
             | Some s => mkIcons s (ec2sgState icons) (ec2State icons) (rdssgState icons)
                                 (cloudtrailState icons) (s3State icons)
             | None => icons
             end
        else icons in
      let icons :=
        if String.eqb component "ec2sg"
        then match known state with
             | Some s => mkIcons (albState icons) s (ec2State icons) (rdssgState icons)
                                 (cloudtrailState icons) (s3State icons)
             | None => icons
             end
        else icons in
      let icons :=
        if String.eqb component "ec2"
        then match known state with
             | Some s => mkIcons (albState icons) (ec2sgState icons) s (rdssgState icons)
                                 (cloudtrailState icons) (s3State icons)
             | None => icons
             end
        else icons in
      let icons :=
        if String.eqb component "rdssg"
        then match known state with
             | Some s => mkIcons (albState icons) (ec2sgState icons) (ec2State icons) s
                                 (cloudtrailState icons) (s3State icons)
             | None => icons
             end
        else icons in
      let icons :=
        if String.eqb component "cloudtrail"
        then match known state with
             | Some s => mkIcons (albState icons) (ec2sgState icons) (ec2State icons)
                                 (rdssgState icons) s (s3State icons)
             | None => icons
             end
        else icons in
      if String.eqb component "s3"
      then match known state with
           | Some s => mkIcons (albState icons) (ec2sgState icons) (ec2State icons)
                               (rdssgState icons) (cloudtrailState icons) s
           | None => icons
           end
      else icons
  end.

(** A mutation as the subscription of the component sees it. *)
Definition receive (mutation : PassIncident.Mutation) (icons : Icons) : Icons :=
  match mutation with
  | PassIncident.UpdatedCompnent component state => next (Some (component, state)) icons
  | PassIncident.UpdatedGameState _ => icons
  end.

(** A table change passed on: through the handler to the component. *)
Definition passOn (icons : Icons) (image : PassIncident.NewImage) : Icons :=
  match PassIncident.handler image with
  | PassIncident.Sent mutation => receive mutation icons
  | _ => icons
  end.

End Architecture.

(** ** Predicates used by the statements *)

(** A computation leaves the part [π] of the world as it found it. *)
Definition keeps {X A : Type} (π : World -> X) (m : M A) : Prop :=
  ∀ w, π (m w).2 = π w.

(** Parts of the world that neither the fault schedule nor the trace belong to. *)
Class Observable {X : Type} (π : World -> X) : Prop := {
  obs_faults : ∀ fs w, π (set_faults fs w) = π w;
  obs_emit : ∀ e w, π (emit e w) = π w
}.

(** Parts of the world that a change of the cloud resources, of the
    executions, or of the game state does not reach. *)
Class AwsBlind {X : Type} (π : World -> X) : Prop :=
  aws_blind : ∀ f w, π (set_aws f w) = π w.

Class SfnBlind {X : Type} (π : World -> X) : Prop :=
  sfn_blind : ∀ f w, π (set_executions f w) = π w.

(** ... or that the stopping of executions, at least, does not reach. *)
Class StopBlind {X : Type} (π : World -> X) : Prop :=
  stop_blind : ∀ arn w, π (set_executions (List.map (abort arn)) w) = π w.

Class PhaseBlind {X : Type} (π : World -> X) : Prop :=
  phase_blind : ∀ gameId state w, π (set_db (putGameState gameId state) w) = π w.

(** The ledger entry of a component. *)
Definition ledger (t : Scenario) (component : string) (w : World) : option Health :=
  scenarioTable t (db w) !! component.

(** The ledger entry a branch writes. *)
Definition entry (b : Observer.Branch) (w : World) : option Health :=
  ledger (Observer.table b) (Observer.component b) w.

(** The table and the component a branch writes. *)
Definition key (b : Observer.Branch) : Scenario * string :=
  (Observer.table b, Observer.component b).

(** The probes of the branches read the tables and do not write them. *)
Definition readOnly (l : list Observer.Branch) : Prop :=
  ∀ b, b ∈ l → keeps db (Observer.probe b).

(** Every component the branches poll reads [Green]. *)
Definition polledHealthy (branches : list Observer.Branch) (w : World) : Prop :=
  ∀ b, b ∈ branches → entry b w = Some Green.

(** The phase of the game ["default"]. *)
Definition phase (w : World) : option string := gameStateTable (db w) !! "default".

(** The events a step added to the trace. *)
Definition added (w w' : World) (events : list Event) : Prop :=
  trace w' = (trace w ++ events)%list.

(** A computation that throws has left the part [π] of the world as it was. *)
Definition keepsOnThrow {X A : Type} (π : World -> X) (m : M A) : Prop :=
  ∀ w e w', m w = (Throw e, w') → π w' = π w.

(** A computation never throws. *)
Definition total {A : Type} (m : M A) : Prop :=
  ∀ w, ∃ a w', m w = (Return a, w').

(** Every event a computation adds to the trace satisfies [P]. *)
Definition emits {A : Type} (P : Event -> Prop) (m : M A) : Prop :=
  ∀ w, ∃ events, added w (m w).2 events ∧ Forall P events.

(** The two scenario tables together: the whole component ledger. *)
Definition scenarioTables (w : World) : gmap string Health * gmap string Health :=
  (securityScenarioTable (db w), resilienceScenarioTable (db w)).

(** The lines with which the reset handler announces its six restore steps. *)
Definition banners : list string :=
  [ "Resetting security groups...";
    "Enabling S3 public access block...";
    "Enabling CloudTrail...";
    "Resetting IAM roles...";
    "Starting EC2 force restart and setting game state to Resetting...";
    "Starting observation StepFunction..." ].

Definition isBanner (e : Event) : bool :=
  match e with
  | Log msg => mem msg banners
  | _ => false
  end.

(** An event that is not the announcement of a restore step. *)
Definition quiet (e : Event) : Prop := isBanner e = false.

(** The announcements among some events, in order. *)
Definition announcements (events : list Event) : list string :=
  omap (fun e => match e with
                 | Log msg => if mem msg banners then Some msg else None
                 | _ => None
                 end) events.

(** The restore steps a run of the reset handler has announced, in order. *)
Definition stepsAnnounced (w w' : World) : list string :=
  announcements (drop (length (trace w)) (trace w')).

(** The executions there are, whatever their status. *)
Definition executionIds (w : World) : list (string * string) :=
  (fun e => (executionArn e, stateMachine e)) <$> executions w.

(** No execution was started. *)
Definition noneStarted (w w' : World) : Prop := executionIds w' = executionIds w.

(** The run from [w] to [w'] reports the group [gid] as reset. *)
Definition reportsReset (label gid : string) (w w' : World) : Prop :=
  Log ("Reset " +:+ label +:+ " security group " +:+ gid +:+ " successfully")
  ∈ drop (length (trace w)) (trace w').

(** Steps run one after the other, each announced by its banner; the first
    one that throws ends the sequence. *)
Fixpoint runSteps (steps : list (string * M unit)) : M unit :=
  match steps with
  | [] => ret tt
  | (banner, step) :: rest => consoleLog banner >> step >> runSteps rest
  end.

(** The steps of [Reset.restore], with their banners. *)
Definition restoreSteps (table : string) : list (string * M unit) :=
  [ ("Resetting security groups...", Reset.resetSecurityGroups table);
    ("Enabling S3 public access block...", Reset.enableS3PublicAccessBlock table);
    ("Enabling CloudTrail...", Reset.enableCloudTrail table);
    ("Resetting IAM roles...", Reset.resetIAMRole table);
    ("Starting EC2 force restart and setting game state to Resetting...",
     Reset.forceRestartEC2InstancesWithStateChange table);
    ("Starting observation StepFunction...", Reset.startObservationStateMachine) ].

(** The world the reset handler is in once it has stopped the executions. *)
Definition afterStop (w : World) : World :=
  (Reset.stopRunningStepFunctions
     (emit (Log "Stopping running Step Functions...") w)).2.

(** The resource-mapping table the handlers read. *)
Definition mappingTable (w : World) : string :=
  orDefault (RESOURCE_MAPPING_TABLE_NAME (env w)) "ResourceMappingTable".

(** The executions of a state machine that are running. *)
Definition runningOn (arn : string) (w : World) : list Execution :=
  List.filter (fun e => String.eqb (stateMachine e) arn && bool_decide (status e = RUNNING))
              (executions w).

(** An execution after [StopExecution] on each execution of a list. *)
Definition abortAll (l : list Execution) (e : Execution) : Execution :=
  fold_left (fun e x => abort (executionArn x) e) l e.

(** The components a scan of a scenario table yields, in the order of the scan. *)
Definition scanned (t : Scenario) (w : World) : list string :=
  (map_to_list (scenarioTable t (db w))).*1.

(** A computation returns, rather than throws, from the world [w]. *)
Definition returns {A : Type} (m : M A) (w : World) : Prop :=
  ∃ a w', m w = (Return a, w').

(** The world after the turns of a loop over components, one after the other. *)
Definition turns (turn : string -> World -> World) (components : list string)
    (w : World) : World :=
  fold_left (fun w componentName => turn componentName w) components w.

(** What a turn of the hard security loop does to the resource of a
    component, before it marks the component. *)
Definition actuateSecurity (injectVulnerability : string -> option ResourceItem -> M unit)
    (table componentName : string) : M unit :=
  let resourceType := SecurityInjection.mapComponentToResourceType componentName in
  let* resourceInfo := SecurityInjection.getResourceInfo table resourceType in
  injectVulnerability resourceType resourceInfo.

(** The same for the hard resilience loop. *)
Definition actuateResilience (table componentName : string) : M unit :=
  ResilienceInjection.Hard.injectFailure table
    (ResilienceInjection.Hard.mapComponentToResourceType componentName) componentName.

(** The world after one turn of the loop of each hard handler. *)
Definition securityTurn (injectVulnerability : string -> option ResourceItem -> M unit)
    (table componentName : string) (w : World) : World :=
  (SecurityInjection.injectOne injectVulnerability table componentName w).2.

Definition resilienceTurn (table componentName : string) (w : World) : World :=
  (ResilienceInjection.Hard.injectOne table componentName [] w).2.

(** A turn of the hard resilience loop acts on a component that is not the
    skipped one and whose failure injection returns. *)
Definition actsResilience (table componentName : string) (w : World) : Prop :=
  componentName ≠ "EC2 Process" ∧ returns (actuateResilience table componentName) w.

(** ** Further predicates *)

(** The mapping table the handlers read names [id] for a resource type. *)
Definition mappedId (w : World) (resourceType id : string) : Prop :=
  ∃ items item,
    mappingTables (db w) !! mappingTable w = Some items
    ∧ items !! resourceType = Some item
    ∧ ResourceId item = id
    ∧ truthy id = true.

(** Two worlds with the same tables and environment, the second with no
    service fault scheduled. *)
Definition quietAfter (w w' : World) : Prop :=
  faults w' = [] ∧ db w' = db w ∧ env w' = env w.

(** What the mapping table [table] holds under a resource type; nothing when
    the table cannot be read. *)
Definition mappedItem (table resourceType : string) (w : World) : option ResourceItem :=
  match mappingTables (db w) !! table with
  | Some items => items !! resourceType
  | None => None
  end.

(** The instances the restart step of the reset finds: those of the mapping
    table, or else the one the environment names. *)
Definition restartTargets (table : string) (w : World) : list string :=
  let mapped :=
    (if hasResourceId (mappedItem table "EC2_INSTANCE_1" w)
     then [resourceIdOf (mappedItem table "EC2_INSTANCE_1" w)] else [])
    ++ (if hasResourceId (mappedItem table "EC2_INSTANCE_2" w)
        then [resourceIdOf (mappedItem table "EC2_INSTANCE_2" w)] else []) in
  match mapped, MEMO_APP_INSTANCE_ID (env w) with
  | [], Some instanceId => if truthy instanceId then [instanceId] else []
  | _, _ => mapped
  end.

(** ** The stopwatch the timer worker stands for *)
Module Stopwatch.

Import TimerWorker.
Local Open Scope Z_scope.

(** The time gathered over the finished runs, and since when the watch runs. *)
Record Stopwatch := mkStopwatch {
  gathered : Z;
  since : option Z
}.

Definition zero : Stopwatch := mkStopwatch 0 None.

Definition reading (now : Z) (sw : Stopwatch) : Z :=
  match since sw with
  | Some t => gathered sw + (now - t)
  | None => gathered sw
  end.

Definition happen (now : Z) (h : Happening) (sw : Stopwatch)
  : list TimerWorkerResponse * Stopwatch :=
  match h with
  | Message type =>
      if String.eqb type "START" then
        match since sw with
        | None => ([TIMER_STARTED], mkStopwatch (gathered sw) (Some now))
        | Some _ => ([], sw)
        end
      else if String.eqb type "STOP" then
        match since sw with
        | Some _ => ([TIMER_STOPPED (reading now sw)], mkStopwatch (reading now sw) None)
        | None => ([], sw)
        end
      else if String.eqb type "RESET" then ([TIMER_RESET], zero)
      else if String.eqb type "GET_TIME" then ([CURRENT_TIME (reading now sw)], sw)
      else ([ERROR ("Unknown message type: " +:+ type)], sw)
  | Elapsed =>
      match since sw with
      | Some _ => ([TIME_UPDATE (reading now sw)], sw)
      | None => ([], sw)
      end
  end.

Fixpoint run (history : list (Z * Happening)) (sw : Stopwatch)
  : list TimerWorkerResponse * Stopwatch :=
  match history with
  | [] => ([], sw)
  | (now, h) :: later =>
      let (posted, sw1) := happen now h sw in
      let (posted', sw2) := run later sw1 in
      (posted ++ posted', sw2)
  end.

(** The clock of a history: readings after the epoch that never go back. *)
Fixpoint clockFrom (last : Z) (history : list (Z * Happening)) : Prop :=
  match history with
  | [] => True
  | (now, _) :: later => last <= now ∧ clockFrom now later
  end.

(** The worker and the stopwatch agree, for clock readings from [last] on. *)
Definition agrees (last : Z) (s : Scope) (sw : Stopwatch) : Prop :=
  0 < nextIntervalId s
  ∧ pausedTime (variables s) = gathered sw
  ∧ 0 <= gathered sw
  ∧ match since sw with
    | None =>
        isRunning (variables s) = false
        ∧ gathered sw < last
        ∧ intervalId (variables s) = None
        ∧ intervals s = []
    | Some t =>
        isRunning (variables s) = true
        ∧ startTime (variables s) = Some (t - gathered sw)
        ∧ 0 < t - gathered sw
        ∧ t <= last
        ∧ 1 < nextIntervalId s
        ∧ intervalId (variables s) = Some (nextIntervalId s - 1)
        ∧ intervals s = [nextIntervalId s - 1]
    end.

(** The worker holds one interval, the one it has set last, while it runs,
    and none while it does not. *)
Definition tidy (s : Scope) : Prop :=
  0 < nextIntervalId s
  ∧ if isRunning (variables s)
    then 1 < nextIntervalId s
         ∧ is_Some (startTime (variables s))
         ∧ intervalId (variables s) = Some (nextIntervalId s - 1)
         ∧ intervals s = [nextIntervalId s - 1]
    else intervalId (variables s) = None ∧ intervals s = [].

End Stopwatch.

(** ** What the tables hold and what the dashboard shows *)

(** The state last written for each component, by the row images in the
    order of the writes. *)
Definition written (images : list PassIncident.NewImage) : gmap string string :=
  fold_left (fun ledger image =>
               match PassIncident.ComponentName image, PassIncident.CurrentState image with
               | Some component, Some state => <[component := state]> ledger
               | _, _ => ledger
               end) images ∅.

(** The icons when the images have been passed on in that order. *)
Definition shown (images : list PassIncident.NewImage) : Architecture.Icons :=
  fold_left Architecture.passOn images Architecture.initial.

(** * Properties *)

(** ** Frames: what a computation does not touch *)

#[global] Instance Observable_db : Observable db.
Proof. split; reflexivity. Qed.

#[global] Instance Observable_aws : Observable aws.
Proof. split; reflexivity. Qed.

#[global] Instance Observable_executions : Observable executions.
Proof. split; reflexivity. Qed.

Create HintDb keeps.

#[global] Hint Extern 1 (Observable _) => typeclasses eauto : keeps.

Section Keeps.
Context {X : Type} (π : World -> X).

Lemma keeps_ret {A} (a : A) : keeps π (ret a).
Proof. intros w. reflexivity. Qed.

Lemma keeps_throw {A} (e : JsError) : keeps π (@throw A e).
Proof. intros w. reflexivity. Qed.

Lemma keeps_gets {A} (f : World -> A) : keeps π (gets f).
Proof. intros w. reflexivity. Qed.

Lemma keeps_bind {A B} (m : M A) (k : A -> M B) :
  keeps π m → (∀ a, keeps π (k a)) → keeps π (bind m k).
Proof.
  intros Hm Hk w. unfold bind. specialize (Hm w).
  destruct (m w) as [[a|e] w1]; simpl in *; [|done].
  rewrite Hk. done.
Qed.

Lemma keeps_tryCatch {A} (m : M A) (h : JsError -> M A) :
  keeps π m → (∀ e, keeps π (h e)) → keeps π (tryCatch m h).
Proof.
  intros Hm Hh w. unfold tryCatch. specialize (Hm w).
  destruct (m w) as [[a|e] w1]; simpl in *; [done|].
  rewrite Hh. done.
Qed.

Lemma keeps_modify (f : World -> World) :
  (∀ w, π (f w) = π w) → keeps π (modify f).
Proof. intros Hf w. apply Hf. Qed.

Context `{!Observable π}.

Lemma keeps_consoleLog msg : keeps π (consoleLog msg).
Proof. intros w. apply obs_emit. Qed.

Lemma keeps_consoleError msg : keeps π (consoleError msg).
Proof. intros w. apply obs_emit. Qed.

Lemma keeps_apiEvent op target : keeps π (apiEvent op target).
Proof. intros w. apply obs_emit. Qed.

Lemma keeps_rethrow {A} msg (m : M A) : keeps π m → keeps π (rethrow msg m).
Proof.
  intros Hm. apply keeps_tryCatch; [done|]. intros e.
  apply keeps_bind; [apply keeps_consoleError | intros; apply keeps_throw].
Qed.

Lemma keeps_apiCall : keeps π apiCall.
Proof.
  intros w. unfold apiCall. destruct (faults w) as [|[n|] fs]; simpl;
    rewrite ?obs_faults; done.
Qed.

Lemma keeps_forOf {A} (xs : list A) (body : A -> M unit) :
  (∀ x, keeps π (body x)) → keeps π (forOf xs body).
Proof.
  intros Hb. induction xs as [|x xs IH]; simpl.
  - apply keeps_ret.
  - apply keeps_bind; [apply Hb | intros; apply IH].
Qed.

(** A call that only reads: the fault schedule is all it moves. *)
Lemma keeps_read {A} (f : World -> Res A) :
  keeps π (apiCall >> (fun w => (f w, w))).
Proof.
  apply keeps_bind; [apply keeps_apiCall|]. intros _ w. reflexivity.
Qed.
End Keeps.

#[global] Hint Resolve keeps_ret keeps_throw keeps_gets keeps_consoleLog
  keeps_consoleError keeps_apiEvent keeps_apiCall : keeps.

(** One step of a frame proof: split the computation at its head. *)
Ltac keeps_step :=
  lazymatch goal with
  | |- keeps _ (bind _ _) => apply keeps_bind; [| intros ?]
  | |- keeps _ (tryCatch _ _) => apply keeps_tryCatch; [| intros ?]
  | |- keeps _ (rethrow _ _) => apply keeps_rethrow; [typeclasses eauto |]
  | |- keeps _ (forOf _ _) => apply keeps_forOf; intros ?
  | |- keeps _ (let _ := _ in _) => cbv zeta
  | |- keeps _ (match ?x with _ => _ end) => destruct x
  | |- keeps _ (let (_, _) := ?x in _) => destruct x
  | |- keeps _ _ => solve [eauto with keeps]
  end.

Ltac keeps_auto := repeat keeps_step.

(** The reads of the control plane. *)
Section KeepsReads.
Context {X : Type} (π : World -> X) `{!Observable π}.

Ltac read_only :=
  intros w; unfold bind; pose proof (keeps_apiCall π w) as Hc;
  destruct (apiCall w) as [[[]|e] w1]; simpl in *; [|done];
  repeat case_match; simpl; done.

Lemma keeps_describeSecurityGroups ids : keeps π (describeSecurityGroups ids).
Proof. unfold describeSecurityGroups. read_only. Qed.

Lemma keeps_describeSecurityGroupsByLogicalId p :
  keeps π (describeSecurityGroupsByLogicalId p).
Proof. unfold describeSecurityGroupsByLogicalId. keeps_auto. Qed.

Lemma keeps_describeInstances ids : keeps π (describeInstances ids).
Proof. unfold describeInstances. read_only. Qed.

Lemma keeps_describeIamInstanceProfileAssociations ids :
  keeps π (describeIamInstanceProfileAssociations ids).
Proof. unfold describeIamInstanceProfileAssociations. keeps_auto. Qed.

Lemma keeps_getInstanceProfile n : keeps π (getInstanceProfile n).
Proof. unfold getInstanceProfile. read_only. Qed.

Lemma keeps_getPublicAccessBlock b : keeps π (getPublicAccessBlock b).
Proof. unfold getPublicAccessBlock. read_only. Qed.

Lemma keeps_describeTrails names : keeps π (describeTrails names).
Proof. unfold describeTrails. keeps_auto. Qed.

Lemma keeps_getTrailStatus n : keeps π (getTrailStatus n).
Proof. unfold getTrailStatus. read_only. Qed.

Lemma keeps_httpGetLoadBalancer : keeps π httpGetLoadBalancer.
Proof. intros w. unfold httpGetLoadBalancer. repeat case_match; done. Qed.

Lemma keeps_listRunningExecutions arn : keeps π (listRunningExecutions arn).
Proof. unfold listRunningExecutions. keeps_auto. Qed.

Lemma keeps_ddbGetMapping t k : keeps π (ddbGetMapping t k).
Proof. intros w. unfold ddbGetMapping. case_match; done. Qed.

Lemma keeps_ddbGetGameState g : keeps π (ddbGetGameState g).
Proof. apply keeps_gets. Qed.

Lemma keeps_ddbScan t : keeps π (ddbScan t).
Proof. apply keeps_gets. Qed.

Lemma keeps_resourceMappingTableName : keeps π resourceMappingTableName.
Proof. apply keeps_gets. Qed.
End KeepsReads.

#[global] Hint Resolve keeps_describeSecurityGroups keeps_describeSecurityGroupsByLogicalId
  keeps_describeInstances keeps_describeIamInstanceProfileAssociations
  keeps_getInstanceProfile keeps_getPublicAccessBlock keeps_describeTrails
  keeps_getTrailStatus keeps_httpGetLoadBalancer keeps_listRunningExecutions
  keeps_ddbGetMapping keeps_ddbGetGameState keeps_ddbScan
  keeps_resourceMappingTableName : keeps.

(** ** The observers *)

Section ObserverFrames.
Import Observer.
Context {X : Type} (π : World -> X) `{!Observable π}.

Lemma keeps_getMappedResourceId r n l : keeps π (getMappedResourceId r n l).
Proof. unfold getMappedResourceId. keeps_auto. Qed.

Hint Resolve keeps_getMappedResourceId : keeps.

Lemma keeps_getAlbSecurityGroupId : keeps π getAlbSecurityGroupId.
Proof. unfold getAlbSecurityGroupId. keeps_auto. Qed.

Lemma keeps_getRdsSecurityGroupId : keeps π getRdsSecurityGroupId.
Proof. unfold getRdsSecurityGroupId. keeps_auto. Qed.

Lemma keeps_getS3BucketName : keeps π getS3BucketName.
Proof. unfold getS3BucketName. keeps_auto. Qed.

Lemma keeps_getEc2SecurityGroupIds : keeps π getEc2SecurityGroupIds.
Proof. unfold getEc2SecurityGroupIds. keeps_auto. Qed.

Lemma keeps_getCloudTrailArn : keeps π getCloudTrailArn.
Proof. unfold getCloudTrailArn. keeps_auto. Qed.

Lemma keeps_getEc2InstanceIds : keeps π getEc2InstanceIds.
Proof. unfold getEc2InstanceIds. keeps_auto. Qed.

Lemma keeps_checkEc2RolesLoop described safe acc :
  keeps π (checkEc2RolesLoop described safe acc).
Proof.
  revert acc. induction described as [|[id i] rest IH]; intros acc; simpl.
  - apply keeps_ret.
  - repeat case_match; keeps_auto; apply IH.
Qed.

Hint Resolve keeps_getAlbSecurityGroupId keeps_getRdsSecurityGroupId
  keeps_getS3BucketName keeps_getEc2SecurityGroupIds keeps_getCloudTrailArn
  keeps_getEc2InstanceIds keeps_checkEc2RolesLoop : keeps.

Lemma keeps_getSafeRoleName : keeps π getSafeRoleName.
Proof. unfold getSafeRoleName. keeps_auto. Qed.

Lemma keeps_checkEc2Roles ids safe : keeps π (checkEc2Roles ids safe).
Proof. unfold checkEc2Roles. keeps_auto. Qed.

Lemma keeps_checkEc2ProcessWithNewLogic : keeps π checkEc2ProcessWithNewLogic.
Proof.
  unfold checkEc2ProcessWithNewLogic, checkLoadBalancerHealth,
    checkAlbSecurityGroupDirect, checkEc2SecurityGroupsDirect, checkEc2StatusDirect.
  keeps_auto.
Qed.

Hint Resolve keeps_getSafeRoleName keeps_checkEc2Roles
  keeps_checkEc2ProcessWithNewLogic : keeps.

(** No probe of a deployed branch touches [π]: they only read. *)
Lemma keeps_probe b : b ∈ Observation.functionNameArray → keeps π (probe b).
Proof.
  unfold Observation.functionNameArray. intros Hb.
  repeat (apply elem_of_cons in Hb as [->|Hb]); [..|by apply elem_of_nil in Hb];
    simpl;
    unfold checkAlbSecurityGroupSsh, checkCloudTrailStatus, checkEc2SecurityGroupsSsh,
      checkRdsSecurityGroup, checkS3PublicAccessBlock, checkAlbSecurityGroupHttp,
      checkEc2SecurityGroupsAlb, checkEc2Status;
    keeps_auto.
Qed.
End ObserverFrames.

(** ** The observation state machine *)

Section Machine.
Import Observer Observation.

Lemma ledger_putComponent t c h t' c' w :
  ledger t' c' (set_db (putComponent t c h) w)
  = if decide ((t, c) = (t', c')) then Some h else ledger t' c' w.
Proof.
  unfold ledger. destruct (decide ((t, c) = (t', c'))) as [Hk|Hk].
  - simplify_eq. destruct t'; simpl; apply lookup_insert_eq.
  - destruct t, t'; simpl; try done;
      (rewrite lookup_insert_ne; [done | congruence]).
Qed.

Lemma ledger_emit t c e w : ledger t c (emit e w) = ledger t c w.
Proof. reflexivity. Qed.

(** What a handler does, given what its probe does. *)
Lemma handler_return b w faulted w1 :
  probe b w = (Return faulted, w1) →
  handler b w =
    (Return (negb faulted),
     emit (LedgerWrite (table b) (component b) (if faulted then Red else Green))
          (set_db (putComponent (table b) (component b)
                                (if faulted then Red else Green)) w1)).
Proof.
  intros Hp. unfold handler, rethrow, tryCatch, bind. rewrite Hp.
  destruct faulted; reflexivity.
Qed.

Lemma handler_throw b w e w1 :
  probe b w = (Throw e, w1) →
  handler b w = (Throw e, emit (LogError "Error in handler") w1).
Proof.
  intros Hp. unfold handler, rethrow, tryCatch, bind. rewrite Hp. reflexivity.
Qed.

Lemma handler_throw_inv b w e w' :
  handler b w = (Throw e, w') →
  ∃ w1, probe b w = (Throw e, w1) ∧ w' = emit (LogError "Error in handler") w1.
Proof.
  intros Hh. destruct (probe b w) as [[faulted|e1] w1] eqn:Hp.
  - rewrite (handler_return _ _ _ _ Hp) in Hh. done.
  - rewrite (handler_throw _ _ _ _ Hp) in Hh. simplify_eq. eauto.
Qed.

Variable branches : list Branch.
Hypothesis probes_read_only : ∀ b, b ∈ branches → keeps db (probe b).

(** A handler writes the entry of its own component only. *)
Lemma handler_other b b' w :
  b' ∈ branches → key b' ≠ key b → entry b (handler b' w).2 = entry b w.
Proof.
  intros Hin Hne. pose proof (probes_read_only b' Hin w) as Hdb.
  unfold entry. destruct (probe b' w) as [[faulted|e] w1] eqn:Hp; simpl in Hdb.
  - rewrite (handler_return _ _ _ _ Hp). simpl.
    rewrite ledger_emit, ledger_putComponent.
    rewrite decide_False by done. unfold ledger. by rewrite Hdb.
  - rewrite (handler_throw _ _ _ _ Hp). simpl.
    rewrite ledger_emit. unfold ledger. by rewrite Hdb.
Qed.

Lemma handler_gameState b w :
  b ∈ branches → gameStateTable (db (handler b w).2) = gameStateTable (db w).
Proof.
  intros Hin. pose proof (probes_read_only b Hin w) as Hdb.
  destruct (probe b w) as [[faulted|e] w1] eqn:Hp; simpl in Hdb.
  - rewrite (handler_return _ _ _ _ Hp). simpl. rewrite <- Hdb.
    by destruct (table b).
  - rewrite (handler_throw _ _ _ _ Hp). simpl. by rewrite Hdb.
Qed.

Lemma parallel_cons b rest w :
  (observationParallel (b :: rest) w).2
  = (observationParallel rest (handler b w).2).2.
Proof.
  simpl. destruct (handler b w) as [[s|e] w1]; simpl; [|done].
  by destruct (observationParallel rest w1) as [[outs|e] w2].
Qed.

Lemma parallel_app pre post w :
  (observationParallel (pre ++ post) w).2
  = (observationParallel post (observationParallel pre w).2).2.
Proof.
  revert w. induction pre as [|b pre IH]; intros w; [done|].
  rewrite <- app_comm_cons, !parallel_cons. apply IH.
Qed.
End Machine.

Section Parallel.
Import Observer Observation.

Lemma readOnly_cons b l : readOnly (b :: l) → keeps db (probe b) ∧ readOnly l.
Proof.
  intros H. split; [apply H; left | intros b' Hb'; apply H; by right].
Qed.

Lemma readOnly_app l1 l2 : readOnly (l1 ++ l2) → readOnly l1 ∧ readOnly l2.
Proof.
  intros H. split; intros b Hb; apply H; apply elem_of_app; eauto.
Qed.

Lemma parallel_keeps_entry b l w :
  readOnly l → (key b ∉ (key <$> l)) →
  entry b (observationParallel l w).2 = entry b w.
Proof.
  revert w. induction l as [|b' l IH]; intros w Hro Hnotin; [done|].
  rewrite parallel_cons. rewrite fmap_cons in Hnotin.
  apply not_elem_of_cons in Hnotin as [Hne Hnotin].
  apply readOnly_cons in Hro as [Hb' Hro].
  rewrite IH by done.
  apply (handler_other [b']); [|left|done].
  intros b0 Hb0. apply list_elem_of_singleton in Hb0 as ->. done.
Qed.

Lemma parallel_gameState l w :
  readOnly l →
  gameStateTable (db (observationParallel l w).2) = gameStateTable (db w).
Proof.
  revert w. induction l as [|b l IH]; intros w Hro; [done|].
  rewrite parallel_cons. apply readOnly_cons in Hro as [Hb Hro].
  rewrite IH by done.
  apply (handler_gameState [b]); [|left].
  intros b0 Hb0. apply list_elem_of_singleton in Hb0 as ->. done.
Qed.

(** When the [Parallel] state completes, each branch has written its
    verdict, and the verdict is still there at the end. *)
Lemma parallel_returns l w outputs w' :
  readOnly l → NoDup (key <$> l) →
  observationParallel l w = (Return outputs, w') →
  Forall2 (λ b solved, entry b w' = Some (if solved : bool then Green else Red))
          l outputs.
Proof.
  revert w outputs. induction l as [|b l IH]; intros w outputs Hro Hnd Hrun.
  - simpl in Hrun. unfold ret in Hrun. simplify_eq. constructor.
  - apply readOnly_cons in Hro as [Hb Hro].
    rewrite fmap_cons in Hnd. apply NoDup_cons in Hnd as [Hnotin Hnd].
    simpl in Hrun.
    destruct (handler b w) as [[s|e] w1] eqn:Hh; [|done].
    destruct (observationParallel l w1) as [[outs|e] w2] eqn:Hrest; [|done].
    simplify_eq. constructor; [|by eapply IH].
    replace w' with (observationParallel l w1).2 by (by rewrite Hrest).
    rewrite parallel_keeps_entry by done.
    destruct (probe b w) as [[faulted|e] w0] eqn:Hp.
    + rewrite (handler_return _ _ _ _ Hp) in Hh. simplify_eq.
      unfold entry. rewrite ledger_emit, ledger_putComponent.
      rewrite decide_True by done. by destruct faulted.
    + rewrite (handler_throw _ _ _ _ Hp) in Hh. done.
Qed.

(** A branch that throws makes the [Parallel] state fail. *)
Lemma parallel_throws pre b post w e wb :
  handler b (observationParallel pre w).2 = (Throw e, wb) →
  ∃ e', (observationParallel (pre ++ b :: post) w).1 = Throw e'.
Proof.
  revert w. induction pre as [|b0 pre IH]; intros w Hh; simpl in *.
  - rewrite Hh. eauto.
  - destruct (handler b0 w) as [[s|e0] w1] eqn:Hh0; simpl in *; [|eauto].
    destruct (IH w1) as [e' He'].
    + destruct (observationParallel pre w1) as [[outs|e1] w2]; done.
    + destruct (observationParallel (pre ++ b :: post) w1) as [[outs|e1] w2];
        simpl in *; [done|eauto].
Qed.

Lemma filter_length_le (l : list bool) :
  (length (List.filter (λ solved, solved) l) ≤ length l)%nat.
Proof. induction l as [|[] l IH]; simpl; lia. Qed.

Lemma isGameEndCondition_all (input : list bool) :
  isGameEndCondition input = true ↔ Forall (λ solved, solved = true) input.
Proof.
  unfold isGameEndCondition. rewrite Nat.eqb_eq.
  induction input as [|[] l IH]; simpl.
  - split; [constructor|done].
  - rewrite Forall_cons. split.
    + intros H. split; [done|]. apply IH. lia.
    + intros [_ H]. f_equal. by apply IH.
  - pose proof (filter_length_le l) as Hle. split; [lia|].
    intros H. apply Forall_cons in H as [? _]. done.
Qed.

Lemma verdicts_healthy l outputs w :
  Forall2 (λ b solved, entry b w = Some (if solved : bool then Green else Red))
          l outputs →
  polledHealthy l w ↔ Forall (λ solved, solved = true) outputs.
Proof.
  induction 1 as [|b s l outs Hb _ IH].
  - split; [constructor|]. intros _ b Hb. by apply elem_of_nil in Hb.
  - unfold polledHealthy in *. rewrite Forall_cons. split.
    + intros H. split.
      * specialize (H b (list_elem_of_here _ _)). rewrite Hb in H.
        destruct s; [done|discriminate].
      * apply IH. intros b' Hb'. apply H. by right.
    + intros [-> H] b' Hb'. apply elem_of_cons in Hb' as [->|Hb']; [done|].
      by apply IH.
Qed.
End Parallel.

(** The deployed branches write ten different ledger entries. *)
Lemma functionNameArray_distinct :
  NoDup (key <$> Observation.functionNameArray).
Proof. apply (bool_decide_unpack _). vm_compute. exact I. Qed.

Lemma functionNameArray_readOnly : readOnly Observation.functionNameArray.
Proof. intros b Hb. by apply keeps_probe. Qed.

Section ObservationClaims.
Import Observer Observation.

Lemma iteration_entry b gameId l w :
  entry b (iteration l gameId w).2 = entry b (observationParallel l w).2.
Proof.
  unfold iteration. destruct (observationParallel l w) as [[outs|e] w1]; [|done].
  destruct (isGameEndCondition outs); [|done]. simpl. by destruct (table b).
Qed.

Lemma split_distinct pre b post :
  NoDup (key <$> (pre ++ b :: post)) →
  (key b ∉ (key <$> pre)) ∧ (key b ∉ (key <$> post)).
Proof.
  rewrite fmap_app, fmap_cons. intros Hnd.
  apply NoDup_app in Hnd as (_ & Hpre & Hpost).
  apply NoDup_cons in Hpost as [Hpost _]. split; [|done].
  intros Hin. apply (Hpre _ Hin). left.
Qed.






(** C8, as the code has it.  In every iteration an observer that returns
    overwrites the ledger entry of its component with what it has just
    observed, Red when it finds the component faulted and Green otherwise,
    whatever the entry was before. *)
Theorem observer_writes_current_observation gameId pre b post w faulted wb :
  functionNameArray = pre ++ b :: post →
  probe b (observationParallel pre w).2 = (Return faulted, wb) →
  entry b (stateMachineIteration gameId w).2
  = Some (if faulted then Red else Green).
Proof.
  intros Hsplit Hp.
  pose proof functionNameArray_readOnly as Hro.
  pose proof functionNameArray_distinct as Hnd.
  unfold stateMachineIteration. rewrite iteration_entry.
  rewrite Hsplit in Hro, Hnd |- *.
  apply split_distinct in Hnd as [Hpre Hpost].
  apply readOnly_app in Hro as [Hro1 Hro2].
  apply readOnly_cons in Hro2 as [Hb Hro2].
  rewrite parallel_app, parallel_cons, parallel_keeps_entry by done.
  rewrite (handler_return _ _ _ _ Hp). unfold entry. simpl.
  rewrite ledger_emit, ledger_putComponent, decide_True by done.
  done.
Qed.

Lemma observer_writes_witness :
  let w := set_aws Sample.openSsh (Sample.world "Ongoing") in
  let wb := (probe security_albsg (observationParallel [] w).2).2 in
  probe security_albsg (observationParallel [] w).2 = (Return true, wb)
  ∧ entry security_albsg (stateMachineIteration "default" w).2 = Some Red.
Proof.
  intros w wb. split; [vm_compute; reflexivity|].
  apply (observer_writes_current_observation "default" [] security_albsg
           [ security_cloudtrail; security_ec2role; security_ec2sg;
             security_rdssg; security_s3; resilience_albsg; resilience_ec2sg;
             resilience_ec2; resilience_ec2process ]
           w true wb).
  - reflexivity.
  - vm_compute; reflexivity.
Defined.

(** C8 as stated fails.  The bucket is unblocked, so the run keeps polling.
    Its first iteration marks "ALB SG" Green; SSH is then opened on the
    ALB group, and the second iteration of the same run marks "ALB SG"
    Red. *)
Lemma healthy_then_faulted_in_one_run :
  let r := stateMachineRun "default" [Sample.openSsh]
             (set_aws Sample.unblockBucket (Sample.world "Ongoing")) in
  r.1 = Polling
  ∧ trace r.2 !! 0%nat = Some (LedgerWrite Security "ALB SG" Green)
  ∧ trace r.2 !! 10%nat = Some (LedgerWrite Security "ALB SG" Red)
  ∧ ledger Security "ALB SG" r.2 = Some Red.
Proof. vm_compute. done. Qed.
End ObservationClaims.

(** ** Totality and trace of a computation *)

Section Total.
Lemma total_ret {A} (a : A) : total (ret a).
Proof. intros w. by eexists _, _. Qed.

Lemma total_gets {A} (f : World -> A) : total (gets f).
Proof. intros w. by eexists _, _. Qed.

Lemma total_modify f : total (modify f).
Proof. intros w. by eexists _, _. Qed.

Lemma total_consoleLog msg : total (consoleLog msg).
Proof. apply total_modify. Qed.

Lemma total_consoleError msg : total (consoleError msg).
Proof. apply total_modify. Qed.

Lemma total_bind {A B} (m : M A) (k : A -> M B) :
  total m → (∀ a, total (k a)) → total (bind m k).
Proof.
  intros Hm Hk w. destruct (Hm w) as (a & w1 & Hw). unfold bind. rewrite Hw.
  apply Hk.
Qed.

(** A [catch] that cannot throw makes the whole [try] total. *)
Lemma total_tryCatch {A} (m : M A) (h : JsError -> M A) :
  (∀ e, total (h e)) → total (tryCatch m h).
Proof.
  intros Hh w. unfold tryCatch. destruct (m w) as [[a|e] w1].
  - by eexists _, _.
  - apply Hh.
Qed.
End Total.

Create HintDb total.

#[global] Hint Resolve total_ret total_gets total_modify total_consoleLog
  total_consoleError : total.

Ltac total_step :=
  lazymatch goal with
  | |- total (bind _ _) => apply total_bind; [| intros ?]
  | |- total (tryCatch _ _) => apply total_tryCatch; intros ?
  | |- total (let _ := _ in _) => cbv zeta
  | |- total (match ?x with _ => _ end) => destruct x
  | |- total _ => solve [eauto with total]
  end.

Ltac total_auto := repeat total_step.

Section Emits.
Variable P : Event -> Prop.

Lemma added_refl w : added w w [].
Proof. unfold added. by rewrite app_nil_r. Qed.

Lemma added_trans w1 w2 w3 e1 e2 :
  added w1 w2 e1 → added w2 w3 e2 → added w1 w3 (e1 ++ e2).
Proof. unfold added. intros H1 H2. by rewrite H2, H1, app_assoc. Qed.

Lemma emits_silent {A} (m : M A) : keeps trace m → emits P m.
Proof. intros Hk w. exists []. split; [|done]. unfold added. by rewrite Hk, app_nil_r. Qed.

Lemma emits_ret {A} (a : A) : emits P (ret a).
Proof. by apply emits_silent. Qed.

Lemma emits_throw {A} e : emits P (@throw A e).
Proof. by apply emits_silent. Qed.

Lemma emits_gets {A} (f : World -> A) : emits P (gets f).
Proof. by apply emits_silent. Qed.

Lemma emits_bind {A B} (m : M A) (k : A -> M B) :
  emits P m → (∀ a, emits P (k a)) → emits P (bind m k).
Proof.
  intros Hm Hk w. unfold bind. destruct (Hm w) as (e1 & H1 & HP1).
  destruct (m w) as [[a|e] w1]; simpl in *; [|eauto].
  destruct (Hk a w1) as (e2 & H2 & HP2). exists (e1 ++ e2). split.
  - by eapply added_trans.
  - by apply Forall_app.
Qed.

Lemma emits_tryCatch {A} (m : M A) (h : JsError -> M A) :
  emits P m → (∀ e, emits P (h e)) → emits P (tryCatch m h).
Proof.
  intros Hm Hh w. unfold tryCatch. destruct (Hm w) as (e1 & H1 & HP1).
  destruct (m w) as [[a|e] w1]; simpl in *; [eauto|].
  destruct (Hh e w1) as (e2 & H2 & HP2). exists (e1 ++ e2). split.
  - by eapply added_trans.
  - by apply Forall_app.
Qed.

Lemma emits_emit e : P e → emits P (modify (emit e)).
Proof. intros He w. exists [e]. split; [done|]. by constructor. Qed.

Lemma emits_consoleError msg : P (LogError msg) → emits P (consoleError msg).
Proof. apply emits_emit. Qed.

Lemma emits_consoleLog msg : P (Log msg) → emits P (consoleLog msg).
Proof. apply emits_emit. Qed.

Lemma emits_apiCall : emits P apiCall.
Proof.
  apply emits_silent. intros w. unfold apiCall.
  by destruct (faults w) as [|[n|] fs].
Qed.

Lemma emits_forOf {A} (xs : list A) (body : A -> M unit) :
  (∀ x, emits P (body x)) → emits P (forOf xs body).
Proof.
  intros Hb. induction xs as [|x xs IH]; simpl.
  - apply emits_ret.
  - apply emits_bind; [apply Hb | intros; apply IH].
Qed.

Lemma emits_rethrow {A} msg (m : M A) :
  P (LogError msg) → emits P m → emits P (rethrow msg m).
Proof.
  intros HP Hm. apply emits_tryCatch; [done|]. intros e.
  apply emits_bind; [by apply emits_consoleError | intros; apply emits_throw].
Qed.
End Emits.

Create HintDb emits.

#[global] Hint Resolve emits_ret emits_throw emits_gets emits_apiCall : emits.

Ltac emits_step :=
  lazymatch goal with
  | |- emits _ (bind _ _) => apply emits_bind; [| intros ?]
  | |- emits _ (tryCatch _ _) => apply emits_tryCatch; [| intros ?]
  | |- emits _ (rethrow _ _) => apply emits_rethrow; [reflexivity |]
  | |- emits _ (consoleLog _) => apply emits_consoleLog; reflexivity
  | |- emits _ (consoleError _) => apply emits_consoleError; reflexivity
  | |- emits _ (forOf _ _) => apply emits_forOf; intros ?
  | |- emits _ (let _ := _ in _) => cbv zeta
  | |- emits _ (match ?x with _ => _ end) => destruct x
  | |- emits _ _ => solve [eauto with emits]
  end.

Ltac emits_auto := repeat emits_step.

(** ** The control plane: what each call leaves alone *)

#[global] Instance AwsBlind_db : AwsBlind db.
Proof. done. Qed.
#[global] Instance SfnBlind_db : SfnBlind db.
Proof. done. Qed.
#[global] Instance SfnBlind_aws : SfnBlind aws.
Proof. done. Qed.
#[global] Instance PhaseBlind_aws : PhaseBlind aws.
Proof. done. Qed.
#[global] Instance AwsBlind_executions : AwsBlind executions.
Proof. done. Qed.
#[global] Instance PhaseBlind_executions : PhaseBlind executions.
Proof. done. Qed.
#[global] Instance Observable_scenarioTables : Observable scenarioTables.
Proof. split; reflexivity. Qed.
#[global] Instance AwsBlind_scenarioTables : AwsBlind scenarioTables.
Proof. done. Qed.
#[global] Instance SfnBlind_scenarioTables : SfnBlind scenarioTables.
Proof. done. Qed.
#[global] Instance PhaseBlind_scenarioTables : PhaseBlind scenarioTables.
Proof. done. Qed.

#[global] Instance StopBlind_SfnBlind {X} (π : World -> X) `{!SfnBlind π} : StopBlind π.
Proof. intros arn w. apply sfn_blind. Qed.

#[global] Instance Observable_executionIds : Observable executionIds.
Proof. split; reflexivity. Qed.
#[global] Instance AwsBlind_executionIds : AwsBlind executionIds.
Proof. done. Qed.
#[global] Instance PhaseBlind_executionIds : PhaseBlind executionIds.
Proof. done. Qed.
#[global] Instance StopBlind_executionIds : StopBlind executionIds.
Proof.
  intros arn w. unfold executionIds. simpl.
  rewrite <- list_fmap_compose. apply list_fmap_ext. intros _ e _. simpl.
  unfold abort. by case_match.
Qed.

#[global] Hint Extern 1 (AwsBlind _) => typeclasses eauto : keeps.
#[global] Hint Extern 1 (StopBlind _) => typeclasses eauto : keeps.
#[global] Hint Extern 1 (SfnBlind _) => typeclasses eauto : keeps.
#[global] Hint Extern 1 (PhaseBlind _) => typeclasses eauto : keeps.

(** A call of the shape [apiCall >> fun w => ...]: look at each outcome. *)
Ltac by_outcome π :=
  let w := fresh "w" in
  let Hc := fresh "Hc" in
  intros w; unfold bind; pose proof (keeps_apiCall π w) as Hc;
  destruct (apiCall w) as [[[]|?] ?]; simpl in *; [|done];
  repeat case_match; simpl;
  rewrite ?obs_emit, ?aws_blind, ?stop_blind, ?sfn_blind, ?phase_blind; done.

Section KeepsCloud.
Context {X : Type} (π : World -> X) `{!Observable π, !AwsBlind π}.

Lemma keeps_sleep n : keeps π (sleep n).
Proof. intros w. apply aws_blind. Qed.

Lemma keeps_revokeSecurityGroupIngress g r : keeps π (revokeSecurityGroupIngress g r).
Proof. unfold revokeSecurityGroupIngress. by_outcome π. Qed.

Lemma keeps_authorizeSecurityGroupIngress g r :
  keeps π (authorizeSecurityGroupIngress g r).
Proof. unfold authorizeSecurityGroupIngress. by_outcome π. Qed.

Lemma keeps_stopInstances i : keeps π (stopInstances i).
Proof. unfold stopInstances. by_outcome π. Qed.

Lemma keeps_startInstances i : keeps π (startInstances i).
Proof. unfold startInstances. by_outcome π. Qed.

Lemma keeps_replaceIamInstanceProfileAssociation a r :
  keeps π (replaceIamInstanceProfileAssociation a r).
Proof. unfold replaceIamInstanceProfileAssociation. by_outcome π. Qed.

Lemma keeps_putPublicAccessBlock b c : keeps π (putPublicAccessBlock b c).
Proof. unfold putPublicAccessBlock. by_outcome π. Qed.

Lemma keeps_updateTrails n f op : keeps π (updateTrails n f op).
Proof. unfold updateTrails. by_outcome π. Qed.

Lemma keeps_startLogging n : keeps π (startLogging n).
Proof. apply keeps_updateTrails. Qed.

Lemma keeps_updateTrail n a b : keeps π (updateTrail n a b).
Proof. apply keeps_updateTrails. Qed.

Lemma keeps_sendCommand i : keeps π (sendCommand i).
Proof. unfold sendCommand. by_outcome π. Qed.
End KeepsCloud.

Section KeepsSfn.
Context {X : Type} (π : World -> X) `{!Observable π}.

Lemma keeps_stopExecution `{!StopBlind π} a : keeps π (stopExecution a).
Proof. unfold stopExecution. by_outcome π. Qed.

Lemma keeps_startExecution `{!SfnBlind π} a n g : keeps π (startExecution a n g).
Proof. unfold startExecution. by_outcome π. Qed.
End KeepsSfn.

Section KeepsPhase.
Context {X : Type} (π : World -> X) `{!Observable π, !PhaseBlind π}.

Lemma keeps_ddbUpdateGameState g s : keeps π (ddbUpdateGameState g s).
Proof. intros w. unfold ddbUpdateGameState, modify. simpl. by rewrite obs_emit, phase_blind. Qed.
End KeepsPhase.

#[global] Hint Resolve keeps_sleep keeps_revokeSecurityGroupIngress
  keeps_authorizeSecurityGroupIngress keeps_stopInstances keeps_startInstances
  keeps_replaceIamInstanceProfileAssociation keeps_putPublicAccessBlock
  keeps_startLogging keeps_updateTrail keeps_sendCommand keeps_stopExecution
  keeps_startExecution keeps_ddbUpdateGameState : keeps.

(** The trace of the control-plane calls holds no announcement. *)
Section EmitsCloud.
Ltac by_event :=
  let w := fresh "w" in
  apply emits_bind; [apply emits_apiCall|]; intros [] w; simpl;
  repeat case_match; simpl;
  first [ by (exists []; split; [apply added_refl | constructor])
        | by (eexists [_]; split; [reflexivity | repeat constructor]) ].

Lemma emits_describeSecurityGroups ids : emits quiet (describeSecurityGroups ids).
Proof. unfold describeSecurityGroups. by_event. Qed.

Lemma emits_describeSecurityGroupsByLogicalId p :
  emits quiet (describeSecurityGroupsByLogicalId p).
Proof. unfold describeSecurityGroupsByLogicalId. emits_auto. Qed.

Lemma emits_revokeSecurityGroupIngress g r :
  emits quiet (revokeSecurityGroupIngress g r).
Proof. unfold revokeSecurityGroupIngress. by_event. Qed.

Lemma emits_authorizeSecurityGroupIngress g r :
  emits quiet (authorizeSecurityGroupIngress g r).
Proof. unfold authorizeSecurityGroupIngress. by_event. Qed.

Lemma emits_describeInstances ids : emits quiet (describeInstances ids).
Proof. unfold describeInstances. by_event. Qed.

Lemma emits_sleep n : emits quiet (sleep n).
Proof. apply emits_silent. by intros w. Qed.

Lemma emits_stopInstances i : emits quiet (stopInstances i).
Proof. unfold stopInstances. by_event. Qed.

Lemma emits_startInstances i : emits quiet (startInstances i).
Proof. unfold startInstances. by_event. Qed.

Lemma emits_describeIamInstanceProfileAssociations ids :
  emits quiet (describeIamInstanceProfileAssociations ids).
Proof. unfold describeIamInstanceProfileAssociations. emits_auto. Qed.

Lemma emits_replaceIamInstanceProfileAssociation a r :
  emits quiet (replaceIamInstanceProfileAssociation a r).
Proof. unfold replaceIamInstanceProfileAssociation. by_event. Qed.

Lemma emits_getPublicAccessBlock b : emits quiet (getPublicAccessBlock b).
Proof. unfold getPublicAccessBlock. by_event. Qed.

Lemma emits_putPublicAccessBlock b c : emits quiet (putPublicAccessBlock b c).
Proof. unfold putPublicAccessBlock. by_event. Qed.

Lemma emits_describeTrails names : emits quiet (describeTrails names).
Proof. unfold describeTrails. emits_auto. Qed.

Lemma emits_getTrailStatus n : emits quiet (getTrailStatus n).
Proof. unfold getTrailStatus. by_event. Qed.

Lemma emits_updateTrails n f op : emits quiet (updateTrails n f op).
Proof. unfold updateTrails. by_event. Qed.

Lemma emits_startLogging n : emits quiet (startLogging n).
Proof. apply emits_updateTrails. Qed.

Lemma emits_updateTrail n a b : emits quiet (updateTrail n a b).
Proof. apply emits_updateTrails. Qed.

Lemma emits_listRunningExecutions arn : emits quiet (listRunningExecutions arn).
Proof. unfold listRunningExecutions. emits_auto. Qed.

Lemma emits_stopExecution a : emits quiet (stopExecution a).
Proof. unfold stopExecution. by_event. Qed.

Lemma emits_startExecution a n g : emits quiet (startExecution a n g).
Proof. unfold startExecution. by_event. Qed.

Lemma emits_ddbGetMapping t k : emits quiet (ddbGetMapping t k).
Proof. apply emits_silent. intros w. unfold ddbGetMapping. by case_match. Qed.

Lemma emits_ddbGetGameState g : emits quiet (ddbGetGameState g).
Proof. apply emits_gets. Qed.

Lemma emits_ddbUpdateGameState g s : emits quiet (ddbUpdateGameState g s).
Proof. by apply emits_emit. Qed.
End EmitsCloud.

#[global] Hint Resolve emits_describeSecurityGroups emits_describeSecurityGroupsByLogicalId
  emits_revokeSecurityGroupIngress emits_authorizeSecurityGroupIngress
  emits_describeInstances emits_sleep emits_stopInstances emits_startInstances
  emits_describeIamInstanceProfileAssociations emits_replaceIamInstanceProfileAssociation
  emits_getPublicAccessBlock emits_putPublicAccessBlock emits_describeTrails
  emits_getTrailStatus emits_startLogging emits_updateTrail
  emits_listRunningExecutions emits_stopExecution emits_startExecution
  emits_ddbGetMapping emits_ddbGetGameState emits_ddbUpdateGameState : emits.

(** ** The reset handler: frames, totality, trace of its steps *)

Section PromiseAll.
Import Reset.

Lemma promiseAll_cons task rest w :
  (promiseAll (task :: rest) w).2 = (promiseAll rest (task w).2).2.
Proof. simpl. by destruct (task w) as [[a|e] w1]. Qed.

Lemma keeps_promiseAll {X} (π : World -> X) tasks :
  Forall (keeps π) tasks → keeps π (promiseAll tasks).
Proof.
  induction 1 as [|task rest Ht _ IH]; intros w; [done|].
  rewrite promiseAll_cons, IH. apply Ht.
Qed.

Lemma emits_promiseAll P tasks :
  Forall (emits P) tasks → emits P (promiseAll tasks).
Proof.
  induction 1 as [|task rest Ht _ IH]; intros w; [by apply emits_ret|].
  rewrite promiseAll_cons.
  destruct (Ht w) as (e1 & H1 & HP1). destruct (IH (task w).2) as (e2 & H2 & HP2).
  exists (e1 ++ e2). split; [by eapply added_trans | by apply Forall_app].
Qed.

Lemma total_promiseAll tasks : Forall total tasks → total (promiseAll tasks).
Proof.
  induction 1 as [|task rest Ht _ IH]; intros w; [by eexists _, _|].
  simpl. destruct (Ht w) as ([] & w1 & ->). apply IH.
Qed.
End PromiseAll.

Section ResetKeeps.
Import Reset.
Context {X : Type} (π : World -> X) `{!Observable π}.

Lemma keeps_Reset_getResourceInfo t r : keeps π (getResourceInfo t r).
Proof. unfold getResourceInfo. keeps_auto. Qed.

Lemma keeps_helper_getResourceInfo t r : keeps π (SecurityInjection.getResourceInfo t r).
Proof. unfold SecurityInjection.getResourceInfo. keeps_auto. Qed.

Lemma keeps_Reset_getGameState : keeps π getGameState.
Proof. unfold getGameState. keeps_auto. Qed.

Hint Resolve keeps_Reset_getResourceInfo keeps_helper_getResourceInfo
  keeps_Reset_getGameState : keeps.

Lemma keeps_withMappedOrEnv t r v m1 m2 action :
  (∀ x, keeps π (action x)) → keeps π (withMappedOrEnv t r v m1 m2 action).
Proof. intros Ha. unfold withMappedOrEnv. keeps_auto; apply Ha. Qed.

Lemma keeps_stopRunningStepFunctions `{!StopBlind π} : keeps π stopRunningStepFunctions.
Proof.
  unfold stopRunningStepFunctions. keeps_auto.
  apply keeps_promiseAll, Forall_map, Forall_forall. intros ex _.
  unfold stopOne. keeps_auto.
Qed.

Section Sfn.
Context `{!SfnBlind π}.

Lemma keeps_startObservationStateMachine : keeps π startObservationStateMachine.
Proof. unfold startObservationStateMachine. keeps_auto. Qed.
End Sfn.

Section Cloud.
Context `{!AwsBlind π}.

Lemma keeps_getSecurityGroup t r p l : keeps π (getSecurityGroup t r p l).
Proof. unfold getSecurityGroup. keeps_auto. Qed.

Lemma keeps_resetGroup sg rule l : keeps π (resetGroup sg rule l).
Proof. unfold resetGroup. keeps_auto. Qed.

Hint Resolve keeps_getSecurityGroup keeps_resetGroup : keeps.

Lemma keeps_resetSecurityGroups t : keeps π (resetSecurityGroups t).
Proof.
  unfold resetSecurityGroups, getAlbSecurityGroup, getEc2SecurityGroup,
    getRdsSecurityGroup, resetAlbSecurityGroup, resetEc2SecurityGroup,
    resetRdsSecurityGroup.
  keeps_auto.
Qed.

Lemma keeps_enableS3PublicAccessBlock t : keeps π (enableS3PublicAccessBlock t).
Proof.
  unfold enableS3PublicAccessBlock. keeps_step.
  apply keeps_withMappedOrEnv. intros b. unfold enablePublicAccessBlock. keeps_auto.
Qed.

Lemma keeps_enableCloudTrail t : keeps π (enableCloudTrail t).
Proof.
  unfold enableCloudTrail. keeps_step.
  apply keeps_withMappedOrEnv. intros b. unfold enableTrailLogging. keeps_auto.
Qed.

Lemma keeps_resetRole r : keeps π (resetRole r).
Proof. unfold resetRole. keeps_auto. Qed.

Lemma keeps_resetIAMRole t : keeps π (resetIAMRole t).
Proof.
  unfold resetIAMRole. keeps_step.
  apply keeps_withMappedOrEnv. apply keeps_resetRole.
Qed.

Lemma keeps_waitForState target polls i : keeps π (waitForState target polls i).
Proof.
  induction polls as [|polls IH]; simpl; [apply keeps_throw|].
  keeps_auto.
Qed.

Hint Resolve keeps_waitForState : keeps.

Lemma keeps_forceRestartInstance i : keeps π (forceRestartInstance i).
Proof.
  unfold forceRestartInstance, waitForInstanceStopped. keeps_auto.
Qed.

Hint Resolve keeps_forceRestartInstance : keeps.

Lemma keeps_startEC2InstanceRestart i : keeps π (startEC2InstanceRestart i).
Proof.
  unfold startEC2InstanceRestart, waitForInstanceStopped, waitForInstanceRunning.
  keeps_auto.
Qed.

Lemma keeps_restarts ids : keeps π (promiseAll (List.map startEC2InstanceRestart ids)).
Proof.
  apply keeps_promiseAll, Forall_map, Forall_forall. intros i _.
  apply keeps_startEC2InstanceRestart.
Qed.

Hint Resolve keeps_restarts : keeps.

Lemma keeps_forceRestartEC2InstancesWithStateChange `{!PhaseBlind π} t :
  keeps π (forceRestartEC2InstancesWithStateChange t).
Proof.
  unfold forceRestartEC2InstancesWithStateChange, updateGameState. keeps_auto.
Qed.
End Cloud.
End ResetKeeps.

#[global] Hint Resolve keeps_Reset_getResourceInfo keeps_helper_getResourceInfo
  keeps_Reset_getGameState keeps_stopRunningStepFunctions
  keeps_startObservationStateMachine keeps_resetSecurityGroups
  keeps_enableS3PublicAccessBlock keeps_enableCloudTrail keeps_resetIAMRole
  keeps_forceRestartEC2InstancesWithStateChange : keeps.

Section ResetTotal.
Import Reset.

Lemma total_rethrow {A} msg (m : M A) : total m → total (rethrow msg m).
Proof.
  intros Hm w. destruct (Hm w) as (a & w1 & Hw).
  unfold rethrow, tryCatch. rewrite Hw. by eexists _, _.
Qed.

Lemma total_Reset_getResourceInfo t r : total (getResourceInfo t r).
Proof. unfold getResourceInfo. total_auto. Qed.

Lemma total_getGameState : total getGameState.
Proof. unfold getGameState. apply total_rethrow. total_auto. Qed.

Lemma total_stopRunningStepFunctions : total stopRunningStepFunctions.
Proof. unfold stopRunningStepFunctions. total_auto. Qed.

Lemma total_startObservationStateMachine : total startObservationStateMachine.
Proof. unfold startObservationStateMachine. total_auto. Qed.

Lemma total_resetRole r : total (resetRole r).
Proof. unfold resetRole. total_auto. Qed.

Hint Resolve total_Reset_getResourceInfo total_resetRole : total.

Lemma total_resetIAMRole t : total (resetIAMRole t).
Proof.
  unfold resetIAMRole, withMappedOrEnv. apply total_rethrow. total_auto.
Qed.

(** The handler always answers. *)
Lemma total_handler : total handler.
Proof. unfold handler. total_auto. Qed.
End ResetTotal.

Section ResetEmits.
Import Reset.

Lemma emits_Reset_getResourceInfo t r : emits quiet (getResourceInfo t r).
Proof. unfold getResourceInfo. emits_auto. Qed.

Lemma emits_helper_getResourceInfo t r :
  emits quiet (SecurityInjection.getResourceInfo t r).
Proof. unfold SecurityInjection.getResourceInfo. emits_auto. Qed.

Hint Resolve emits_Reset_getResourceInfo emits_helper_getResourceInfo : emits.

Lemma emits_withMappedOrEnv t r v m1 m2 action :
  quiet (Log m1) → quiet (Log m2) → (∀ x, emits quiet (action x)) →
  emits quiet (withMappedOrEnv t r v m1 m2 action).
Proof.
  intros H1 H2 Ha. unfold withMappedOrEnv. emits_auto;
    first [apply Ha | by apply emits_consoleLog].
Qed.

Lemma emits_stopRunningStepFunctions : emits quiet stopRunningStepFunctions.
Proof.
  unfold stopRunningStepFunctions. emits_auto.
  apply emits_promiseAll, Forall_map, Forall_forall. intros ex _.
  unfold stopOne. emits_auto.
Qed.

Lemma emits_getGameState : emits quiet getGameState.
Proof. unfold getGameState. emits_auto. Qed.

Lemma emits_getSecurityGroup t r p l : emits quiet (getSecurityGroup t r p l).
Proof. unfold getSecurityGroup. emits_auto. Qed.

Lemma emits_resetGroup sg rule l : emits quiet (resetGroup sg rule l).
Proof. unfold resetGroup. emits_auto. Qed.

Hint Resolve emits_getSecurityGroup emits_resetGroup : emits.

Lemma emits_resetSecurityGroups t : emits quiet (resetSecurityGroups t).
Proof.
  unfold resetSecurityGroups, getAlbSecurityGroup, getEc2SecurityGroup,
    getRdsSecurityGroup, resetAlbSecurityGroup, resetEc2SecurityGroup,
    resetRdsSecurityGroup.
  emits_auto.
Qed.

Lemma emits_enableS3PublicAccessBlock t : emits quiet (enableS3PublicAccessBlock t).
Proof.
  unfold enableS3PublicAccessBlock. emits_step.
  apply emits_withMappedOrEnv; [reflexivity..|].
  intros b. unfold enablePublicAccessBlock. emits_auto.
Qed.

Lemma emits_enableCloudTrail t : emits quiet (enableCloudTrail t).
Proof.
  unfold enableCloudTrail. emits_step.
  apply emits_withMappedOrEnv; [reflexivity..|].
  intros b. unfold enableTrailLogging. emits_auto.
Qed.

Lemma emits_resetIAMRole t : emits quiet (resetIAMRole t).
Proof.
  unfold resetIAMRole. emits_step.
  apply emits_withMappedOrEnv; [reflexivity..|].
  intros b. unfold resetRole. emits_auto.
Qed.

Lemma emits_waitForState target polls i : emits quiet (waitForState target polls i).
Proof.
  induction polls as [|polls IH]; simpl; [apply emits_throw|]. emits_auto.
Qed.

Hint Resolve emits_waitForState : emits.

Lemma emits_forceRestartInstance i : emits quiet (forceRestartInstance i).
Proof. unfold forceRestartInstance, waitForInstanceStopped. emits_auto. Qed.

Hint Resolve emits_forceRestartInstance : emits.

Lemma emits_startEC2InstanceRestart i : emits quiet (startEC2InstanceRestart i).
Proof.
  unfold startEC2InstanceRestart, waitForInstanceStopped, waitForInstanceRunning.
  emits_auto.
Qed.

Lemma emits_forceRestartEC2InstancesWithStateChange t :
  emits quiet (forceRestartEC2InstancesWithStateChange t).
Proof.
  unfold forceRestartEC2InstancesWithStateChange, updateGameState. emits_auto.
  apply emits_promiseAll, Forall_map, Forall_forall. intros i _.
  apply emits_startEC2InstanceRestart.
Qed.

Lemma emits_startObservationStateMachine : emits quiet startObservationStateMachine.
Proof. unfold startObservationStateMachine. emits_auto. Qed.
End ResetEmits.

(** ** The reset handler: how a run goes *)

Section ResetRuns.
Import Reset.

Lemma drop_added w w' events :
  added w w' events → drop (length (trace w)) (trace w') = events.
Proof. unfold added. intros ->. by rewrite drop_app_length. Qed.

Lemma announcements_app e1 e2 :
  announcements (e1 ++ e2) = announcements e1 ++ announcements e2.
Proof. apply omap_app. Qed.

Lemma announcements_cons e events :
  announcements (e :: events)
  = if isBanner e
    then match e with Log msg => msg :: announcements events | _ => announcements events end
    else announcements events.
Proof.
  destruct e; try reflexivity. unfold announcements, isBanner.
  cbn [omap list_omap]. by destruct (mem msg banners).
Qed.

Lemma announcements_quiet events : Forall quiet events → announcements events = [].
Proof.
  induction 1 as [|e events He _ IH]; [done|].
  rewrite announcements_cons, He. done.
Qed.

Lemma stepsAnnounced_added w w' events :
  added w w' events → stepsAnnounced w w' = announcements events.
Proof. intros H. unfold stepsAnnounced. by rewrite (drop_added _ _ _ H). Qed.

Lemma runSteps_cons b s rest w :
  runSteps ((b, s) :: rest) w
  = match s (emit (Log b) w) with
    | (Return _, w1) => runSteps rest w1
    | (Throw e, w1) => (Throw e, w1)
    end.
Proof. reflexivity. Qed.

(** A sequence of announced steps: the announcements made are those of a
    prefix of the steps; it is the whole sequence when no step throws, and
    otherwise it ends with the step that threw. *)
Lemma runSteps_cases steps w :
  Forall (λ bs, emits quiet bs.2 ∧ mem bs.1 banners = true) steps →
  ∃ events k,
    added w (runSteps steps w).2 events
    ∧ announcements events = take k steps.*1
    ∧ match (runSteps steps w).1 with
      | Return _ => k = length steps
      | Throw e =>
          ∃ i b s wi,
            steps !! i = Some (b, s) ∧ k = S i
            ∧ runSteps (take i steps) w = (Return tt, wi)
            ∧ s (emit (Log b) wi) = (Throw e, (runSteps steps w).2)
      end.
Proof.
  intros Hsteps. revert w. induction Hsteps as [|[b s] rest [Hs Hb] _ IH]; intros w.
  - exists [], 0%nat. split; [apply added_refl|]. done.
  - cbn [fst snd] in Hs, Hb. rewrite runSteps_cons.
    destruct (Hs (emit (Log b) w)) as (es & Has & Hqs).
    assert (Hlog : announcements (Log b :: es) = [b]).
    { rewrite announcements_cons. unfold isBanner. rewrite Hb.
      by rewrite (announcements_quiet es). }
    assert (Hadd : added w (s (emit (Log b) w)).2 (Log b :: es)).
    { unfold added in *. rewrite Has. cbn [trace emit]. by rewrite <- app_assoc. }
    destruct (s (emit (Log b) w)) as [[[]|e] w1] eqn:Hrun; cbn [fst snd] in *.
    + destruct (IH w1) as (er & k & Har & Hk & Hres).
      exists ((Log b :: es) ++ er), (S k). split; [|split].
      * by eapply added_trans.
      * rewrite announcements_app, Hlog, Hk. done.
      * destruct (runSteps rest w1) as [[[]|e] w2] eqn:Hrest; cbn [fst snd] in *.
        { by rewrite Hres. }
        destruct Hres as (i & b' & s' & wi & Hi & -> & Hpre & Hthrow).
        exists (S i), b', s', wi. split; [done|]. split; [done|]. split; [|done].
        cbn [take]. by rewrite runSteps_cons, Hrun.
    + exists (Log b :: es), 1%nat. split; [done|]. split; [by rewrite Hlog|].
      exists 0%nat, b, s, w. by rewrite Hrun.
Qed.

Lemma restore_runSteps table w : restore table w = runSteps (restoreSteps table) w.
Proof.
  unfold restore, restoreSteps, runSteps, bind, consoleLog, modify, ret.
  repeat match goal with
         | |- context [match ?f ?x with _ => _ end] =>
             lazymatch f with
             | emit _ => fail
             | _ => destruct (f x) as [[[]|?] ?]; try reflexivity
             end
         end.
Qed.
End ResetRuns.

(** ** The reset handler: the outcomes of a run *)

Section ResetHandler.
Import Reset.

Lemma phase_afterStop w : phase (afterStop w) = phase w.
Proof.
  unfold phase, afterStop. by rewrite (keeps_stopRunningStepFunctions db).
Qed.

Lemma currentGameState_resetting (st : option string) :
  String.eqb (match st with
              | Some s => if truthy s then s else "Unknown"
              | None => "Unknown"
              end) "Resetting"
  = bool_decide (st = Some "Resetting").
Proof.
  destruct st as [s|]; [|done].
  destruct (decide (s = "Resetting")) as [->|Hne].
  - done.
  - rewrite bool_decide_eq_false_2 by congruence.
    destruct (truthy s); [|done]. by apply String.eqb_neq.
Qed.

(** How the handler goes: it stops the executions, reads the phase, and
    either refuses or runs the restore steps. *)
Lemma handler_run w :
  handler w =
    if bool_decide (phase w = Some "Resetting")
    then (Return resetInProgress, afterStop w)
    else match restore (mappingTable w) (afterStop w) with
         | (Return _, w2) => (Return resetInitiated, w2)
         | (Throw e, w2) => (Return resetFailed, emit (LogError "Error:") w2)
         end.
Proof.
  rewrite <- phase_afterStop. unfold afterStop.
  unfold handler, tryCatch, bind at 1. simpl.
  unfold bind at 1. simpl. unfold bind at 1.
  destruct (total_stopRunningStepFunctions
              (emit (Log "Stopping running Step Functions...") w)) as ([] & w1 & Hstop).
  rewrite Hstop. simpl. unfold bind at 1.
  change (getGameState w1) with
    (Return (match phase w1 with
             | Some s => if truthy s then s else "Unknown"
             | None => "Unknown"
             end), w1).
  simpl. rewrite currentGameState_resetting.
  destruct (bool_decide (phase w1 = Some "Resetting")); [done|].
  unfold bind. unfold mappingTable.
  by destruct (restore _ w1) as [[[]|e] w2].
Qed.

(** *** Stopping the running executions *)

Lemma abort_arn arn e : executionArn (abort arn e) = executionArn e.
Proof. unfold abort. by case_match. Qed.

Lemma abort_machine arn e : stateMachine (abort arn e) = stateMachine e.
Proof. unfold abort. by case_match. Qed.

Lemma abort_not_running arn e : status e ≠ RUNNING → status (abort arn e) ≠ RUNNING.
Proof. unfold abort. by case_match. Qed.

Lemma abort_own e : status (abort (executionArn e) e) ≠ RUNNING.
Proof.
  unfold abort. rewrite String.eqb_refl. simpl.
  case_bool_decide as Hs; [done|]. done.
Qed.

Lemma abortAll_arn l e : executionArn (abortAll l e) = executionArn e.
Proof.
  revert e. induction l as [|x l IH]; intros e; [done|].
  simpl. by rewrite IH, abort_arn.
Qed.

Lemma abortAll_machine l e : stateMachine (abortAll l e) = stateMachine e.
Proof.
  revert e. induction l as [|x l IH]; intros e; [done|].
  simpl. by rewrite IH, abort_machine.
Qed.

Lemma abortAll_not_running l e : status e ≠ RUNNING → status (abortAll l e) ≠ RUNNING.
Proof.
  revert e. induction l as [|x l IH]; intros e He; [done|].
  simpl. by apply IH, abort_not_running.
Qed.

Lemma abortAll_member l e x :
  x ∈ l → executionArn x = executionArn e → status (abortAll l e) ≠ RUNNING.
Proof.
  revert e. induction l as [|y l IH]; intros e Hin Harn.
  - by apply elem_of_nil in Hin.
  - simpl. apply elem_of_cons in Hin as [<-|Hin].
    + apply abortAll_not_running. rewrite Harn. apply abort_own.
    + apply IH; [done|]. by rewrite abort_arn.
Qed.

(** One [StopExecution] per listed execution, when no call fails. *)
Lemma stopOnes_run l w :
  faults w = [] →
  Forall (λ e, truthy (executionArn e) = true
               ∧ executionArn e ∈ executionArn <$> executions w) l →
  ∃ w', promiseAll (List.map stopOne l) w = (Return tt, w')
        ∧ faults w' = []
        ∧ executions w' = abortAll l <$> executions w.
Proof.
  intros Hf Hl. revert w Hf Hl. induction l as [|x l IH]; intros w Hf Hl.
  - exists w. split; [done|]. split; [done|]. unfold abortAll. simpl.
    by rewrite list_fmap_id.
  - apply Forall_cons in Hl as [[Hx Hin] Hl].
    assert (Hfound : existsb (λ e, String.eqb (executionArn e) (executionArn x))
                             (executions w) = true).
    { apply existsb_exists. apply list_elem_of_fmap in Hin as (e & He & Hin).
      exists e. split; [by apply list_elem_of_In|]. rewrite He. apply String.eqb_refl. }
    assert (Hrun : stopOne x w
                   = (Return tt,
                      emit (Api "StopExecution" (executionArn x))
                           (set_executions (List.map (abort (executionArn x))) w))).
    { unfold stopOne. rewrite Hx. unfold tryCatch, stopExecution, bind, apiCall.
      rewrite Hf. by rewrite Hfound. }
    simpl. rewrite Hrun.
    destruct (IH (emit (Api "StopExecution" (executionArn x))
                       (set_executions (List.map (abort (executionArn x))) w)))
      as (w' & Hw' & Hf' & He').
    + done.
    + eapply Forall_impl; [exact Hl|]. intros e [He1 He2]. split; [done|].
      simpl. rewrite <- list_fmap_compose.
      apply list_elem_of_fmap in He2 as (e0 & -> & He0).
      apply list_elem_of_fmap. exists e0. split; [|done].
      simpl. by rewrite abort_arn.
    + exists w'. split; [done|]. split; [done|]. rewrite He'. simpl.
      rewrite <- list_fmap_compose. done.
Qed.

(** With the state machine configured, no call failing and at most a
    hundred executions running, none is left running. *)
Lemma stopRunningStepFunctions_stops_all arn w :
  OBSERVATION_STATE_MACHINE_ARN (env w) = Some arn → truthy arn = true →
  faults w = [] →
  (length (runningOn arn w) ≤ 100)%nat →
  Forall (λ e, truthy (executionArn e) = true) (executions w) →
  Forall (λ e, stateMachine e = arn → status e ≠ RUNNING)
         (executions (stopRunningStepFunctions w).2).
Proof.
  intros Harn Htruthy Hf Hlen Harns.
  assert (Hrunning : take 100 (runningOn arn w) = runningOn arn w)
    by (by apply take_ge).
  destruct (stopOnes_run (runningOn arn w) w Hf) as (w' & Hw' & _ & He').
  { apply Forall_forall. intros e He. unfold runningOn in He.
    apply list_elem_of_In, filter_In in He as [He _]. apply list_elem_of_In in He.
    split; [by eapply Forall_forall in Harns|].
    apply list_elem_of_fmap. eauto. }
  assert (Hexec : executions (stopRunningStepFunctions w).2
                  = abortAll (runningOn arn w) <$> executions w).
  { unfold stopRunningStepFunctions, tryCatch, bind at 1. simpl.
    rewrite Harn, Htruthy. simpl.
    unfold bind at 1, listRunningExecutions, bind at 1, apiCall. rewrite Hf.
    simpl. fold (runningOn arn w). rewrite Hrunning.
    destruct (runningOn arn w) as [|x l] eqn:Hl.
    { simpl. unfold abortAll. simpl. by rewrite list_fmap_id. }
    rewrite <- Hl in *. unfold bind.
    rewrite Hw'. simpl. done. }
  rewrite Hexec. apply Forall_fmap, Forall_forall. intros e He Hm.
  rewrite abortAll_machine in Hm.
  destruct (decide (status e = RUNNING)) as [Hs|Hs].
  - apply (abortAll_member _ _ e); [|done]. unfold runningOn.
    apply list_elem_of_In, filter_In. split; [by apply list_elem_of_In|].
    rewrite Hm, String.eqb_refl. simpl. by apply bool_decide_eq_true.
  - by apply abortAll_not_running.
Qed.

(** *** The restore steps *)

Lemma keeps_runSteps {X} (π : World -> X) `{!Observable π} steps :
  Forall (λ bs, keeps π bs.2) steps → keeps π (runSteps steps).
Proof.
  induction 1 as [|[b s] rest Hs _ IH]; simpl; [apply keeps_ret|]. keeps_auto.
Qed.

Lemma restoreSteps_quiet table :
  Forall (λ bs, emits quiet bs.2 ∧ mem bs.1 banners = true) (restoreSteps table).
Proof.
  unfold restoreSteps. repeat constructor; cbn [fst snd];
    auto using emits_resetSecurityGroups, emits_enableS3PublicAccessBlock,
      emits_enableCloudTrail, emits_resetIAMRole,
      emits_forceRestartEC2InstancesWithStateChange,
      emits_startObservationStateMachine.
Qed.

(** The steps before the start of the confirmation pass start no execution. *)
Lemma restoreSteps_keep_executions table :
  Forall (λ bs, keeps executions bs.2) (take 5 (restoreSteps table)).
Proof. unfold restoreSteps. repeat constructor; cbn [fst snd]; eauto with keeps. Qed.

(** The steps before the restart do not write the tables. *)
Lemma restoreSteps_keep_db table :
  Forall (λ bs, keeps db bs.2) (take 4 (restoreSteps table)).
Proof. unfold restoreSteps. repeat constructor; cbn [fst snd]; eauto with keeps. Qed.

Lemma keepsOnThrow_keeps {X A} (π : World -> X) (m : M A) :
  keeps π m → keepsOnThrow π m.
Proof. intros Hk w e w' Hrun. specialize (Hk w). by rewrite Hrun in Hk. Qed.

Lemma keepsOnThrow_total {X A} (π : World -> X) (m : M A) :
  total m → keepsOnThrow π m.
Proof. intros Ht w e w' Hrun. destruct (Ht w) as (a & w1 & Hw). congruence. Qed.

Lemma keepsOnThrow_bind {X A B} (π : World -> X) (m : M A) (k : A -> M B) :
  keeps π m → (∀ a, keepsOnThrow π (k a)) → keepsOnThrow π (bind m k).
Proof.
  intros Hm Hk w e w' Hrun. unfold bind in Hrun. specialize (Hm w).
  destruct (m w) as [[a|e1] w1]; simpl in Hm.
  - rewrite <- Hm. by eapply Hk.
  - by simplify_eq.
Qed.

Lemma keepsOnThrow_rethrow {X A} (π : World -> X) `{!Observable π} msg (m : M A) :
  keepsOnThrow π m → keepsOnThrow π (rethrow msg m).
Proof.
  intros Hm w e w' Hrun. unfold rethrow, tryCatch in Hrun.
  destruct (m w) as [[a|e1] w1] eqn:Hw; [done|].
  unfold bind, consoleError, modify, throw in Hrun. simplify_eq.
  rewrite obs_emit. by eapply Hm.
Qed.

(** The restart writes "Resetting" last: when it throws it has written nothing. *)
Lemma forceRestart_keepsOnThrow_db table :
  keepsOnThrow db (forceRestartEC2InstancesWithStateChange table).
Proof.
  unfold forceRestartEC2InstancesWithStateChange.
  apply keepsOnThrow_rethrow; [typeclasses eauto|].
  apply keepsOnThrow_bind; [eauto with keeps|]. intros i1.
  apply keepsOnThrow_bind; [eauto with keeps|]. intros i2.
  apply keepsOnThrow_bind; [eauto with keeps|]. intros fallback. cbv zeta.
  match goal with
  | |- keepsOnThrow _ (match ?l with _ => _ end) => destruct l
  end.
  - apply keepsOnThrow_total. total_auto.
  - apply keepsOnThrow_bind; [apply keeps_restarts; typeclasses eauto|]. intros _.
    apply keepsOnThrow_total. unfold updateGameState, ddbUpdateGameState. total_auto.
Qed.

Lemma restore_outcome table w :
  ∃ events k,
    added w (restore table w).2 events
    ∧ announcements events = take k banners
    ∧ match (restore table w).1 with
      | Return _ => k = 6%nat
      | Throw e =>
          (k = 1 ∨ k = 2 ∨ k = 3 ∨ k = 5)%nat
          ∧ db (restore table w).2 = db w
          ∧ executions (restore table w).2 = executions w
      end.
Proof.
  rewrite restore_runSteps.
  destruct (runSteps_cases (restoreSteps table) w (restoreSteps_quiet table))
    as (events & k & Hadd & Hann & Hres).
  exists events, k. split; [done|]. split; [done|].
  destruct (runSteps (restoreSteps table) w) as [[[]|e] w'] eqn:Hrun;
    cbn [fst snd] in *; [done|].
  destruct Hres as (i & b & s & wi & Hi & -> & Hpre & Hthrow).
  assert (Hdb : ∀ steps, Forall (λ bs, keeps db bs.2) steps →
                 runSteps steps w = (Return tt, wi) → db wi = db w).
  { intros steps Hk Hr. pose proof (keeps_runSteps db steps Hk w) as Hd.
    by rewrite Hr in Hd. }
  assert (Hex : ∀ steps, Forall (λ bs, keeps executions bs.2) steps →
                 runSteps steps w = (Return tt, wi) → executions wi = executions w).
  { intros steps Hk Hr. pose proof (keeps_runSteps executions steps Hk w) as Hd.
    by rewrite Hr in Hd. }
  unfold restoreSteps in Hi, Hpre.
  destruct i as [|[|[|[|[|[|i]]]]]]; cbn [lookup list_lookup] in Hi; simplify_eq;
    cbn [take] in Hpre;
    (assert (Hex' : executions wi = executions w)
       by (eapply Hex; [|exact Hpre]; repeat constructor; cbn [fst snd];
           eauto with keeps));
    try (assert (Hdb' : db wi = db w)
           by (eapply Hdb; [|exact Hpre]; repeat constructor; cbn [fst snd];
               eauto with keeps));
    clear Hdb Hex.
  - split; [auto|]. rewrite <- Hdb', <- Hex'. split.
    + exact (keepsOnThrow_keeps db _ (keeps_resetSecurityGroups db table) _ _ _ Hthrow).
    + exact (keepsOnThrow_keeps executions _ (keeps_resetSecurityGroups executions table) _ _ _ Hthrow).
  - split; [auto|]. rewrite <- Hdb', <- Hex'. split.
    + exact (keepsOnThrow_keeps db _ (keeps_enableS3PublicAccessBlock db table) _ _ _ Hthrow).
    + exact (keepsOnThrow_keeps executions _ (keeps_enableS3PublicAccessBlock executions table) _ _ _ Hthrow).
  - split; [auto|]. rewrite <- Hdb', <- Hex'. split.
    + exact (keepsOnThrow_keeps db _ (keeps_enableCloudTrail db table) _ _ _ Hthrow).
    + exact (keepsOnThrow_keeps executions _ (keeps_enableCloudTrail executions table) _ _ _ Hthrow).
  - destruct (total_resetIAMRole table (emit (Log "Resetting IAM roles...") wi))
      as (a & w1 & Hw). congruence.
  - split; [auto|]. rewrite <- Hdb', <- Hex'. split.
    + exact (forceRestart_keepsOnThrow_db table _ _ _ Hthrow).
    + exact (keepsOnThrow_keeps executions _
               (keeps_forceRestartEC2InstancesWithStateChange executions table)
               _ _ _ Hthrow).
  - destruct (total_startObservationStateMachine
                (emit (Log "Starting observation StepFunction...") wi))
      as (a & w1 & Hw). congruence.
Qed.
End ResetHandler.


(** ** The reset handler: the claims *)

Section ResetClaims.
Import Reset.

Lemma afterStop_added w :
  ∃ events, added w (afterStop w) events ∧ announcements events = [].
Proof.
  unfold afterStop.
  destruct (emits_stopRunningStepFunctions
              (emit (Log "Stopping running Step Functions...") w)) as (es & Ha & Hq).
  exists (Log "Stopping running Step Functions..." :: es). split.
  - unfold added in *. rewrite Ha. cbn [trace emit]. by rewrite <- app_assoc.
  - rewrite announcements_cons. cbn [isBanner]. change (mem _ banners) with false.
    by apply announcements_quiet.
Qed.

(** The outcomes of a reset that is not refused: the restore steps run in
    order and the first that throws ends the reset; a reset that fails has
    written no game state and started no execution. *)
Lemma reset_outcome w :
  phase w ≠ Some "Resetting" →
  ∃ k, stepsAnnounced w (handler w).2 = take k banners
       ∧ ((handler w).1 = Return resetInitiated ∧ k = 6%nat
          ∨ (handler w).1 = Return resetFailed
            ∧ (k = 1 ∨ k = 2 ∨ k = 3 ∨ k = 5)%nat
            ∧ last (trace (handler w).2) = Some (LogError "Error:")
            ∧ gameStateTable (db (handler w).2) = gameStateTable (db w)
            ∧ noneStarted w (handler w).2).
Proof.
  intros Hphase. rewrite handler_run, bool_decide_eq_false_2 by done.
  destruct (afterStop_added w) as (e0 & Ha0 & Hq0).
  destruct (restore_outcome (mappingTable w) (afterStop w))
    as (e1 & k & Ha1 & Hk & Hres).
  exists k.
  destruct (restore (mappingTable w) (afterStop w)) as [[[]|e] w2];
    cbn [fst snd] in *.
  - split; [|by left].
    rewrite (stepsAnnounced_added _ _ _ (added_trans _ _ _ _ _ Ha0 Ha1)).
    by rewrite announcements_app, Hq0.
  - destruct Hres as (Hk' & Hdb & Hex). split; [|right].
    + assert (Ha2 : added w2 (emit (LogError "Error:") w2) [LogError "Error:"])
        by done.
      rewrite (stepsAnnounced_added _ _ _
                 (added_trans _ _ _ _ _ (added_trans _ _ _ _ _ Ha0 Ha1) Ha2)).
      rewrite !announcements_app, Hq0, Hk. simpl. by rewrite app_nil_r.
    + split; [done|]. split; [done|]. split; [|split].
      * cbn [trace emit]. by rewrite last_snoc.
      * cbn [db emit]. rewrite Hdb. unfold afterStop.
        by rewrite (keeps_stopRunningStepFunctions db).
      * unfold noneStarted, executionIds at 1. cbn [executions emit]. rewrite Hex.
        exact (keeps_stopRunningStepFunctions executionIds
                 (emit (Log "Stopping running Step Functions...") w)).
Qed.

Lemma keeps_handler_scenarioTables : keeps scenarioTables handler.
Proof. unfold handler, restore. keeps_auto. Qed.






(** C4, as the code has it.  The reset handler writes no ledger entry:
    whatever its restore steps did, every entry of both scenario tables
    reads after the handler what it read before. *)
Theorem reset_writes_no_ledger_entry w t c :
  ledger t c (handler w).2 = ledger t c w.
Proof.
  pose proof (keeps_handler_scenarioTables w) as Hk.
  unfold scenarioTables in Hk. injection Hk as Hsec Hres.
  unfold ledger. destruct t; simpl; congruence.
Qed.

(** C4 as stated fails.  "ALB SG" reads Red.  After a reset that answers
    202 it still reads Red; and after a reset whose security-group step
    throws (500, no confirmation pass started) it reads Red as well. *)
Lemma reset_leaves_red_entries :
  (handler Sample.faulted).1 = Return resetInitiated
  ∧ ledger Security "ALB SG" (handler Sample.faulted).2 = Some Red
  ∧ let w := set_faults [None; None; Some "RequestLimitExceeded"] Sample.faulted in
    (handler w).1 = Return resetFailed
    ∧ ledger Security "ALB SG" (handler w).2 = Some Red
    ∧ executions (handler w).2 = [].
Proof. vm_compute. done. Qed.


End ResetClaims.

(** ** The reset of the security groups *)

Section SecurityGroups.
Import Reset.

Lemma keeps_getSecurityGroup_aws t r p l : keeps aws (getSecurityGroup t r p l).
Proof. unfold getSecurityGroup. keeps_auto. Qed.

Lemma bind_Return_inv {A B} (m : M A) (k : A -> M B) w b w' :
  bind m k w = (Return b, w') →
  ∃ a w1, m w = (Return a, w1) ∧ k a w1 = (Return b, w').
Proof.
  unfold bind. destruct (m w) as [[a|e] w1]; [|done]. eauto.
Qed.

Lemma rethrow_Return_inv {A} msg (m : M A) w a w' :
  rethrow msg m w = (Return a, w') → m w = (Return a, w').
Proof.
  unfold rethrow, tryCatch. destruct (m w) as [[a1|e] w1]; [done|].
  unfold bind, consoleError, modify, throw. done.
Qed.

Lemma optZ_eqb_refl p : optZ_eqb p p = true.
Proof. destruct p; [apply Z.eqb_refl|done]. Qed.

Lemma sameRule_refl q : sameRule q q = true.
Proof. unfold sameRule. by rewrite String.eqb_refl, !optZ_eqb_refl. Qed.

Lemma mem_In s l : In s l → mem s l = true.
Proof.
  intros Hin. unfold mem. apply existsb_exists. exists s.
  split; [done|apply String.eqb_refl].
Qed.

Lemma filter_none {A} (f : A -> bool) l :
  (∀ x, In x l → f x = false) → List.filter f l = [].
Proof.
  induction l as [|x l IH]; intros Hf; [done|]. simpl.
  rewrite (Hf x) by (by left). apply IH. intros y Hy. apply Hf. by right.
Qed.

(** Revoking exactly the rules a group has leaves it without any rule. *)
Lemma revokeRules_self stored : revokeRules stored stored = [].
Proof.
  unfold revokeRules. apply filter_none. intros x Hx.
  apply in_map_iff in Hx as (q & <- & Hq).
  assert (Hhit : In q (List.filter (sameRule q) stored)).
  { apply filter_In. split; [done|apply sameRule_refl]. }
  unfold subtractRule, noSource. cbn [IpRanges UserIdGroupPairs].
  rewrite !filter_none; [done|..].
  - intros g Hg. apply negb_false_iff, existsb_exists.
    exists q. split; [done|by apply mem_In].
  - intros c Hc. apply negb_false_iff, existsb_exists.
    exists q. split; [done|by apply mem_In].
Qed.

Lemma apiCall_Return_inv w u w' :
  apiCall w = (Return u, w') → aws w' = aws w ∧ trace w' = trace w ∧ db w' = db w.
Proof.
  unfold apiCall. destruct (faults w) as [|[n|] fs]; intros; by simplify_eq.
Qed.

Lemma revoke_Return_inv gid req w w' :
  revokeSecurityGroupIngress gid req w = (Return tt, w') →
  ∃ stored, securityGroups (aws w) !! gid = Some stored
            ∧ securityGroups (aws w')
              = <[gid := revokeRules req stored]> (securityGroups (aws w))
            ∧ ∃ events, added w w' events.
Proof.
  unfold revokeSecurityGroupIngress. intros Hrun.
  apply bind_Return_inv in Hrun as ([] & w1 & Hcall & Hrun).
  apply apiCall_Return_inv in Hcall as (Haws & Htrace & _).
  rewrite <- Haws. destruct (securityGroups (aws w1) !! gid) as [stored|]; [|done].
  simplify_eq. exists stored. split; [done|]. split; [done|].
  eexists [_]. unfold added. cbn [trace emit set_aws]. by rewrite Htrace.
Qed.

Lemma authorize_Return_inv gid req w w' :
  authorizeSecurityGroupIngress gid req w = (Return tt, w') →
  ∃ stored, securityGroups (aws w) !! gid = Some stored
            ∧ securityGroups (aws w')
              = <[gid := fold_left addRule req stored]> (securityGroups (aws w))
            ∧ ∃ events, added w w' events.
Proof.
  unfold authorizeSecurityGroupIngress. intros Hrun.
  apply bind_Return_inv in Hrun as ([] & w1 & Hcall & Hrun).
  apply apiCall_Return_inv in Hcall as (Haws & Htrace & _).
  rewrite <- Haws. destruct (securityGroups (aws w1) !! gid) as [stored|]; [|done].
  destruct (existsb (alreadyGranted stored) req); [done|].
  simplify_eq. exists stored. split; [done|]. split; [done|].
  eexists [_]. unfold added. cbn [trace emit set_aws]. by rewrite Htrace.
Qed.

(** A group that is reset with the rules it has ends with the one rule,
    and the run says so. *)
Lemma resetGroup_run sg rule label w w' :
  resetGroup sg rule label w = (Return tt, w') →
  securityGroups (aws w) !! GroupId sg = Some (IpPermissions sg) →
  securityGroups (aws w') = <[GroupId sg := [rule]]> (securityGroups (aws w))
  ∧ ∃ events,
      added w w'
        (events ++ [Log ("Reset " +:+ label +:+ " security group "
                         +:+ GroupId sg +:+ " successfully")]).
Proof.
  intros Hrun Hstored. unfold resetGroup in Hrun.
  apply rethrow_Return_inv in Hrun.
  apply bind_Return_inv in Hrun as ([] & w1 & Hrevoke & Hrun).
  apply bind_Return_inv in Hrun as ([] & w2 & Hauth & Hlog).
  unfold consoleLog, modify in Hlog. simplify_eq.
  assert (Hw1 : securityGroups (aws w1) = <[GroupId sg := []]> (securityGroups (aws w))
                ∧ ∃ events, added w w1 events).
  { destruct (IpPermissions sg) as [|p perms] eqn:Hperms.
    - unfold ret in Hrevoke. simplify_eq. split; [|exists []; apply added_refl].
      by rewrite insert_id.
    - rewrite <- Hperms in *. apply revoke_Return_inv in Hrevoke
        as (stored & Hs & Hgroups & Hev).
      rewrite Hstored in Hs. simplify_eq. by rewrite revokeRules_self in Hgroups. }
  destruct Hw1 as (Hgroups1 & e1 & Ha1).
  apply authorize_Return_inv in Hauth as (stored & Hs & Hgroups2 & e2 & Ha2).
  rewrite Hgroups1, lookup_insert_eq in Hs. simplify_eq.
  split.
  - cbn [aws emit]. rewrite Hgroups2, Hgroups1. simpl. by rewrite insert_insert_eq.
  - exists (e1 ++ e2). unfold added in *. cbn [trace emit].
    by rewrite Ha2, Ha1, <- !app_assoc.
Qed.

Lemma lookupGroups_stored sgs ids l sg :
  lookupGroups sgs ids = Some l → In sg l → sgs !! GroupId sg = Some (IpPermissions sg).
Proof.
  revert l. induction ids as [|id ids IH]; intros l Hl Hin; simpl in Hl.
  - by simplify_eq.
  - destruct (sgs !! id) as [perms|] eqn:Hid; [|done].
    destruct (lookupGroups sgs ids) as [l'|]; [|done]. simplify_eq.
    destruct Hin as [<-|Hin]; [done|by eapply IH].
Qed.

(** A group is described with the rules it has. *)
Lemma getSecurityGroup_run t r p l w sg w' :
  getSecurityGroup t r p l w = (Return sg, w') →
  aws w' = aws w
  ∧ securityGroups (aws w) !! GroupId sg = Some (IpPermissions sg)
  ∧ ∃ events, added w w' events.
Proof.
  intros Hrun.
  pose proof (keeps_getSecurityGroup_aws t r p l w) as Haws.
  destruct (emits_getSecurityGroup t r p l w) as (events & Hadded & _).
  rewrite Hrun in Haws, Hadded. cbn [snd] in Haws, Hadded.
  split; [done|]. split; [|by exists events].
  rewrite <- Haws. clear events Hadded Haws.
  unfold getSecurityGroup, tryCatch in Hrun.
  match type of Hrun with
  | match ?m w with _ => _ end = _ => destruct (m w) as [[sg1|e] w1] eqn:Hfirst
  end.
  - simplify_eq.
    apply bind_Return_inv in Hfirst as (info & w1 & _ & Hfirst).
    destruct (negb (hasResourceId info)); [done|].
    apply bind_Return_inv in Hfirst as (groups & w2 & Hdescribe & Hpick).
    destruct groups as [|sg1 groups]; [done|]. unfold ret in Hpick. simplify_eq.
    unfold describeSecurityGroups in Hdescribe.
    apply bind_Return_inv in Hdescribe as ([] & w2 & _ & Hdescribe).
    cbn beta iota in Hdescribe.
    destruct (lookupGroups (securityGroups (aws w2)) [resourceIdOf info])
      as [found|] eqn:Hfound; [|done].
    simplify_eq. eapply lookupGroups_stored; [done|by left].
  - apply bind_Return_inv in Hrun as ([] & w2 & _ & Hrun).
    apply bind_Return_inv in Hrun as (groups & w3 & Hdescribe & Hpick).
    destruct groups as [|sg1 groups]; [done|]. unfold ret in Hpick.
    injection Hpick as -> ->.
    unfold describeSecurityGroupsByLogicalId in Hdescribe.
    apply bind_Return_inv in Hdescribe as ([] & w3 & _ & Hdescribe).
    unfold gets in Hdescribe. injection Hdescribe as Hgroups Hw. subst w3.
    assert (Hin : sg ∈ sg :: groups) by left. rewrite <- Hgroups in Hin.
    apply list_elem_of_omap in Hin as (id & _ & Hid).
    destruct (securityGroups (aws w') !! id) as [perms|] eqn:Hperms; [|done].
    simpl in Hid. by simplify_eq.
Qed.

Lemma getSecurityGroup_resetGroup t r p l rule label w sg w1 w2 :
  getSecurityGroup t r p l w = (Return sg, w1) →
  resetGroup sg rule label w1 = (Return tt, w2) →
  securityGroups (aws w2) = <[GroupId sg := [rule]]> (securityGroups (aws w))
  ∧ ∃ events,
      added w w2
        (events ++ [Log ("Reset " +:+ label +:+ " security group "
                         +:+ GroupId sg +:+ " successfully")]).
Proof.
  intros Hget Hreset.
  apply getSecurityGroup_run in Hget as (Haws & Hstored & e1 & Ha1).
  rewrite <- Haws in Hstored.
  apply resetGroup_run in Hreset as (Hgroups & e2 & Ha2); [|done].
  rewrite Haws in Hgroups. split; [done|].
  exists (e1 ++ e2). rewrite <- app_assoc. by eapply added_trans.
Qed.

(** C10: when the reset of the security groups succeeds, the three groups
    the run reports as reset (ALB, EC2, RDS) are the only ones rewritten,
    and each of them, the three being distinct groups, is left with
    exactly its baseline rule: the ALB group with tcp 80 from 0.0.0.0/0,
    the EC2 group with tcp 8080 from the ALB group, the RDS group with
    tcp 5432 from the EC2 group. *)
Theorem security_group_reset_leaves_baseline_rules table w w' :
  resetSecurityGroups table w = (Return tt, w') →
  ∃ alb ec2 rds,
    reportsReset "ALB" alb w w' ∧ reportsReset "EC2" ec2 w w'
    ∧ reportsReset "RDS" rds w w'
    ∧ securityGroups (aws w')
      = <[rds := [rdsBaseline ec2]]>
          (<[ec2 := [ec2Baseline alb]]>
             (<[alb := [albBaseline]]> (securityGroups (aws w))))
    ∧ (alb ≠ ec2 → alb ≠ rds → ec2 ≠ rds →
       securityGroups (aws w') !! alb = Some [albBaseline]
       ∧ securityGroups (aws w') !! ec2
         = Some [mkPerm "tcp" (Some 8080) (Some 8080) [] [alb]]
       ∧ securityGroups (aws w') !! rds
         = Some [mkPerm "tcp" (Some 5432) (Some 5432) [] [ec2]]
       ∧ albBaseline = mkPerm "tcp" (Some 80) (Some 80) ["0.0.0.0/0"] []).
Proof.
  intros Hrun. unfold resetSecurityGroups in Hrun.
  apply rethrow_Return_inv in Hrun.
  apply bind_Return_inv in Hrun as (albSg & w1 & Hget1 & Hrun).
  apply bind_Return_inv in Hrun as ([] & w2 & Hreset1 & Hrun).
  apply bind_Return_inv in Hrun as (ec2Sg & w3 & Hget2 & Hrun).
  apply bind_Return_inv in Hrun as ([] & w4 & Hreset2 & Hrun).
  apply bind_Return_inv in Hrun as (rdsSg & w5 & Hget3 & Hrun).
  apply bind_Return_inv in Hrun as ([] & w6 & Hreset3 & Hlog).
  unfold consoleLog, modify in Hlog. injection Hlog as <-.
  destruct (getSecurityGroup_resetGroup _ _ _ _ _ _ _ _ _ _ Hget1 Hreset1)
    as (Hg1 & e1 & Ha1).
  destruct (getSecurityGroup_resetGroup _ _ _ _ _ _ _ _ _ _ Hget2 Hreset2)
    as (Hg2 & e2 & Ha2).
  destruct (getSecurityGroup_resetGroup _ _ _ _ _ _ _ _ _ _ Hget3 Hreset3)
    as (Hg3 & e3 & Ha3).
  pose proof (added_trans _ _ _ _ _ (added_trans _ _ _ _ _ Ha1 Ha2) Ha3) as Hadded.
  assert (Hall : added w (emit (Log "All security groups reset successfully") w6)
                       (((e1 ++ [Log ("Reset ALB security group " +:+ GroupId albSg
                                      +:+ " successfully")])
                         ++ e2 ++ [Log ("Reset EC2 security group " +:+ GroupId ec2Sg
                                        +:+ " successfully")])
                        ++ (e3 ++ [Log ("Reset RDS security group " +:+ GroupId rdsSg
                                        +:+ " successfully")])
                        ++ [Log "All security groups reset successfully"])).
  { unfold added in *. cbn [trace emit]. rewrite Hadded. by rewrite <- !app_assoc. }
  exists (GroupId albSg), (GroupId ec2Sg), (GroupId rdsSg).
  unfold reportsReset. rewrite (drop_added _ _ _ Hall).
  assert (Hgroups : securityGroups (aws (emit (Log "All security groups reset successfully") w6))
                    = <[GroupId rdsSg := [rdsBaseline (GroupId ec2Sg)]]>
                        (<[GroupId ec2Sg := [ec2Baseline (GroupId albSg)]]>
                           (<[GroupId albSg := [albBaseline]]> (securityGroups (aws w)))))
    by (cbn [aws emit]; by rewrite Hg3, Hg2, Hg1).
  split_and!; [set_solver..|done|].
  intros Hae Har Her. rewrite Hgroups.
  split_and!; [|  |by rewrite lookup_insert_eq|done].
  - by rewrite !lookup_insert_ne, lookup_insert_eq by done.
  - by rewrite lookup_insert_ne, lookup_insert_eq by done.
Qed.

Lemma security_group_reset_witness :
  let w := set_aws Sample.openSsh (Sample.world "Ongoing") in
  let w' := (resetSecurityGroups "ResourceMappingTable" w).2 in
  ∃ alb ec2 rds,
    reportsReset "ALB" alb w w' ∧ reportsReset "EC2" ec2 w w'
    ∧ reportsReset "RDS" rds w w'
    ∧ securityGroups (aws w')
      = <[rds := [rdsBaseline ec2]]>
          (<[ec2 := [ec2Baseline alb]]>
             (<[alb := [albBaseline]]> (securityGroups (aws w))))
    ∧ (alb ≠ ec2 → alb ≠ rds → ec2 ≠ rds →
       securityGroups (aws w') !! alb = Some [albBaseline]
       ∧ securityGroups (aws w') !! ec2
         = Some [mkPerm "tcp" (Some 8080) (Some 8080) [] [alb]]
       ∧ securityGroups (aws w') !! rds
         = Some [mkPerm "tcp" (Some 5432) (Some 5432) [] [ec2]]
       ∧ albBaseline = mkPerm "tcp" (Some 80) (Some 80) ["0.0.0.0/0"] []).
Proof.
  intros w w'.
  apply (security_group_reset_leaves_baseline_rules "ResourceMappingTable" w w').
  vm_compute. reflexivity.
Defined.
End SecurityGroups.

(** ** The injection handlers *)

Section InjectionGuard.
Import Injection.
Variable injectVulnerability : string -> option ResourceItem -> M unit.

Lemma notReady_phase w : phase w ≠ Some "Ready" → notReady (phase w) = true.
Proof.
  intros Hphase. unfold notReady. apply negb_true_iff.
  by apply bool_decide_eq_false.
Qed.

Lemma ready_phase w : phase w = Some "Ready" → notReady (phase w) = false.
Proof. intros ->. reflexivity. Qed.

(** C5: an injection asked for while the phase is not Ready is refused
    with status 400 by each of the four handlers (security and resilience,
    easy and hard), and the world is left as it was: no ledger entry is
    written and the phase keeps its value. *)
Theorem injection_refused_unless_ready w :
  phase w ≠ Some "Ready" →
  SecurityInjection.easy injectVulnerability w = (Return (gameNotReady (phase w)), w)
  ∧ SecurityInjection.hard injectVulnerability w = (Return (gameNotReady (phase w)), w)
  ∧ ResilienceInjection.Easy.handler w = (Return (gameNotReady (phase w)), w)
  ∧ ResilienceInjection.Hard.handler w = (Return (gameNotReady (phase w)), w)
  ∧ statusCode (gameNotReady (phase w)) = 400.
Proof.
  intros Hphase. apply notReady_phase in Hphase.
  unfold SecurityInjection.easy, SecurityInjection.hard,
    ResilienceInjection.Easy.handler, ResilienceInjection.Hard.handler.
  unfold tryCatch, bind, resourceMappingTableName, getGameState, ddbGetGameState, gets.
  fold (phase w). rewrite Hphase. done.
Qed.
End InjectionGuard.

Lemma injection_refused_witness :
  let w := Sample.faulted in
  let injectVulnerability := fun (_ : string) (_ : option ResourceItem) => ret tt in
  SecurityInjection.easy injectVulnerability w = (Return (Injection.gameNotReady (phase w)), w)
  ∧ SecurityInjection.hard injectVulnerability w = (Return (Injection.gameNotReady (phase w)), w)
  ∧ ResilienceInjection.Easy.handler w = (Return (Injection.gameNotReady (phase w)), w)
  ∧ ResilienceInjection.Hard.handler w = (Return (Injection.gameNotReady (phase w)), w)
  ∧ statusCode (Injection.gameNotReady (phase w)) = 400.
Proof.
  intros w injectVulnerability.
  apply (injection_refused_unless_ready injectVulnerability w).
  vm_compute. discriminate.
Defined.

(** ** A loop that marks the components it has acted on *)

Lemma ledger_put t c c' h w w' :
  db w' = putComponent t c h (db w) →
  ledger t c' w' = if decide (c' = c) then Some h else ledger t c' w.
Proof.
  intros Hdb. unfold ledger. rewrite Hdb.
  destruct (decide (c' = c)) as [->|Hne]; destruct t; simpl.
  all: by rewrite ?lookup_insert_eq, ?lookup_insert_ne by done.
Qed.

Lemma phase_put t c h w w' :
  db w' = putComponent t c h (db w) → phase w' = phase w.
Proof. intros Hdb. unfold phase. rewrite Hdb. by destruct t. Qed.

Section Turns.
Variable t : Scenario.
Variable turn : string -> World -> World.
Variable acts : string -> World -> Prop.

(** A turn either acts on its component and then marks it Red, or leaves
    the tables alone. *)
Hypothesis turn_db : ∀ c w,
  (acts c w ∧ db (turn c w) = putComponent t c Red (db w))
  ∨ (¬ acts c w ∧ db (turn c w) = db w).

Lemma turns_app pre post w : turns turn (pre ++ post) w = turns turn post (turns turn pre w).
Proof. apply fold_left_app. Qed.

Lemma turns_phase cs w : phase (turns turn cs w) = phase w.
Proof.
  revert w. induction cs as [|x cs IH]; intros w; [done|].
  simpl. rewrite IH.
  destruct (turn_db x w) as [[_ Hdb]|[_ Hdb]].
  - by eapply phase_put.
  - unfold phase. by rewrite Hdb.
Qed.

Lemma turns_keep_red cs c w :
  ledger t c w = Some Red → ledger t c (turns turn cs w) = Some Red.
Proof.
  revert w. induction cs as [|x cs IH]; intros w Hred; [done|].
  simpl. apply IH.
  destruct (turn_db x w) as [[_ Hdb]|[_ Hdb]].
  - rewrite (ledger_put _ _ _ _ _ _ Hdb). by case_decide.
  - unfold ledger. by rewrite Hdb.
Qed.

(** The component of a turn that acted reads Red once the loop is over. *)
Lemma turns_red pre c post w :
  acts c (turns turn pre w) →
  ledger t c (turns turn (pre ++ c :: post) w) = Some Red.
Proof.
  intros Hacts. rewrite turns_app. simpl. apply turns_keep_red.
  destruct (turn_db c (turns turn pre w)) as [[_ Hdb]|[Hnot _]]; [|done].
  rewrite (ledger_put _ _ _ _ _ _ Hdb). by rewrite decide_True.
Qed.

(** A component no turn acted on reads what it read before the loop. *)
Lemma turns_untouched cs c w :
  (∀ pre post, cs = pre ++ c :: post → ¬ acts c (turns turn pre w)) →
  ledger t c (turns turn cs w) = ledger t c w.
Proof.
  revert w. induction cs as [|x cs IH]; intros w Hnever; [done|].
  simpl. rewrite IH.
  - destruct (turn_db x w) as [[Hacts Hdb]|[_ Hdb]].
    + rewrite (ledger_put _ _ _ _ _ _ Hdb). case_decide as Hx; [|done].
      subst x. by destruct (Hnever [] cs).
    + unfold ledger. by rewrite Hdb.
  - intros pre post ->. apply (Hnever (x :: pre) post). done.
Qed.
End Turns.

(** ** The hard handlers *)

Lemma bind_assoc {A B C} (m : M A) (k : A -> M B) (h : B -> M C) w :
  bind (bind m k) h w = bind m (fun a => bind (k a) h) w.
Proof. unfold bind. by destruct (m w) as [[a|e] w1]. Qed.

Lemma returns_Throw {A} (m : M A) w e w' : m w = (Throw e, w') → ¬ returns m w.
Proof. intros Hm (a & w1 & Hr). congruence. Qed.

Lemma returns_Return {A} (m : M A) w a w' : m w = (Return a, w') → returns m w.
Proof. intros Hm. by exists a, w'. Qed.

Section SecurityHard.
Import Injection SecurityInjection.
Variable injectVulnerability : string -> option ResourceItem -> M unit.
Hypothesis injectVulnerability_db : ∀ r i, keeps db (injectVulnerability r i).
Variable table : string.

Lemma keeps_actuateSecurity c : keeps db (actuateSecurity injectVulnerability table c).
Proof. unfold actuateSecurity. keeps_auto. Qed.

Lemma injectAndMark_actuate c w :
  injectAndMark injectVulnerability table c w
  = bind (actuateSecurity injectVulnerability table c)
         (fun _ => consoleLog ("Injected vulnerability to " +:+ mapComponentToResourceType c)
                   >> updateComponentState Security c Red) w.
Proof. unfold injectAndMark, actuateSecurity. cbv zeta. by rewrite bind_assoc. Qed.

Lemma securityTurn_db c w :
  (returns (actuateSecurity injectVulnerability table c) w
   ∧ db (securityTurn injectVulnerability table c w) = putComponent Security c Red (db w))
  ∨ (¬ returns (actuateSecurity injectVulnerability table c) w
     ∧ db (securityTurn injectVulnerability table c w) = db w).
Proof.
  unfold securityTurn, injectOne, tryCatch. rewrite injectAndMark_actuate.
  pose proof (keeps_actuateSecurity c w) as Hdb. unfold bind.
  destruct (actuateSecurity injectVulnerability table c w) as [[[]|e] w1] eqn:Hact.
  - left. split; [by eapply returns_Return|]. simpl in *. by rewrite Hdb.
  - right. split; [by eapply returns_Throw|]. done.
Qed.

Lemma injectOne_securityTurn c w :
  injectOne injectVulnerability table c w
  = (Return tt, securityTurn injectVulnerability table c w).
Proof.
  unfold securityTurn, injectOne, tryCatch.
  by destruct (injectAndMark injectVulnerability table c w) as [[[]|e] w1].
Qed.

Lemma forOf_securityTurn cs w :
  forOf cs (injectOne injectVulnerability table) w
  = (Return tt, turns (securityTurn injectVulnerability table) cs w).
Proof.
  revert w. induction cs as [|c cs IH]; intros w; [done|].
  simpl. unfold bind. by rewrite injectOne_securityTurn, IH.
Qed.
End SecurityHard.

Section ResilienceHard.
Import Injection ResilienceInjection ResilienceInjection.Hard.
Variable table : string.

Lemma keeps_onBothInstances {X} (π : World -> X) `{!Observable π, !AwsBlind π}
    t action msg :
  (∀ i, keeps π (action i)) → keeps π (onBothInstances t action msg).
Proof. intros Haction. unfold onBothInstances, getResourceInfo. keeps_auto. Qed.

Lemma keeps_killApplicationProcess {X} (π : World -> X) `{!Observable π, !AwsBlind π}
    i s : keeps π (killApplicationProcess i s).
Proof. unfold killApplicationProcess. keeps_auto. Qed.

Lemma keeps_actuateResilience c : keeps db (actuateResilience table c).
Proof.
  unfold actuateResilience, injectFailure, injectEC2Failure, killAllApplicationProcesses,
    removeHTTPInboundRule, removeALBInboundRule, stopEC2Instance, getResourceInfo.
  repeat first [ apply keeps_onBothInstances; [typeclasses eauto..|intros ?]
               | apply keeps_killApplicationProcess; typeclasses eauto
               | keeps_step ].
Qed.

Lemma injectAndMark_actuate_resilience c acc w :
  injectAndMark table c acc w
  = bind (actuateResilience table c)
         (fun _ => consoleLog ("Injected failure to " +:+ mapComponentToResourceType c)
                   >> updateComponentState Resilience c Red
                   >> ret (acc ++ [c])) w.
Proof. reflexivity. Qed.

(** The skipped component: a log line, and nothing else. *)
Lemma injectOne_skips acc w :
  injectOne table "EC2 Process" acc w
  = (Return acc, emit (Log "Skipping EC2 Process component in Hard mode") w).
Proof. reflexivity. Qed.

(** One turn: what it adds to [failedComponents] and what it does to the
    tables. *)
Lemma injectOne_run c w :
  ∃ pushed,
    (∀ acc, injectOne table c acc w = (Return (acc ++ pushed), resilienceTurn table c w))
    ∧ ((pushed = [c] ∧ actsResilience table c w
        ∧ db (resilienceTurn table c w) = putComponent Resilience c Red (db w))
       ∨ (pushed = [] ∧ ¬ actsResilience table c w
          ∧ db (resilienceTurn table c w) = db w)).
Proof.
  unfold resilienceTurn, actsResilience, injectOne, tryCatch.
  destruct (String.eqb c "EC2 Process") eqn:Hskip.
  - apply String.eqb_eq in Hskip. exists []. split.
    + intros acc. by rewrite app_nil_r.
    + right. split; [done|]. split; [by intros [Hne _]|done].
  - apply String.eqb_neq in Hskip.
    pose proof (keeps_actuateResilience c w) as Hdb.
    setoid_rewrite injectAndMark_actuate_resilience. unfold bind.
    destruct (actuateResilience table c w) as [[[]|e] w1] eqn:Hact.
    + exists [c]. split; [done|]. left. split; [done|].
      split; [split; [done|by eapply returns_Return]|]. simpl in *. by rewrite Hdb.
    + exists []. split; [intros acc; by rewrite app_nil_r|]. right.
      split; [done|]. split; [|done]. intros [_ Hret]. by eapply returns_Throw.
Qed.

Lemma resilienceTurn_db c w :
  (actsResilience table c w
   ∧ db (resilienceTurn table c w) = putComponent Resilience c Red (db w))
  ∨ (¬ actsResilience table c w ∧ db (resilienceTurn table c w) = db w).
Proof. destruct (injectOne_run c w) as (pushed & _ & [(_ & ? & ?)|(_ & ? & ?)]); eauto. Qed.

(** The loop: [failedComponents] grows by the components of the turns that
    acted, and by no other. *)
Lemma injectAll_run cs w :
  ∃ pushed,
    (∀ acc, injectAll table cs acc w
            = (Return (acc ++ pushed), turns (resilienceTurn table) cs w))
    ∧ ∀ c, c ∈ pushed ↔
           ∃ pre post, cs = pre ++ c :: post
                       ∧ actsResilience table c (turns (resilienceTurn table) pre w).
Proof.
  revert w. induction cs as [|x cs IH]; intros w.
  - exists []. split; [intros acc; by rewrite app_nil_r|].
    intros c. split; [by intros ?%elem_of_nil|].
    intros (pre & post & Hcs & _). by destruct pre.
  - destruct (injectOne_run x w) as (p1 & Hone & Hp1).
    destruct (IH (resilienceTurn table x w)) as (p2 & Hall & Hp2).
    exists (p1 ++ p2). split.
    + intros acc. simpl. unfold bind. by rewrite Hone, Hall, app_assoc.
    + intros c. rewrite elem_of_app, Hp2. split.
      * intros [Hc|(pre & post & -> & Hacts)].
        -- destruct Hp1 as [(-> & Hacts & _)|(-> & _)]; [|by apply elem_of_nil in Hc].
           apply list_elem_of_singleton in Hc as ->. by exists [], cs.
        -- by exists (x :: pre), post.
      * intros (pre & post & Hcs & Hacts). destruct pre as [|y pre].
        -- simpl in *. injection Hcs as -> ->. left.
           destruct Hp1 as [(-> & _)|(_ & Hnot & _)]; [by left|done].
        -- simpl in *. injection Hcs as -> ->. right. by exists pre, post.
Qed.

Lemma injectAll_world cs acc w :
  (injectAll table cs acc w).2 = turns (resilienceTurn table) cs w.
Proof. destruct (injectAll_run cs w) as (pushed & -> & _). done. Qed.
End ResilienceHard.

Section HardInjection.
Import Injection.
Variable injectVulnerability : string -> option ResourceItem -> M unit.

Lemma updateGameState_phase state w : phase (updateGameState state w).2 = Some state.
Proof. unfold phase. simpl. apply lookup_insert_eq. Qed.

Lemma updateGameState_ledger state t c w :
  ledger t c (updateGameState state w).2 = ledger t c w.
Proof. unfold ledger. by destruct t. Qed.

End HardInjection.


(** ** The easy handlers: one component, or nothing *)

Section EasyInjection.
Import Injection.
Variable injectVulnerability : string -> option ResourceItem -> M unit.
Hypothesis injectVulnerability_db : ∀ r i, keeps db (injectVulnerability r i).

(** The component the easy handlers draw. *)
Lemma pickRandom_scanned t w :
  pickRandom (scanned t w) w
  = (Return (scanned t w !! (random w `mod` length (scanned t w))%nat), w).
Proof. reflexivity. Qed.

End EasyInjection.


Section EasyResilience.
Import Injection ResilienceInjection ResilienceInjection.Easy.

Lemma keeps_Easy_injectFailure {X} (π : World -> X) `{!Observable π, !AwsBlind π} r i c :
  keeps π (injectFailure r i c).
Proof.
  unfold injectFailure, stopBothEC2Instances, removeHTTPInboundRule, removeALBInboundRule,
    removeInboundRule, killRandomApplicationProcess, stopEC2Instance, getResourceInfo.
  repeat first [ apply keeps_onBothInstances; [typeclasses eauto..|intros ?]
               | apply keeps_killApplicationProcess; typeclasses eauto
               | keeps_step ].
Qed.


End EasyResilience.

(** ** The hard resilience handler: what its answer lists *)

Section HardResilienceAnswer.
Import Injection ResilienceInjection ResilienceInjection.Hard.



Lemma onBothInstances_returns table action failureMsg w items :
  mappingTables (db w) !! table = Some items →
  hasResourceId (items !! "EC2_INSTANCE_1") = true →
  hasResourceId (items !! "EC2_INSTANCE_2") = true →
  returns (onBothInstances table action failureMsg) w.
Proof.
  intros Htable H1 H2.
  unfold returns, onBothInstances, getResourceInfo, ddbGetMapping, bind.
  rewrite Htable. cbn beta iota. rewrite Htable. cbn beta iota.
  rewrite H1, H2. cbn [negb].
  destruct (total_tryCatch (action (resourceIdOf (items !! "EC2_INSTANCE_1")))
              (fun _ => consoleError (failureMsg +:+ " 1"))
              (fun _ => total_consoleError _) w) as ([] & w1 & ->).
  destruct (total_tryCatch (action (resourceIdOf (items !! "EC2_INSTANCE_2")))
              (fun _ => consoleError (failureMsg +:+ " 2"))
              (fun _ => total_consoleError _) w1) as ([] & w2 & ->).
  by exists tt, w2.
Qed.


End HardResilienceAnswer.

(** ** Runs in which no service call fails *)

Section QuietRuns.

Lemma apiCall_quiet w : faults w = [] → apiCall w = (Return tt, w).
Proof. unfold apiCall. by intros ->. Qed.

Lemma ddbGetMapping_found table key w items :
  mappingTables (db w) !! table = Some items →
  ddbGetMapping table key w = (Return (items !! key), w).
Proof. unfold ddbGetMapping. by intros ->. Qed.

Lemma describeSecurityGroups_one id w perms :
  faults w = [] →
  securityGroups (aws w) !! id = Some perms →
  describeSecurityGroups [id] w = (Return [mkSg id perms], w).
Proof.
  intros Hq Hid. unfold describeSecurityGroups, bind. rewrite (apiCall_quiet _ Hq).
  simpl. by rewrite Hid.
Qed.

Lemma revokeSecurityGroupIngress_quiet gid req w stored :
  faults w = [] →
  securityGroups (aws w) !! gid = Some stored →
  revokeSecurityGroupIngress gid req w
  = (Return tt, emit (Api "RevokeSecurityGroupIngress" gid)
                     (set_aws (setGroup gid (revokeRules req stored)) w)).
Proof.
  intros Hq Hid. unfold revokeSecurityGroupIngress, bind. rewrite (apiCall_quiet _ Hq).
  by rewrite Hid.
Qed.

Lemma authorizeSecurityGroupIngress_quiet gid req w stored :
  faults w = [] →
  securityGroups (aws w) !! gid = Some stored →
  existsb (alreadyGranted stored) req = false →
  authorizeSecurityGroupIngress gid req w
  = (Return tt, emit (Api "AuthorizeSecurityGroupIngress" gid)
                     (set_aws (setGroup gid (fold_left addRule req stored)) w)).
Proof.
  intros Hq Hid Hnew. unfold authorizeSecurityGroupIngress, bind.
  rewrite (apiCall_quiet _ Hq). by rewrite Hid, Hnew.
Qed.

(** The id an observer reads from the mapping table. *)
Lemma getMappedResourceId_found resourceType notFound logMsg w items item :
  mappingTables (db w) !! mappingTable w = Some items →
  items !! resourceType = Some item →
  truthy (ResourceId item) = true →
  Observer.getMappedResourceId resourceType notFound logMsg w
  = (Return (ResourceId item), w).
Proof.
  intros Htable Hitem Hid.
  unfold Observer.getMappedResourceId, rethrow, tryCatch, bind, resourceMappingTableName, gets.
  fold (mappingTable w). rewrite (ddbGetMapping_found _ _ _ _ Htable), Hitem.
  simpl. by rewrite Hid.
Qed.

Lemma quietAfter_refl w : faults w = [] → quietAfter w w.
Proof. by intros ?. Qed.

Lemma quietAfter_trans w1 w2 w3 : quietAfter w1 w2 → quietAfter w2 w3 → quietAfter w1 w3.
Proof. intros (? & ? & ?) (? & ? & ?). repeat split; congruence. Qed.

Lemma mappedId_after w w' resourceType id :
  quietAfter w w' → mappedId w resourceType id → mappedId w' resourceType id.
Proof.
  intros (_ & Hdb & Henv) (items & item & ? & ?). exists items, item.
  unfold mappingTable. by rewrite Hdb, Henv.
Qed.

Lemma getMappedResourceId_mapped resourceType notFound logMsg w id :
  mappedId w resourceType id →
  Observer.getMappedResourceId resourceType notFound logMsg w = (Return id, w).
Proof.
  intros (items & item & Htable & Hitem & <- & Hid).
  by eapply getMappedResourceId_found.
Qed.

Lemma Reset_getSecurityGroup_quiet resourceType pattern label w id perms :
  faults w = [] →
  mappedId w resourceType id →
  securityGroups (aws w) !! id = Some perms →
  Reset.getSecurityGroup (mappingTable w) resourceType pattern label w
  = (Return (mkSg id perms), w).
Proof.
  intros Hq (items & item & Htable & Hitem & <- & Hid) Hperms.
  unfold Reset.getSecurityGroup, Reset.getResourceInfo, tryCatch, bind.
  rewrite (ddbGetMapping_found _ _ _ _ Htable), Hitem. simpl. rewrite Hid. simpl.
  by rewrite (describeSecurityGroups_one _ _ _ Hq Hperms).
Qed.

Lemma Reset_resetGroup_quiet id perms rule label w :
  faults w = [] →
  securityGroups (aws w) !! id = Some perms →
  ∃ w', Reset.resetGroup (mkSg id perms) rule label w = (Return tt, w')
        ∧ quietAfter w w'
        ∧ securityGroups (aws w') = <[id := [rule]]> (securityGroups (aws w)).
Proof.
  intros Hq Hperms. unfold Reset.resetGroup, rethrow, tryCatch. cbn [GroupId IpPermissions].
  assert (Hrevoked : ∃ w1,
             (match perms with
              | [] => ret tt
              | _ => revokeSecurityGroupIngress id perms
              end) w = (Return tt, w1)
             ∧ quietAfter w w1
             ∧ securityGroups (aws w1) = <[id := []]> (securityGroups (aws w))).
  { destruct perms as [|p perms].
    - exists w. split; [done|]. split; [done|]. by rewrite insert_id.
    - eexists. split; [by apply revokeSecurityGroupIngress_quiet|].
      split; [done|]. simpl. by rewrite revokeRules_self. }
  destruct Hrevoked as (w1 & Hrun1 & (Hq1 & Hdb1 & Henv1) & Hsg1).
  unfold bind at 1. rewrite Hrun1. unfold bind at 1.
  rewrite (authorizeSecurityGroupIngress_quiet id [rule] w1 []); [|done| |done].
  2: { rewrite Hsg1. apply lookup_insert_eq. }
  eexists. split; [reflexivity|]. split; [done|].
  simpl. by rewrite Hsg1, insert_insert_eq.
Qed.
End QuietRuns.

(** ** The security-group observers on what a reset leaves *)

Section GroupObservers.
Import Observer.

Ltac check_quiet Hq Hperms :=
  unfold rethrow, tryCatch, bind;
  rewrite (describeSecurityGroups_one _ _ _ Hq Hperms); reflexivity.

Lemma checkAlbSecurityGroupSsh_quiet id w perms :
  faults w = [] → securityGroups (aws w) !! id = Some perms →
  checkAlbSecurityGroupSsh id w = (Return (existsb (openToWorld 22) perms), w).
Proof. intros Hq Hperms. unfold checkAlbSecurityGroupSsh. check_quiet Hq Hperms. Qed.

Lemma checkRdsSecurityGroup_quiet id w perms :
  faults w = [] → securityGroups (aws w) !! id = Some perms →
  checkRdsSecurityGroup id w = (Return (existsb (openToWorld 3306) perms), w).
Proof. intros Hq Hperms. unfold checkRdsSecurityGroup. check_quiet Hq Hperms. Qed.

Lemma checkAlbSecurityGroupHttp_quiet id w perms :
  faults w = [] → securityGroups (aws w) !! id = Some perms →
  checkAlbSecurityGroupHttp id w = (Return (negb (existsb (openToWorld 80) perms)), w).
Proof. intros Hq Hperms. unfold checkAlbSecurityGroupHttp. check_quiet Hq Hperms. Qed.

Lemma checkEc2SecurityGroupsSsh_quiet id w perms :
  faults w = [] → securityGroups (aws w) !! id = Some perms →
  checkEc2SecurityGroupsSsh [id] w
  = (Return (existsb (openToWorld 22) perms || false), w).
Proof. intros Hq Hperms. unfold checkEc2SecurityGroupsSsh. check_quiet Hq Hperms. Qed.

Lemma checkEc2SecurityGroupsAlb_quiet id alb w perms :
  faults w = [] → securityGroups (aws w) !! id = Some perms →
  checkEc2SecurityGroupsAlb [id] alb w
  = (Return (negb (existsb (allowsAlb alb) perms) || false), w).
Proof. intros Hq Hperms. unfold checkEc2SecurityGroupsAlb. check_quiet Hq Hperms. Qed.

(** X5: when no service call fails, the mapping table names three
    distinct existing groups for ALB_SG, EC2_SG and RDS_SG, the reset of
    the security groups succeeds whatever rules the groups had, and on
    what it leaves each of the five security-group observers finds its
    component not faulted. *)
Theorem quiet_group_reset_reads_healthy w alb ec2 rds :
  faults w = [] →
  mappedId w "ALB_SG" alb → mappedId w "EC2_SG" ec2 → mappedId w "RDS_SG" rds →
  is_Some (securityGroups (aws w) !! alb) →
  is_Some (securityGroups (aws w) !! ec2) →
  is_Some (securityGroups (aws w) !! rds) →
  alb ≠ ec2 → alb ≠ rds → ec2 ≠ rds →
  ∃ w', Reset.resetSecurityGroups (mappingTable w) w = (Return tt, w')
        ∧ probe security_albsg w' = (Return false, w')
        ∧ probe security_ec2sg w' = (Return false, w')
        ∧ probe security_rdssg w' = (Return false, w')
        ∧ probe resilience_albsg w' = (Return false, w')
        ∧ probe resilience_ec2sg w' = (Return false, w').
Proof.
  intros Hq Malb Mec2 Mrds [pa Ha] [pe He] [pr Hr] Hae Har Her.
  destruct (Reset_resetGroup_quiet alb pa Reset.albBaseline "ALB" w Hq Ha)
    as (w1 & Hrun1 & Hq1 & Hsg1).
  assert (He1 : securityGroups (aws w1) !! ec2 = Some pe)
    by (by rewrite Hsg1, lookup_insert_ne by done).
  destruct (Reset_resetGroup_quiet ec2 pe (Reset.ec2Baseline alb) "EC2" w1 (proj1 Hq1) He1)
    as (w2 & Hrun2 & Hq2 & Hsg2).
  assert (Hr2 : securityGroups (aws w2) !! rds = Some pr)
    by (by rewrite Hsg2, Hsg1, !lookup_insert_ne by done).
  destruct (Reset_resetGroup_quiet rds pr (Reset.rdsBaseline ec2) "RDS" w2 (proj1 Hq2) Hr2)
    as (w3 & Hrun3 & Hq3 & Hsg3).
  pose proof (quietAfter_trans _ _ _ Hq1 Hq2) as Hq12.
  pose proof (quietAfter_trans _ _ _ Hq12 Hq3) as Hq13.
  assert (Htable1 : mappingTable w1 = mappingTable w)
    by (unfold mappingTable; by rewrite (proj2 (proj2 Hq1))).
  assert (Htable2 : mappingTable w2 = mappingTable w)
    by (unfold mappingTable; by rewrite (proj2 (proj2 Hq12))).
  exists (emit (Log "All security groups reset successfully") w3). split.
  { unfold Reset.resetSecurityGroups, Reset.getAlbSecurityGroup, Reset.getEc2SecurityGroup,
      Reset.getRdsSecurityGroup, Reset.resetAlbSecurityGroup, Reset.resetEc2SecurityGroup,
      Reset.resetRdsSecurityGroup, rethrow, tryCatch.
    unfold bind at 1.
    rewrite (Reset_getSecurityGroup_quiet _ _ _ _ _ _ Hq Malb Ha).
    unfold bind at 1. cbn [GroupId]. rewrite Hrun1.
    unfold bind at 1. rewrite <- Htable1.
    rewrite (Reset_getSecurityGroup_quiet _ _ _ _ _ _ (proj1 Hq1)
               (mappedId_after _ _ _ _ Hq1 Mec2) He1).
    unfold bind at 1. cbn [GroupId]. rewrite Hrun2.
    unfold bind at 1. rewrite Htable1, <- Htable2.
    rewrite (Reset_getSecurityGroup_quiet _ _ _ _ _ _ (proj1 Hq2)
               (mappedId_after _ _ _ _ Hq12 Mrds) Hr2).
    unfold bind at 1. cbn [GroupId]. rewrite Hrun3. reflexivity. }
  set (w' := emit (Log "All security groups reset successfully") w3).
  assert (Hq' : quietAfter w w') by (destruct Hq13 as (? & ? & ?); by repeat split).
  assert (Hsg : securityGroups (aws w')
                = <[rds := [Reset.rdsBaseline ec2]]>
                    (<[ec2 := [Reset.ec2Baseline alb]]>
                       (<[alb := [Reset.albBaseline]]> (securityGroups (aws w)))))
    by (subst w'; cbn [aws emit]; by rewrite Hsg3, Hsg2, Hsg1).
  assert (Ha' : securityGroups (aws w') !! alb = Some [Reset.albBaseline])
    by (by rewrite Hsg, !lookup_insert_ne, lookup_insert_eq by done).
  assert (He' : securityGroups (aws w') !! ec2 = Some [Reset.ec2Baseline alb])
    by (by rewrite Hsg, lookup_insert_ne, lookup_insert_eq by done).
  assert (Hr' : securityGroups (aws w') !! rds = Some [Reset.rdsBaseline ec2])
    by (by rewrite Hsg, lookup_insert_eq).
  pose proof (mappedId_after _ _ _ _ Hq' Malb) as Malb'.
  pose proof (mappedId_after _ _ _ _ Hq' Mec2) as Mec2'.
  pose proof (mappedId_after _ _ _ _ Hq' Mrds) as Mrds'.
  destruct Hq' as (Hquiet & _ & _).
  unfold security_albsg, security_ec2sg, security_rdssg, resilience_albsg, resilience_ec2sg.
  cbn [probe].
  unfold getAlbSecurityGroupId, getRdsSecurityGroupId, getEc2SecurityGroupIds.
  split_and!.
  - unfold bind. rewrite (getMappedResourceId_mapped _ _ _ _ _ Malb').
    by rewrite (checkAlbSecurityGroupSsh_quiet _ _ _ Hquiet Ha').
  - unfold bind. rewrite (getMappedResourceId_mapped _ _ _ _ _ Mec2'). cbn [ret].
    by rewrite (checkEc2SecurityGroupsSsh_quiet _ _ _ Hquiet He').
  - unfold bind. rewrite (getMappedResourceId_mapped _ _ _ _ _ Mrds').
    by rewrite (checkRdsSecurityGroup_quiet _ _ _ Hquiet Hr').
  - unfold bind. rewrite (getMappedResourceId_mapped _ _ _ _ _ Malb').
    by rewrite (checkAlbSecurityGroupHttp_quiet _ _ _ Hquiet Ha').
  - unfold bind. rewrite (getMappedResourceId_mapped _ _ _ _ _ Mec2'). cbn [ret].
    rewrite (getMappedResourceId_mapped _ _ _ _ _ Malb').
    rewrite (checkEc2SecurityGroupsAlb_quiet _ _ _ _ Hquiet He').
    unfold allowsAlb, Reset.ec2Baseline, mem. simpl. by rewrite String.eqb_refl.
Qed.

Lemma quiet_group_reset_witness :
  let w := set_aws Sample.openSsh (Sample.world "Ongoing") in
  ∃ w', Reset.resetSecurityGroups (mappingTable w) w = (Return tt, w')
        ∧ probe security_albsg w' = (Return false, w')
        ∧ probe security_ec2sg w' = (Return false, w')
        ∧ probe security_rdssg w' = (Return false, w')
        ∧ probe resilience_albsg w' = (Return false, w')
        ∧ probe resilience_ec2sg w' = (Return false, w').
Proof.
  intros w.
  apply (quiet_group_reset_reads_healthy w "sg-alb" "sg-ec2" "sg-rds").
  - reflexivity.
  - exists Sample.mapping, (mkResource "sg-alb" EmptyString EmptyString).
    repeat split; vm_compute; reflexivity.
  - exists Sample.mapping, (mkResource "sg-ec2" EmptyString EmptyString).
    repeat split; vm_compute; reflexivity.
  - exists Sample.mapping, (mkResource "sg-rds" EmptyString EmptyString).
    repeat split; vm_compute; reflexivity.
  - exists (default [] (securityGroups (aws w) !! "sg-alb")). vm_compute. reflexivity.
  - exists (default [] (securityGroups (aws w) !! "sg-ec2")). vm_compute. reflexivity.
  - exists (default [] (securityGroups (aws w) !! "sg-rds")). vm_compute. reflexivity.
  - discriminate.
  - discriminate.
  - discriminate.
Defined.
End GroupObservers.

(** ** An injected failure and its observer *)

Section InjectionObserved.
Import Observer ResilienceInjection.

Lemma revoke_http_baseline : revokeRules [httpRule] [Reset.albBaseline] = [].
Proof. reflexivity. Qed.

Lemma revoke_alb_baseline alb :
  revokeRules [albRule alb] [Reset.ec2Baseline alb] = [].
Proof.
  unfold revokeRules, subtractRule, albRule, Reset.ec2Baseline, mem. simpl.
  by rewrite String.eqb_refl.
Qed.

(** X6: when no service call fails and the ALB and EC2 groups hold the
    rules a reset leaves, the hard failure injection for "ALB SG" and the
    one for "EC2 SG" each return, and right after it the observer of the
    component finds it faulted. *)
Theorem quiet_hard_injection_is_observed w alb ec2 :
  faults w = [] →
  mappedId w "ALB_SG" alb → mappedId w "EC2_SG" ec2 →
  securityGroups (aws w) !! alb = Some [Reset.albBaseline] →
  securityGroups (aws w) !! ec2 = Some [Reset.ec2Baseline alb] →
  (∃ w', actuateResilience (mappingTable w) "ALB SG" w = (Return tt, w')
         ∧ probe resilience_albsg w' = (Return true, w'))
  ∧ (∃ w', actuateResilience (mappingTable w) "EC2 SG" w = (Return tt, w')
           ∧ probe resilience_ec2sg w' = (Return true, w')).
Proof.
  intros Hq Malb Mec2 Ha He.
  pose proof Malb as (items & ia & Htable & Hia & Hida & Hta).
  pose proof Mec2 as (items' & ie & Htable' & Hie & Hide & Hte).
  assert (items' = items) as -> by congruence.
  unfold actuateResilience, Hard.mapComponentToResourceType, mapComponentToResourceType,
    Hard.injectFailure. cbn [String.eqb Ascii.eqb Bool.eqb].
  unfold getResourceInfo, resilience_albsg, resilience_ec2sg. cbn [probe].
  unfold getAlbSecurityGroupId, getEc2SecurityGroupIds. split.
  - set (w' := emit (Api "RevokeSecurityGroupIngress" alb)
                    (set_aws (setGroup alb []) w)).
    assert (Hq' : quietAfter w w') by done.
    exists w'. split.
    + unfold bind. rewrite (ddbGetMapping_found _ _ _ _ Htable), Hia. simpl.
      rewrite Hida, Hta. simpl. unfold Hard.removeHTTPInboundRule, tryCatch.
      by rewrite (revokeSecurityGroupIngress_quiet _ _ _ _ Hq Ha), revoke_http_baseline.
    + unfold bind. rewrite (getMappedResourceId_mapped _ _ _ _ _ (mappedId_after _ _ _ _ Hq' Malb)).
      rewrite (checkAlbSecurityGroupHttp_quiet alb w' []); [done|done|].
      subst w'. simpl. apply lookup_insert_eq.
  - set (w' := emit (Api "RevokeSecurityGroupIngress" ec2)
                    (set_aws (setGroup ec2 []) w)).
    assert (Hq' : quietAfter w w') by done.
    exists w'. split.
    + unfold bind. rewrite (ddbGetMapping_found _ _ _ _ Htable), Hie. simpl.
      rewrite Hide, Hte. simpl. unfold Hard.removeALBInboundRule, getResourceInfo, bind, tryCatch.
      rewrite (ddbGetMapping_found _ _ _ _ Htable), Hia. simpl. rewrite Hida, Hta. simpl.
      by rewrite (revokeSecurityGroupIngress_quiet _ _ _ _ Hq He), revoke_alb_baseline.
    + unfold bind. rewrite (getMappedResourceId_mapped _ _ _ _ _ (mappedId_after _ _ _ _ Hq' Mec2)).
      cbn [ret].
      rewrite (getMappedResourceId_mapped _ _ _ _ _ (mappedId_after _ _ _ _ Hq' Malb)).
      rewrite (checkEc2SecurityGroupsAlb_quiet ec2 alb w' []); [done|done|].
      subst w'. simpl. apply lookup_insert_eq.
Qed.

Lemma quiet_hard_injection_witness :
  let w := Sample.world "Ready" in
  (∃ w', actuateResilience (mappingTable w) "ALB SG" w = (Return tt, w')
         ∧ probe resilience_albsg w' = (Return true, w'))
  ∧ (∃ w', actuateResilience (mappingTable w) "EC2 SG" w = (Return tt, w')
           ∧ probe resilience_ec2sg w' = (Return true, w')).
Proof.
  intros w. apply (quiet_hard_injection_is_observed w "sg-alb" "sg-ec2").
  - reflexivity.
  - exists Sample.mapping, (mkResource "sg-alb" EmptyString EmptyString).
    repeat split; vm_compute; reflexivity.
  - exists Sample.mapping, (mkResource "sg-ec2" EmptyString EmptyString).
    repeat split; vm_compute; reflexivity.
  - vm_compute. reflexivity.
  - vm_compute. reflexivity.
Defined.
End InjectionObserved.

(** ** The S3 step of the reset and the S3 observer *)

Section BucketReset.
Import Observer.

Lemma getPublicAccessBlock_quiet bucket w :
  faults w = [] →
  getPublicAccessBlock bucket w
  = match buckets (aws w) !! bucket with
    | Some (Some config) => (Return config, w)
    | Some None => (Throw (mkError "NoSuchPublicAccessBlockConfiguration"
                             "The public access block configuration was not found"), w)
    | None => (Throw (mkError "NoSuchBucket" "The specified bucket does not exist"), w)
    end.
Proof.
  intros Hq. unfold getPublicAccessBlock, bind. by rewrite (apiCall_quiet _ Hq).
Qed.

(** X7: when no service call fails and the bucket has a public access
    block configuration, whatever its four flags, the reset sets all four,
    and the S3 observer then finds the bucket not faulted. *)
Theorem quiet_bucket_reset_reads_healthy bucket config w :
  faults w = [] →
  buckets (aws w) !! bucket = Some (Some config) →
  ∃ w', Reset.enablePublicAccessBlock bucket w = (Return tt, w')
        ∧ buckets (aws w') = <[bucket := Some (mkPab true true true true)]> (buckets (aws w))
        ∧ checkS3PublicAccessBlock bucket w' = (Return false, w').
Proof.
  intros Hq Hbucket.
  eexists. split; [|split].
  - unfold Reset.enablePublicAccessBlock, rethrow, tryCatch, bind.
    rewrite (getPublicAccessBlock_quiet _ _ Hq), Hbucket.
    unfold putPublicAccessBlock, bind. rewrite (apiCall_quiet _ Hq), Hbucket.
    reflexivity.
  - reflexivity.
  - unfold checkS3PublicAccessBlock, rethrow, tryCatch, bind.
    rewrite getPublicAccessBlock_quiet by done. simpl.
    by rewrite lookup_insert_eq.
Qed.

Lemma quiet_bucket_reset_witness :
  let w := set_aws Sample.unblockBucket (Sample.world "Ongoing") in
  ∃ w', Reset.enablePublicAccessBlock "trail-logs" w = (Return tt, w')
        ∧ buckets (aws w')
          = <["trail-logs" := Some (mkPab true true true true)]> (buckets (aws w))
        ∧ checkS3PublicAccessBlock "trail-logs" w' = (Return false, w').
Proof.
  intros w.
  apply (quiet_bucket_reset_reads_healthy "trail-logs" (mkPab false false false false) w).
  - reflexivity.
  - vm_compute. reflexivity.
Defined.

(** X8: a bucket whose public access block configuration is absent is
    faulted for the S3 observer, and the reset does not repair it: its
    read of the current configuration fails, the error is logged and
    thrown again, and the bucket is left as it was. *)
Theorem bucket_without_configuration_is_not_reset bucket w :
  faults w = [] →
  buckets (aws w) !! bucket = Some None →
  checkS3PublicAccessBlock bucket w = (Return true, w)
  ∧ ∃ w', Reset.enablePublicAccessBlock bucket w
          = (Throw (mkError "NoSuchPublicAccessBlockConfiguration"
                      "The public access block configuration was not found"), w')
          ∧ aws w' = aws w
          ∧ added w w' [LogError ("Error configuring public access block for bucket "
                                  +:+ bucket)].
Proof.
  intros Hq Hbucket. split.
  - unfold checkS3PublicAccessBlock, rethrow, tryCatch, bind.
    by rewrite (getPublicAccessBlock_quiet _ _ Hq), Hbucket.
  - eexists. split; [|split].
    + unfold Reset.enablePublicAccessBlock, rethrow, tryCatch, bind.
      rewrite (getPublicAccessBlock_quiet _ _ Hq), Hbucket. reflexivity.
    + reflexivity.
    + reflexivity.
Qed.

Lemma bucket_without_configuration_witness :
  let w := set_aws (setBuckets <["trail-logs" := None]>) (Sample.world "Ongoing") in
  checkS3PublicAccessBlock "trail-logs" w = (Return true, w)
  ∧ ∃ w', Reset.enablePublicAccessBlock "trail-logs" w
          = (Throw (mkError "NoSuchPublicAccessBlockConfiguration"
                      "The public access block configuration was not found"), w')
          ∧ aws w' = aws w
          ∧ added w w' [LogError ("Error configuring public access block for bucket "
                                  +:+ "trail-logs")].
Proof.
  intros w. apply (bucket_without_configuration_is_not_reset "trail-logs" w).
  - reflexivity.
  - vm_compute. reflexivity.
Defined.
End BucketReset.

(** ** The CloudTrail step of the reset and the CloudTrail observer *)

Section TrailReset.
Import Observer.

Lemma find_map_same {A} (p : A -> bool) (f : A -> A) l :
  (∀ x, p (f x) = p x) →
  List.find p (List.map f l) = f <$> List.find p l.
Proof.
  intros Hp. induction l as [|x l IH]; [done|]. simpl. rewrite Hp.
  by destruct (p x).
Qed.

Lemma find_ext_in {A} (p q : A -> bool) l :
  (∀ x, In x l → p x = q x) → List.find p l = List.find q l.
Proof.
  induction l as [|x l IH]; intros Hpq; [done|]. simpl.
  rewrite (Hpq x) by (by left). rewrite IH; [done|]. intros y Hy. apply Hpq. by right.
Qed.

Lemma find_filter_nonempty {A} (p : A -> bool) l t :
  List.find p l = Some t → List.filter p l ≠ [].
Proof.
  induction l as [|x l IH]; [done|]. simpl. destruct (p x); [done|]. apply IH.
Qed.

Lemma updateTrails_quiet name f operation w t :
  faults w = [] →
  List.find (isTrail name) (trails (aws w)) = Some t →
  updateTrails name f operation w
  = (Return tt,
     emit (Api operation name)
          (set_aws (setTrails (List.map (fun t => if isTrail name t then f t else t))) w)).
Proof.
  intros Hq Hfind. unfold updateTrails, bind. by rewrite (apiCall_quiet _ Hq), Hfind.
Qed.

Lemma getTrailStatus_quiet name w t :
  faults w = [] →
  List.find (isTrail name) (trails (aws w)) = Some t →
  getTrailStatus name w = (Return (IsLogging t), w).
Proof.
  intros Hq Hfind. unfold getTrailStatus, bind. by rewrite (apiCall_quiet _ Hq), Hfind.
Qed.

Lemma describeTrails_quiet names w :
  faults w = [] →
  describeTrails names w
  = (Return match names with
            | [] => trails (aws w)
            | _ => List.filter (fun t => existsb (fun n => isTrail n t) names) (trails (aws w))
            end, w).
Proof. intros Hq. unfold describeTrails, bind. by rewrite (apiCall_quiet _ Hq). Qed.

(** Updating the trails that [name] addresses keeps which trail is first. *)
Lemma find_updated name (f : Trail -> Trail) l :
  (∀ t, TrailName (f t) = TrailName t ∧ TrailARN (f t) = TrailARN t) →
  List.find (isTrail name) (List.map (fun t => if isTrail name t then f t else t) l)
  = (fun t => if isTrail name t then f t else t) <$> List.find (isTrail name) l.
Proof.
  intros Hf. apply find_map_same. intros t. destruct (isTrail name t) eqn:Ht; [|done].
  unfold isTrail in *. destruct (Hf t) as [-> ->]. done.
Qed.

Lemma isTrail_updated arn name (f : Trail -> Trail) l :
  (∀ t, TrailName (f t) = TrailName t ∧ TrailARN (f t) = TrailARN t) →
  (∀ t, In t l → isTrail arn t = isTrail name t) →
  ∀ t, In t (List.map (fun t => if isTrail name t then f t else t) l) →
       isTrail arn t = isTrail name t.
Proof.
  intros Hf Hsame t (t0 & <- & Hin)%in_map_iff. specialize (Hsame _ Hin).
  assert (Hkeep : ∀ n, isTrail n (f t0) = isTrail n t0).
  { intros n. unfold isTrail. by destruct (Hf t0) as [-> ->]. }
  destruct (isTrail name t0) eqn:Ht0; [|by rewrite Ht0].
  by rewrite !Hkeep, Ht0.
Qed.

Lemma checkCloudTrailStatus_quiet arn name w t :
  faults w = [] →
  List.find (isTrail name) (trails (aws w)) = Some t →
  (∀ t', In t' (trails (aws w)) → isTrail arn t' = isTrail name t') →
  checkCloudTrailStatus arn w = (Return (negb (IsLogging t)), w).
Proof.
  intros Hq Hfind Hsame.
  unfold checkCloudTrailStatus, rethrow, tryCatch, bind.
  rewrite (describeTrails_quiet _ _ Hq).
  destruct (trails (aws w)) as [|t1 l] eqn:Hl; [done|]. rewrite <- Hl in *.
  rewrite (getTrailStatus_quiet arn w t Hq); [done|].
  rewrite <- Hfind. by apply find_ext_in.
Qed.

(** X9: when no service call fails and [name] addresses a trail (not the
    one the code passes over), the reset returns, and the trail it
    addresses is then logging, multi-region and with global service
    events, whether or not it was logging before; the CloudTrail observer,
    asked by an ARN that addresses the same trail, finds it not faulted. *)
Theorem quiet_trail_reset_reads_healthy name arn w t :
  faults w = [] →
  name ≠ "IsengardTrail-DO-NOT-DELETE" →
  List.find (isTrail name) (trails (aws w)) = Some t →
  (∀ t', In t' (trails (aws w)) → isTrail arn t' = isTrail name t') →
  ∃ w', Reset.enableTrailLogging name w = (Return tt, w')
        ∧ List.find (isTrail name) (trails (aws w'))
          = Some (mkTrail (TrailName t) (TrailARN t) true true true)
        ∧ checkCloudTrailStatus arn w' = (Return false, w').
Proof.
  intros Hq Hname Hfind Hsame.
  set (start := fun t => mkTrail (TrailName t) (TrailARN t) true
                           (IsMultiRegionTrail t) (IncludeGlobalServiceEvents t)).
  set (update := fun t => mkTrail (TrailName t) (TrailARN t) (IsLogging t) true true).
  assert (Hstart : ∀ t, TrailName (start t) = TrailName t ∧ TrailARN (start t) = TrailARN t)
    by done.
  assert (Hupdate : ∀ t, TrailName (update t) = TrailName t ∧ TrailARN (update t) = TrailARN t)
    by done.
  assert (Hmatch : isTrail name t = true) by (by apply find_some in Hfind as [_ ?]).
  assert (Hdescribed : List.filter (fun t => existsb (fun n => isTrail n t) [name])
                         (trails (aws w)) ≠ []).
  { erewrite filter_ext; [by eapply find_filter_nonempty|].
    intros t'. simpl. by rewrite orb_false_r. }
  apply String.eqb_neq in Hname.
  (* the trail was stopped, or it was logging already *)
  assert (Hstarted : ∃ w1 t1,
             (if negb (IsLogging t)
              then startLogging name >>
                   consoleLog ("CloudTrail logging enabled for: " +:+ name)
              else consoleLog ("CloudTrail logging already enabled for: " +:+ name)) w
             = (Return tt, w1)
             ∧ faults w1 = []
             ∧ List.find (isTrail name) (trails (aws w1)) = Some t1
             ∧ TrailName t1 = TrailName t ∧ TrailARN t1 = TrailARN t ∧ IsLogging t1 = true
             ∧ ∀ t', In t' (trails (aws w1)) → isTrail arn t' = isTrail name t').
  { destruct (IsLogging t) eqn:Hlogging.
    - exists (emit (Log ("CloudTrail logging already enabled for: " +:+ name)) w), t.
      by repeat split.
    - cbn [negb]. unfold bind, startLogging. fold start.
      rewrite (updateTrails_quiet _ _ _ _ _ Hq Hfind).
      eexists _, (start t). split; [reflexivity|]. split; [done|]. split.
      { cbn [aws emit set_aws trails setTrails].
        rewrite (find_updated name start _ Hstart), Hfind. simpl. by rewrite Hmatch. }
      split; [done|]. split; [done|]. split; [done|].
      cbn [aws emit set_aws trails setTrails]. by apply isTrail_updated. }
  destruct Hstarted as (w1 & t1 & Hrun1 & Hq1 & Hfind1 & Hn1 & Ha1 & Hl1 & Hsame1).
  assert (Hmatch1 : isTrail name t1 = true) by (by apply find_some in Hfind1 as [_ ?]).
  set (w2 := emit (Api "UpdateTrail" name)
               (set_aws (setTrails (List.map (fun t => if isTrail name t then update t else t)))
                  w1)).
  exists (emit (Log ("CloudTrail configuration updated for: " +:+ name)) w2).
  assert (Hfind2 : List.find (isTrail name) (trails (aws w2))
                   = Some (mkTrail (TrailName t) (TrailARN t) true true true)).
  { subst w2. cbn [aws emit set_aws trails setTrails].
    rewrite (find_updated name update _ Hupdate), Hfind1. simpl. rewrite Hmatch1.
    unfold update. by rewrite Hn1, Ha1, Hl1. }
  split; [|split].
  - unfold Reset.enableTrailLogging, rethrow, tryCatch. rewrite Hname.
    unfold bind at 1. rewrite (describeTrails_quiet _ _ Hq).
    destruct (List.filter _ (trails (aws w))) as [|d ds] eqn:Hd; [done|].
    unfold bind at 1. rewrite (getTrailStatus_quiet _ _ _ Hq Hfind).
    unfold bind at 1. rewrite Hrun1.
    unfold bind at 1, updateTrail. fold update.
    by rewrite (updateTrails_quiet _ _ _ _ _ Hq1 Hfind1).
  - done.
  - rewrite (checkCloudTrailStatus_quiet arn name
               (emit (Log ("CloudTrail configuration updated for: " +:+ name)) w2)
               _ Hq1 Hfind2); [done|].
    subst w2. cbn [aws emit set_aws trails setTrails]. by apply isTrail_updated.
Qed.

Lemma quiet_trail_reset_witness :
  let stopped := mkTrail "trail" "arn:aws:cloudtrail:trail/trail" false false true in
  let w := set_aws (setTrails (fun _ => [stopped])) (Sample.world "Ongoing") in
  ∃ w', Reset.enableTrailLogging "trail" w = (Return tt, w')
        ∧ List.find (isTrail "trail") (trails (aws w'))
          = Some (mkTrail (TrailName stopped) (TrailARN stopped) true true true)
        ∧ checkCloudTrailStatus "arn:aws:cloudtrail:trail/trail" w' = (Return false, w').
Proof.
  intros stopped w.
  apply (quiet_trail_reset_reads_healthy "trail" "arn:aws:cloudtrail:trail/trail" w stopped).
  - reflexivity.
  - discriminate.
  - vm_compute. reflexivity.
  - intros t' [<-|[]]. vm_compute. reflexivity.
Defined.
End TrailReset.

(** ** Waiting for an instance, and the forced restart *)

Section Restart.
Import Reset.

Lemma describeInstances_one id w i :
  faults w = [] →
  instances (aws w) !! id = Some i →
  describeInstances [id] w = (Return [(id, settle i)], w).
Proof.
  intros Hq Hi. unfold describeInstances, bind. rewrite (apiCall_quiet _ Hq).
  simpl. by rewrite Hi.
Qed.

(** The world after [seconds] seconds of sleep. *)
Lemma sleep_instance seconds id w i :
  instances (aws w) !! id = Some i →
  instances (aws (sleep seconds w).2) !! id
  = Some (withCountdown (countdown i - seconds) i).
Proof. intros Hi. simpl. by rewrite lookup_fmap, Hi. Qed.

(** One poll of [waitForState] on an instance that is still on its way. *)
Lemma waitForState_poll target polls id w i n :
  faults w = [] →
  instances (aws w) !! id = Some i →
  countdown i = S n →
  String.eqb (StateName i) target = false →
  String.eqb (StateName i) "terminated" = false →
  String.eqb (StateName i) "shutting-down" = false →
  waitForState target (S polls) id w
  = waitForState target polls id (sleep checkInterval w).2.
Proof.
  intros Hq Hi Hn Htarget Ht Hs.
  cbn [waitForState]. unfold bind at 1, rethrow, tryCatch, bind at 1.
  rewrite (describeInstances_one _ _ _ Hq Hi).
  unfold settle. rewrite Hn. cbn [snd]. rewrite Htarget, Ht, Hs. reflexivity.
Qed.

(** The poll that finds the instance in the state waited for. *)
Lemma waitForState_reached target polls id w i :
  faults w = [] →
  instances (aws w) !! id = Some i →
  String.eqb (StateName (settle i)) target = true →
  waitForState target (S polls) id w = (Return tt, w).
Proof.
  intros Hq Hi Htarget.
  cbn [waitForState]. unfold bind at 1, rethrow, tryCatch, bind at 1.
  rewrite (describeInstances_one _ _ _ Hq Hi). cbn [snd]. by rewrite Htarget.
Qed.

(** An instance that is stopping is waited for until a poll finds it
    stopped, or until the polls are used up. *)
Lemma waitForState_stopping polls id w i :
  faults w = [] →
  instances (aws w) !! id = Some i →
  StateName i = "stopping" →
  ((1 ≤ polls)%nat → (countdown i ≤ checkInterval * pred polls)%nat →
   ∃ w' i',
     waitForState "stopped" polls id w = (Return tt, w')
     ∧ quietAfter w w' ∧ trace w' = trace w
     ∧ instances (aws w') !! id = Some i'
     ∧ StateName (settle i') = "stopped" ∧ lag i' = lag i)
  ∧ ((polls = 0 ∨ checkInterval * pred polls < countdown i)%nat →
     ∃ w' i',
       waitForState "stopped" polls id w
       = (Throw (Error ("Timeout waiting for EC2 instance " +:+ id)), w')
       ∧ trace w' = trace w
       ∧ instances (aws w') !! id = Some i'
       ∧ StateName i' = "stopping"
       ∧ countdown i' = (countdown i - checkInterval * polls)%nat).
Proof.
  revert w i. induction polls as [|p IH]; intros w i Hq Hi Hstate.
  { split; [lia|]. intros _. exists w, i. repeat split; try done.
    unfold checkInterval. lia. }
  destruct (countdown i) as [|n] eqn:Hn.
  - split; [|unfold checkInterval; simpl; lia]. intros _ _. exists w, i.
    split; [|by repeat split; try done; unfold settle; rewrite Hn, Hstate].
    apply (waitForState_reached _ _ _ _ i Hq Hi). unfold settle. by rewrite Hn, Hstate.
  - assert (Hpoll := waitForState_poll "stopped" p id w i n Hq Hi Hn).
    rewrite Hstate in Hpoll. specialize (Hpoll eq_refl eq_refl eq_refl). rewrite Hpoll.
    clear Hpoll.
    pose proof (sleep_instance checkInterval id w i Hi) as Hi1.
    set (w1 := (sleep checkInterval w).2) in *.
    set (i1 := withCountdown (countdown i - checkInterval) i) in *.
    assert (Hq1 : quietAfter w w1) by done.
    destruct (IH w1 i1 (proj1 Hq1) Hi1 Hstate) as [IHreturn IHthrow].
    assert (Hc1 : countdown i1 = (S n - checkInterval)%nat) by (subst i1; simpl; by rewrite Hn).
    split.
    + intros _ Hsoon. simpl in Hsoon.
      destruct IHreturn as (w' & i' & Hrun & Hq' & Htrace & Hi' & Hstopped & Hlag).
      { unfold checkInterval in *. lia. }
      { unfold checkInterval in *. lia. }
      exists w', i'. split; [done|]. split; [exact (quietAfter_trans _ _ _ Hq1 Hq')|].
      split; [by rewrite Htrace|]. by repeat split.
    + intros [Hzero|Hlate]; [done|]. simpl in Hlate.
      destruct IHthrow as (w' & i' & Hrun & Htrace & Hi' & Hstopping & Hcount).
      { unfold checkInterval in *. lia. }
      exists w', i'. split; [done|]. split; [by rewrite Htrace|].
      split; [done|]. split; [done|].
      rewrite Hcount, Hc1. unfold checkInterval. lia.
Qed.

(** X10: [waitForInstanceStopped] polls thirty times, ten seconds apart,
    the first time at once.  When no call fails, an instance that is
    stopping and needs at most 290 more seconds is found stopped and the
    wait returns; one that needs more has used up the polls: the wait
    ends in the timeout error after 300 seconds of sleep, although with
    300 seconds or fewer the instance has stopped by then. *)
Theorem wait_for_stop_covers_290_seconds id w i :
  faults w = [] →
  instances (aws w) !! id = Some i →
  StateName i = "stopping" →
  ((countdown i ≤ 290)%nat →
   ∃ w' i',
     waitForInstanceStopped id w = (Return tt, w')
     ∧ instances (aws w') !! id = Some i'
     ∧ StateName (settle i') = "stopped")
  ∧ ((290 < countdown i)%nat →
     ∃ w' i',
       waitForInstanceStopped id w
       = (Throw (Error ("Timeout waiting for EC2 instance " +:+ id)), w')
       ∧ instances (aws w') !! id = Some i'
       ∧ countdown i' = (countdown i - 300)%nat
       ∧ ((countdown i ≤ 300)%nat → StateName (settle i') = "stopped")).
Proof.
  intros Hq Hi Hstate.
  destruct (waitForState_stopping 30 id w i Hq Hi Hstate) as [Hreturn Hthrow].
  split.
  - intros Hsoon.
    destruct Hreturn as (w' & i' & Hrun & _ & _ & Hi' & Hstopped & _);
      [lia|unfold checkInterval; simpl; lia|].
    by exists w', i'.
  - intros Hlate.
    destruct Hthrow as (w' & i' & Hrun & _ & Hi' & Hstopping & Hcount);
      [right; unfold checkInterval; simpl; lia|].
    exists w', i'. split; [done|]. split; [done|].
    split; [rewrite Hcount; unfold checkInterval; lia|].
    intros Hjust. unfold settle.
    replace (countdown i') with 0%nat by (rewrite Hcount; unfold checkInterval; lia).
    by rewrite Hstopping.
Qed.

Lemma wait_for_stop_witness :
  let stopping := mkInstance "stopping" "iip-assoc-1" EmptyString 295 295 in
  let w := set_aws (setInstances <["i-1" := stopping]>) (Sample.world "Ongoing") in
  ∃ w' i',
    waitForInstanceStopped "i-1" w
    = (Throw (Error ("Timeout waiting for EC2 instance " +:+ "i-1")), w')
    ∧ instances (aws w') !! "i-1" = Some i'
    ∧ countdown i' = (countdown stopping - 300)%nat
    ∧ ((countdown stopping ≤ 300)%nat → StateName (settle i') = "stopped").
Proof.
  intros stopping w.
  apply (wait_for_stop_covers_290_seconds "i-1" w stopping).
  - reflexivity.
  - vm_compute. reflexivity.
  - reflexivity.
  - simpl. lia.
Defined.

Lemma stopInstances_running id w i :
  faults w = [] →
  instances (aws w) !! id = Some i →
  StateName (settle i) = "running" →
  stopInstances id w
  = (Return tt,
     emit (Api "StopInstances" id)
          (set_aws (setInstances
             <[id := withCountdown (lag (settle i)) (withState "stopping" (settle i))]>) w)).
Proof.
  intros Hq Hi Hrunning. unfold stopInstances, bind.
  rewrite (apiCall_quiet _ Hq), Hi. cbv zeta. by rewrite Hrunning.
Qed.

Lemma startInstances_stopped id w i :
  faults w = [] →
  instances (aws w) !! id = Some i →
  StateName (settle i) = "stopped" →
  startInstances id w
  = (Return tt,
     emit (Api "StartInstances" id)
          (set_aws (setInstances
             <[id := withCountdown (lag (settle i)) (withState "pending" (settle i))]>) w)).
Proof.
  intros Hq Hi Hstopped. unfold startInstances, bind.
  rewrite (apiCall_quiet _ Hq), Hi. cbv zeta. by rewrite Hstopped.
Qed.

Lemma lag_settle i : lag (settle i) = lag i.
Proof. unfold settle. by repeat case_match. Qed.

(** X11: the forced restart of a running instance, when no call fails.
    If the instance takes at most 290 seconds to stop, the restart stops
    it, waits, and starts it: the two calls are made in this order and the
    instance is left pending.  If it takes longer, the wait times out, the
    error is logged and thrown again, and StartInstances is never called:
    the instance is left stopping. *)
Theorem forced_restart_starts_only_after_the_stop id w i :
  faults w = [] →
  instances (aws w) !! id = Some i →
  StateName (settle i) = "running" →
  ((lag i ≤ 290)%nat →
   ∃ w' i',
     forceRestartInstance id w = (Return tt, w')
     ∧ added w w' [Api "StopInstances" id; Api "StartInstances" id]
     ∧ instances (aws w') !! id = Some i'
     ∧ StateName i' = "pending" ∧ countdown i' = lag i)
  ∧ ((290 < lag i)%nat →
     ∃ w' i',
       forceRestartInstance id w
       = (Throw (Error ("Timeout waiting for EC2 instance " +:+ id)), w')
       ∧ added w w' [Api "StopInstances" id;
                     LogError ("Error force restarting EC2 instance " +:+ id)]
       ∧ instances (aws w') !! id = Some i'
       ∧ StateName i' = "stopping").
Proof.
  intros Hq Hi Hrunning.
  set (i1 := withCountdown (lag (settle i)) (withState "stopping" (settle i))).
  set (w1 := emit (Api "StopInstances" id) (set_aws (setInstances <[id := i1]>) w)).
  assert (Hi1 : instances (aws w1) !! id = Some i1) by apply lookup_insert_eq.
  assert (Hq1 : faults w1 = []) by done.
  assert (Hc1 : countdown i1 = lag i) by (subst i1; simpl; apply lag_settle).
  destruct (waitForState_stopping 30 id w1 i1 Hq1 Hi1 eq_refl) as [Hreturn Hthrow].
  unfold forceRestartInstance, rethrow, tryCatch, bind, waitForInstanceStopped.
  change (maxWaitTime / checkInterval)%nat with 30%nat.
  rewrite (stopInstances_running _ _ _ Hq Hi Hrunning). fold i1 w1. cbn beta iota.
  split.
  - intros Hsoon.
    destruct Hreturn as (w2 & i2 & -> & (Hq2 & _) & Htrace & Hi2 & Hstopped & Hlag);
      [lia|rewrite Hc1; unfold checkInterval; simpl; lia|].
    cbn beta iota. rewrite (startInstances_stopped _ _ _ Hq2 Hi2 Hstopped).
    eexists _, _. split; [reflexivity|]. split; [|split; [apply lookup_insert_eq|]].
    + unfold added. cbn [trace emit set_aws]. rewrite Htrace. subst w1.
      cbn [trace emit set_aws]. by rewrite <- app_assoc.
    + simpl. split; [done|]. rewrite lag_settle, Hlag. subst i1. simpl. apply lag_settle.
  - intros Hlate.
    destruct Hthrow as (w2 & i2 & -> & Htrace & Hi2 & Hstopping & _);
      [right; rewrite Hc1; unfold checkInterval; simpl; lia|].
    eexists _, i2. split; [reflexivity|]. split; [|by split].
    unfold added. cbn [trace emit set_aws]. rewrite Htrace. subst w1.
    cbn [trace emit set_aws]. by rewrite <- app_assoc.
Qed.

Lemma forced_restart_witness :
  let slow := mkInstance "running" "assoc-1" EmptyString 295 0 in
  let w := set_aws (setInstances <["i-1" := slow]>) (Sample.world "Ongoing") in
  ∃ w' i',
    forceRestartInstance "i-1" w
    = (Throw (Error ("Timeout waiting for EC2 instance " +:+ "i-1")), w')
    ∧ added w w' [Api "StopInstances" "i-1";
                  LogError ("Error force restarting EC2 instance " +:+ "i-1")]
    ∧ instances (aws w') !! "i-1" = Some i'
    ∧ StateName i' = "stopping".
Proof.
  intros slow w.
  apply (forced_restart_starts_only_after_the_stop "i-1" w slow).
  - reflexivity.
  - vm_compute. reflexivity.
  - reflexivity.
  - simpl. lia.
Defined.
End Restart.

(** ** The one table write of the reset handler *)

#[global] Instance Observable_env : Observable env.
Proof. split; reflexivity. Qed.
#[global] Instance AwsBlind_env : AwsBlind env.
Proof. done. Qed.
#[global] Instance SfnBlind_env : SfnBlind env.
Proof. done. Qed.
#[global] Instance PhaseBlind_env : PhaseBlind env.
Proof. done. Qed.

Section ResetWrite.
Import Reset.

Lemma runSteps_app a b w :
  runSteps (a ++ b) w
  = match runSteps a w with
    | (Return _, w1) => runSteps b w1
    | (Throw e, w1) => (Throw e, w1)
    end.
Proof.
  revert w. induction a as [|[banner step] a IH]; intros w; [done|].
  cbn [app runSteps]. unfold bind, consoleLog, modify.
  destruct (step (emit (Log banner) w)) as [[[]|e] w1]; [apply IH|done].
Qed.

Lemma Reset_getResourceInfo_run table resourceType w :
  ∃ w', getResourceInfo table resourceType w = (Return (mappedItem table resourceType w), w')
        ∧ db w' = db w ∧ env w' = env w.
Proof.
  unfold getResourceInfo, tryCatch, ddbGetMapping, mappedItem.
  destruct (mappingTables (db w) !! table); eexists; split; try reflexivity; done.
Qed.

(** The restart step, when it returns, has written "Resetting" if it
    found an instance, and nothing otherwise. *)
Lemma forceRestart_db table w w' :
  forceRestartEC2InstancesWithStateChange table w = (Return tt, w') →
  db w' = match restartTargets table w with
          | [] => db w
          | _ => putGameState "default" "Resetting" (db w)
          end.
Proof.
  intros Hrun. unfold forceRestartEC2InstancesWithStateChange in Hrun.
  apply rethrow_Return_inv in Hrun.
  destruct (Reset_getResourceInfo_run table "EC2_INSTANCE_1" w) as (w1 & Hr1 & Hdb1 & Henv1).
  apply bind_Return_inv in Hrun as (r1 & w1' & Hr1' & Hrun).
  rewrite Hr1 in Hr1'. injection Hr1' as <- <-.
  destruct (Reset_getResourceInfo_run table "EC2_INSTANCE_2" w1) as (w2 & Hr2 & Hdb2 & Henv2).
  apply bind_Return_inv in Hrun as (r2 & w2' & Hr2' & Hrun).
  rewrite Hr2 in Hr2'. injection Hr2' as <- <-.
  apply bind_Return_inv in Hrun as (fallback & w3 & Hgets & Hrun).
  unfold gets in Hgets. injection Hgets as <- <-. cbv zeta in Hrun.
  assert (Hsame : mappedItem table "EC2_INSTANCE_2" w1 = mappedItem table "EC2_INSTANCE_2" w)
    by (unfold mappedItem; by rewrite Hdb1).
  rewrite Hsame in Hrun.
  unfold restartTargets. rewrite <- Henv1, <- Henv2. cbv zeta.
  match type of Hrun with
  | (match ?l with _ => _ end) _ = _ => destruct l as [|id ids]
  end.
  - unfold consoleLog, modify in Hrun. injection Hrun as <-. simpl. congruence.
  - apply bind_Return_inv in Hrun as ([] & w4 & Hall & Hrun).
    pose proof (keeps_restarts db (id :: ids) w2) as Hkeep. rewrite Hall in Hkeep.
    unfold bind, consoleLog, updateGameState, ddbUpdateGameState, modify in Hrun.
    injection Hrun as <-. simpl in *. congruence.
Qed.

Lemma restartTargets_same table w w' :
  db w' = db w → env w' = env w → restartTargets table w' = restartTargets table w.
Proof. intros Hdb Henv. unfold restartTargets, mappedItem. by rewrite Hdb, Henv. Qed.

(** What the four steps before the restart leave alone. *)
Lemma restoreSteps_keep_env table :
  Forall (λ bs, keeps env bs.2) (take 4 (restoreSteps table)).
Proof. unfold restoreSteps. repeat constructor; cbn [fst snd]; eauto with keeps. Qed.

(** X12: the one table write of the reset handler.  A reset that answers
    202 has written "Resetting" for the game "default", and no other table
    entry, when the restart step found an instance (in the mapping table
    or in the environment); when it found none it has written nothing.  A
    reset that answers anything else has written no table. *)
Theorem reset_writes_resetting_or_nothing w :
  let (r, w') := handler w in
  (r = Return resetInitiated →
   db w' = match restartTargets (mappingTable w) w with
           | [] => db w
           | _ => putGameState "default" "Resetting" (db w)
           end)
  ∧ (r ≠ Return resetInitiated → db w' = db w).
Proof.
  rewrite handler_run.
  assert (Hdb0 : db (afterStop w) = db w)
    by (unfold afterStop; by rewrite (keeps_stopRunningStepFunctions db)).
  assert (Henv0 : env (afterStop w) = env w)
    by (unfold afterStop; by rewrite (keeps_stopRunningStepFunctions env)).
  case_bool_decide as Hphase; [by split|].
  set (table := mappingTable w). set (w0 := afterStop w) in *.
  rewrite restore_runSteps.
  change (restoreSteps table) with (take 4 (restoreSteps table) ++ drop 4 (restoreSteps table)).
  rewrite runSteps_app.
  pose proof (keeps_runSteps db _ (restoreSteps_keep_db table) w0) as Hdb4.
  pose proof (keeps_runSteps env _ (restoreSteps_keep_env table) w0) as Henv4.
  destruct (runSteps (take 4 (restoreSteps table)) w0) as [[[]|e] w4]; cbn [snd] in *.
  2: { split; [done|]. intros _. simpl. congruence. }
  cbn [drop restoreSteps runSteps]. unfold bind at 1 2, consoleLog at 1, modify at 1.
  set (w4' := emit _ w4).
  pose proof (forceRestart_keepsOnThrow_db table w4') as Hthrow.
  pose proof (forceRestart_db table w4') as Hreturn.
  destruct (forceRestartEC2InstancesWithStateChange table w4') as [[[]|e] w5].
  2: { split; [done|]. intros _. simpl. rewrite (Hthrow _ _ eq_refl). subst w4'. simpl.
       congruence. }
  specialize (Hreturn _ eq_refl).
  rewrite (restartTargets_same table w w4') in Hreturn by (subst w4'; simpl; congruence).
  unfold bind at 1 2, consoleLog at 1, modify at 1.
  set (w5' := emit _ w5).
  pose proof (keeps_startObservationStateMachine db w5') as Hdb6.
  destruct (total_startObservationStateMachine w5') as ([] & w6 & Hrun6).
  rewrite Hrun6 in *. cbn [snd ret] in *. split; [|done]. intros _.
  rewrite Hdb6. subst w5'. cbn [db emit]. rewrite Hreturn. subst w4'. cbn [db emit].
  by rewrite Hdb4, Hdb0.
Qed.
End ResetWrite.

(** ** A whole run of the observation state machine *)

Section ObservationRun.
Import Observer Observation.

(** X13: a run of the observation state machine, whatever happens to the
    resources between its iterations.  If it converges, every polled
    component reads Green, "Ready" is written for the game of the run, as
    the last thing the run does, and no other game is written.  If it has
    failed, or is still polling, it has written no game state at all. *)
Theorem run_writes_ready_only_on_convergence gameId outside w :
  let (verdict, w') := stateMachineRun gameId outside w in
  (verdict = Converged →
   polledHealthy functionNameArray w'
   ∧ gameStateTable (db w') = <[gameId := "Ready"]> (gameStateTable (db w))
   ∧ last (trace w') = Some (PhaseWrite gameId "Ready"))
  ∧ (verdict ≠ Converged → gameStateTable (db w') = gameStateTable (db w)).
Proof.
  unfold stateMachineRun. revert w.
  induction outside as [|move later IH]; intros w.
  all: cbn [run]; unfold iteration.
  all: pose proof (parallel_gameState functionNameArray w functionNameArray_readOnly) as Hgame.
  all: destruct (observationParallel functionNameArray w) as [[outputs|e] w1] eqn:Hrun;
    cbn [snd] in Hgame; [|by split].
  all: pose proof (parallel_returns _ _ _ _ functionNameArray_readOnly
                     functionNameArray_distinct Hrun) as Hverdicts.
  all: apply verdicts_healthy in Hverdicts.
  all: destruct (isGameEndCondition outputs) eqn:Hend.
  1, 3: split; [intros _|done]; split; [|split].
  1, 4: intros b Hb; apply isGameEndCondition_all, Hverdicts in Hend;
    specialize (Hend b Hb); unfold entry, ledger in *; simpl; by destruct (table b).
  1, 3: simpl; by rewrite Hgame.
  1, 2: simpl; apply last_snoc.
  - by split.
  - specialize (IH (set_aws move w1)).
    destruct (run functionNameArray gameId later (set_aws move w1)) as [verdict w'].
    simpl in IH. by rewrite Hgame in IH.
Qed.
End ObservationRun.

(** ** The observer of the application process *)

Section ProcessObserver.
Import Observer.

Lemma apiCall_Return_same w u w' :
  apiCall w = (Return u, w') → aws w' = aws w ∧ db w' = db w ∧ env w' = env w.
Proof. unfold apiCall. destruct (faults w) as [|[n|] fs]; intros; by simplify_eq. Qed.

Lemma describeSecurityGroups_Return_inv ids w l w' :
  ids ≠ [] →
  describeSecurityGroups ids w = (Return l, w') →
  aws w' = aws w ∧ db w' = db w ∧ env w' = env w
  ∧ lookupGroups (securityGroups (aws w)) ids = Some l.
Proof.
  intros Hids Hrun. unfold describeSecurityGroups in Hrun.
  apply bind_Return_inv in Hrun as ([] & w1 & Hcall & Hrun).
  apply apiCall_Return_same in Hcall as (Haws & Hdb & Henv).
  destruct ids as [|id ids]; [done|]. rewrite <- Haws.
  destruct (lookupGroups (securityGroups (aws w1)) (id :: ids)); by simplify_eq.
Qed.

Lemma describeInstances_Return_inv ids w l w' :
  ids ≠ [] →
  describeInstances ids w = (Return l, w') →
  aws w' = aws w ∧ db w' = db w ∧ env w' = env w
  ∧ lookupInstances (instances (aws w)) ids = Some l.
Proof.
  intros Hids Hrun. unfold describeInstances in Hrun.
  apply bind_Return_inv in Hrun as ([] & w1 & Hcall & Hrun).
  apply apiCall_Return_same in Hcall as (Haws & Hdb & Henv).
  destruct ids as [|id ids]; [done|]. rewrite <- Haws.
  destruct (lookupInstances (instances (aws w1)) (id :: ids)); by simplify_eq.
Qed.

Lemma lookupInstances_all insts ids l :
  lookupInstances insts ids = Some l →
  existsb (fun kv => negb (String.eqb (StateName kv.2) "running")) l = false →
  ∀ id, In id ids → ∃ i, insts !! id = Some i ∧ StateName (settle i) = "running".
Proof.
  revert l. induction ids as [|id ids IH]; intros l Hl Hall x Hx; [done|].
  simpl in Hl. destruct (insts !! id) as [i|] eqn:Hi; [|done].
  destruct (lookupInstances insts ids) as [l'|]; [|done]. simplify_eq.
  simpl in Hall. apply orb_false_iff in Hall as [Hhead Hrest].
  destruct Hx as [<-|Hx]; [|by eapply IH].
  exists i. split; [done|]. apply negb_false_iff in Hhead. by apply String.eqb_eq.
Qed.

Lemma tryCatch_Return_false (m : M bool) (msg : string) w w' :
  tryCatch m (fun _ => consoleError msg >> ret true) w = (Return false, w') →
  m w = (Return false, w').
Proof.
  unfold tryCatch. destruct (m w) as [[b|e] w1]; [done|].
  unfold bind, consoleError, modify, ret. done.
Qed.

Lemma getMappedResourceId_Return_inv resourceType notFound logMsg w id w' :
  getMappedResourceId resourceType notFound logMsg w = (Return id, w') →
  w' = w ∧ mappedId w resourceType id.
Proof.
  intros Hrun. unfold getMappedResourceId in Hrun. apply rethrow_Return_inv in Hrun.
  unfold bind, resourceMappingTableName, gets, ddbGetMapping in Hrun.
  fold (mappingTable w) in Hrun.
  destruct (mappingTables (db w) !! mappingTable w) as [items|] eqn:Htable; [|done].
  destruct (items !! resourceType) as [item|] eqn:Hitem; simpl in Hrun; [|done].
  destruct (truthy (ResourceId item)) eqn:Hid; [|done].
  unfold ret in Hrun. simplify_eq. split; [done|]. by exists items, item.
Qed.

Lemma mappedId_item w resourceType id :
  mappedId w resourceType id →
  hasResourceId (mappedItem (mappingTable w) resourceType w) = true
  ∧ resourceIdOf (mappedItem (mappingTable w) resourceType w) = id.
Proof.
  intros (items & item & Htable & Hitem & <- & Hid).
  unfold mappedItem. by rewrite Htable, Hitem.
Qed.

Lemma getEc2InstanceIds_Return_inv w ids w' :
  getEc2InstanceIds w = (Return ids, w') →
  w' = w ∧ ids ≠ []
  ∧ ∀ id, mappedId w "EC2_INSTANCE_1" id ∨ mappedId w "EC2_INSTANCE_2" id → In id ids.
Proof.
  intros Hrun. unfold getEc2InstanceIds in Hrun. apply rethrow_Return_inv in Hrun.
  unfold bind, resourceMappingTableName, gets, ddbGetMapping in Hrun.
  fold (mappingTable w) in Hrun.
  assert (Hitems : ∀ k id, mappedId w k id →
            hasResourceId (mappedItem (mappingTable w) k w) = true
            ∧ resourceIdOf (mappedItem (mappingTable w) k w) = id)
    by apply mappedId_item.
  unfold mappedItem in Hitems.
  destruct (mappingTables (db w) !! mappingTable w) as [items|] eqn:Htable; [|done].
  cbn beta iota zeta in Hrun. rewrite Htable in Hrun. cbn beta iota zeta in Hrun.
  destruct (_ ++ _)%list as [|id0 ids0] eqn:Hids in Hrun; [done|].
  unfold ret in Hrun. simplify_eq. split; [done|]. split; [done|].
  intros id [Hm|Hm]; apply Hitems in Hm as [Hhas <-]; rewrite <- Hids, Hhas;
    apply in_or_app; [left|right]; by left.
Qed.

Lemma checkLoadBalancerHealth_false w w' :
  checkLoadBalancerHealth w = (Return false, w') →
  aws w' = aws w ∧ db w' = db w ∧ env w' = env w ∧ lbStatus (aws w) ≠ Some 200.
Proof.
  unfold checkLoadBalancerHealth, tryCatch, bind, httpGetLoadBalancer,
    consoleError, modify, ret.
  destruct (lbStatus (aws w)) as [s|].
  - destruct ((200 <=? s) && (s <? 300)) eqn:Hok; intros Hrun.
    + injection Hrun as Hs <-. repeat split; try done. intros [= ->]. discriminate Hs.
    + injection Hrun as <-. repeat split; try done. intros [= ->]. discriminate Hok.
  - intros Hrun. simplify_eq. by repeat split.
Qed.

Lemma mappedId_same w w' resourceType id :
  db w' = db w → env w' = env w →
  mappedId w' resourceType id → mappedId w resourceType id.
Proof.
  intros Hdb Henv (items & item & ? & ?). exists items, item.
  unfold mappingTable in *. by rewrite <- Hdb, <- Henv.
Qed.

(** X14: the observer of "EC2 Process" reports the component faulted
    only when the load balancer does not answer 200 while everything else
    it looks at is in order: the mapped ALB group takes HTTP from
    anywhere, the mapped EC2 group lets the ALB group in on port 8080, and
    every mapped instance is running.  (When one of these looks broken, or
    cannot be looked at, the process is reported not faulted.) *)
Theorem process_reported_down_only_when_all_else_is_normal w w' :
  checkEc2ProcessWithNewLogic w = (Return true, w') →
  lbStatus (aws w) ≠ Some 200
  ∧ ∃ alb ec2,
      mappedId w "ALB_SG" alb ∧ mappedId w "EC2_SG" ec2
      ∧ (∃ perms, securityGroups (aws w) !! alb = Some perms
                  ∧ existsb (openToWorld 80) perms = true)
      ∧ (∃ perms, securityGroups (aws w) !! ec2 = Some perms
                  ∧ existsb (allowsAlb alb) perms = true)
      ∧ ∀ id, mappedId w "EC2_INSTANCE_1" id ∨ mappedId w "EC2_INSTANCE_2" id →
              ∃ i, instances (aws w) !! id = Some i ∧ StateName (settle i) = "running".
Proof.
  intros Hrun. unfold checkEc2ProcessWithNewLogic in Hrun.
  apply rethrow_Return_inv in Hrun.
  apply bind_Return_inv in Hrun as (healthy & w1 & Hlb & Hrun).
  destruct healthy; [done|].
  apply checkLoadBalancerHealth_false in Hlb as (Haws1 & Hdb1 & Henv1 & Hstatus).
  split; [done|].
  apply bind_Return_inv in Hrun as (alb & w2 & Halb & Hrun).
  apply getMappedResourceId_Return_inv in Halb as [-> Malb].
  unfold getEc2SecurityGroupIds in Hrun.
  apply bind_Return_inv in Hrun as (ec2s & w2 & Hec2 & Hrun).
  apply bind_Return_inv in Hec2 as (ec2 & w3 & Hec2 & Hone).
  apply getMappedResourceId_Return_inv in Hec2 as [-> Mec2].
  unfold ret in Hone. injection Hone as <- <-.
  apply bind_Return_inv in Hrun as (ids & w2 & Hids & Hrun).
  apply getEc2InstanceIds_Return_inv in Hids as (-> & Hsome & Hmapped).
  apply bind_Return_inv in Hrun as (a1 & w2 & Hcheck1 & Hrun).
  apply bind_Return_inv in Hrun as (a2 & w3 & Hcheck2 & Hrun).
  apply bind_Return_inv in Hrun as (a3 & w4 & Hcheck3 & Hrun).
  destruct a1; [done|]. destruct a2; [done|]. destruct a3; [done|].
  exists alb, ec2.
  split; [by eapply mappedId_same|]. split; [by eapply mappedId_same|].
  (* the ALB group *)
  apply tryCatch_Return_false, bind_Return_inv in Hcheck1 as (l1 & v1 & Hd1 & Hv1).
  apply describeSecurityGroups_Return_inv in Hd1 as (Haws2 & _ & _ & Hl1); [|done].
  simpl in Hl1. destruct (securityGroups (aws w1) !! alb) as [pa|] eqn:Hpa; [|done].
  injection Hl1 as <-. unfold ret in Hv1. injection Hv1 as Hhttp <-.
  apply negb_false_iff in Hhttp.
  (* the EC2 group *)
  apply tryCatch_Return_false, bind_Return_inv in Hcheck2 as (l2 & v2 & Hd2 & Hv2).
  apply describeSecurityGroups_Return_inv in Hd2 as (Haws3 & _ & _ & Hl2); [|done].
  simpl in Hl2. rewrite Haws2 in Hl2.
  destruct (securityGroups (aws w1) !! ec2) as [pe|] eqn:Hpe; [|done].
  injection Hl2 as <-. unfold ret in Hv2. injection Hv2 as Hallows <-.
  simpl in Hallows. rewrite orb_false_r in Hallows. apply negb_false_iff in Hallows.
  (* the instances *)
  apply tryCatch_Return_false, bind_Return_inv in Hcheck3 as (l3 & v3 & Hd3 & Hv3).
  apply describeInstances_Return_inv in Hd3 as (_ & _ & _ & Hl3); [|done].
  rewrite Haws3, Haws2 in Hl3.
  assert (Hall : existsb (fun kv => negb (String.eqb (StateName kv.2) "running")) l3 = false).
  { destruct l3; [by unfold bind, consoleError, modify, ret in Hv3|].
    unfold ret in Hv3. by injection Hv3. }
  rewrite Haws1 in *.
  split; [by exists pa|]. split; [by exists pe|].
  intros id Hid. eapply lookupInstances_all; [done|done|].
  apply Hmapped. destruct Hid as [Hid|Hid]; [left|right];
    by apply (mappedId_same w1 w).
Qed.

Lemma process_reported_down_witness :
  let w := set_aws (fun a => mkAws (securityGroups a) (taggedGroups a) (instances a)
                               (instanceProfiles a) (buckets a) (trails a) (Some 503))
             (Sample.world "Ongoing") in
  lbStatus (aws w) ≠ Some 200
  ∧ ∃ alb ec2,
      mappedId w "ALB_SG" alb ∧ mappedId w "EC2_SG" ec2
      ∧ (∃ perms, securityGroups (aws w) !! alb = Some perms
                  ∧ existsb (openToWorld 80) perms = true)
      ∧ (∃ perms, securityGroups (aws w) !! ec2 = Some perms
                  ∧ existsb (allowsAlb alb) perms = true)
      ∧ ∀ id, mappedId w "EC2_INSTANCE_1" id ∨ mappedId w "EC2_INSTANCE_2" id →
              ∃ i, instances (aws w) !! id = Some i ∧ StateName (settle i) = "running".
Proof.
  intros w.
  apply (process_reported_down_only_when_all_else_is_normal w
           (checkEc2ProcessWithNewLogic w).2).
  vm_compute. reflexivity.
Defined.
End ProcessObserver.

(** * The timer worker of the dashboard *)

Section TimerWorkerFacts.

Import TimerWorker.
Local Open Scope Z_scope.

Lemma agrees_later last last' s sw :
  Stopwatch.agrees last s sw → last <= last' → Stopwatch.agrees last' s sw.
Proof.
  unfold Stopwatch.agrees. intros (Hn & Hp & Hg & H) Hle.
  split_and!; try done.
  destruct (Stopwatch.since sw); intuition lia.
Qed.

Lemma agrees_happen last now h s sw :
  Stopwatch.agrees last s sw → last <= now →
  (happen now h s).1 = (Stopwatch.happen now h sw).1
  ∧ Stopwatch.agrees now (happen now h s).2 (Stopwatch.happen now h sw).2.
Proof.
  intros Hag Hle.
  assert (Hag' := agrees_later _ _ _ _ Hag Hle).
  clear Hag. destruct Hag' as (Hn & Hp & Hg & H).
  destruct s as [[running start paused id] ivs next], sw as [g since].
  simpl in *. subst paused.
  destruct h as [type|]; simpl.
  - unfold onmessage.
    destruct (String.eqb type "START").
    { unfold startTimer; simpl.
      destruct since as [t|]; destruct H as (-> & H); simpl.
      - split; [done|]. unfold Stopwatch.agrees; simpl. intuition.
      - destruct H as (Hlt & -> & ->). split; [done|].
        unfold Stopwatch.agrees; simpl.
        replace (next + 1 - 1) with next by lia.
        split_and!; try done; lia. }
    destruct (String.eqb type "STOP").
    { unfold stopTimer; simpl.
      destruct since as [t|]; destruct H as (-> & H); simpl.
      - destruct H as (-> & Hpos & Hlast & Hfresh & -> & ->).
        assert (Hnz : (t - g =? 0) = false) by (apply Z.eqb_neq; lia).
        rewrite Hnz; simpl.
        unfold Stopwatch.reading; simpl.
        replace (now - (t - g)) with (g + (now - t)) by lia.
        split; [done|].
        unfold Stopwatch.agrees, clearedId, clearIfSet; simpl.
        assert (Hid : (next - 1 =? 0) = false) by (apply Z.eqb_neq; lia).
        rewrite Hid; simpl. rewrite Z.eqb_refl; simpl.
        split_and!; try done; lia.
      - split; [done|]. unfold Stopwatch.agrees; simpl. intuition. }
    destruct (String.eqb type "RESET").
    { unfold resetTimer, clearedId, clearIfSet; simpl. split; [done|].
      unfold Stopwatch.agrees; simpl.
      destruct since as [t|]; simpl in H.
      - destruct H as (-> & -> & Hpos & Hlast & Hfresh & -> & ->).
        assert (Hid : (next - 1 =? 0) = false) by (apply Z.eqb_neq; lia).
        simpl. rewrite Hid; simpl. rewrite Z.eqb_refl; simpl.
        split_and!; try done; lia.
      - destruct H as (-> & Hlt & -> & ->). simpl. split_and!; try done; lia. }
    destruct (String.eqb type "GET_TIME").
    { unfold getCurrentTime, currentTime, Stopwatch.reading; simpl.
      destruct since as [t|]; simpl in H.
      - destruct H as (-> & -> & Hpos & Hlast & Hfresh & -> & ->). simpl.
        assert (Hnz : (t - g =? 0) = false) by (apply Z.eqb_neq; lia).
        rewrite Hnz; simpl.
        replace (now - (t - g)) with (g + (now - t)) by lia.
        split; [done|]. unfold Stopwatch.agrees; simpl. split_and!; try done; lia.
      - destruct H as (-> & Hlt & -> & ->). simpl.
        split; [by destruct start|].
        unfold Stopwatch.agrees; simpl. split_and!; try done; lia. }
    split; [done|].
    unfold Stopwatch.agrees; simpl. done.
  - unfold onInterval; simpl.
    destruct since as [t|]; simpl in H.
    + destruct H as (-> & -> & Hpos & Hlast & Hfresh & -> & ->). simpl.
      unfold Stopwatch.reading; simpl.
      replace (now - (t - g)) with (g + (now - t)) by lia.
      split; [done|]. unfold Stopwatch.agrees; simpl. split_and!; try done; lia.
    + destruct H as (-> & Hlt & -> & ->). simpl.
      split; [done|]. unfold Stopwatch.agrees; simpl. split_and!; try done; lia.
Qed.

Lemma agrees_run history : ∀ last s sw,
  Stopwatch.agrees last s sw → Stopwatch.clockFrom last history →
  (run history s).1 = (Stopwatch.run history sw).1.
Proof.
  induction history as [|[now h] later IH]; intros last s sw Hag Hclock; [done|].
  destruct Hclock as [Hle Hclock].
  destruct (agrees_happen _ _ h _ _ Hag Hle) as [Hposted Hag'].
  specialize (IH _ _ _ Hag' Hclock).
  simpl.
  destruct (happen now h s) as [p s1], (Stopwatch.happen now h sw) as [q sw1].
  simpl in *. subst q.
  destruct (run later s1) as [p' s2], (Stopwatch.run later sw1) as [q' sw2].
  simpl in *. by subst q'.
Qed.

(** X15: Whatever messages and ticks the worker gets, with clock readings
    after the epoch that never go back, it posts what a stopwatch posts: the
    time of a stop, of a tick and of a query is the time gathered over the
    finished runs plus the time of the run under way. *)
Theorem worker_is_a_stopwatch history :
  Stopwatch.clockFrom 1 history →
  (run history loaded).1 = (Stopwatch.run history Stopwatch.zero).1.
Proof.
  apply agrees_run.
  unfold Stopwatch.agrees; simpl. split_and!; done || lia.
Qed.

Lemma worker_is_a_stopwatch_witness :
  let history := [(1000, Message "START"); (1100, Elapsed); (4000, Message "STOP");
                  (5000, Message "GET_TIME"); (9000, Message "START");
                  (9500, Message "GET_TIME")] in
  Stopwatch.clockFrom 1 history
  ∧ (run history loaded).1
    = [TIMER_STARTED; TIME_UPDATE 100; TIMER_STOPPED 3000; CURRENT_TIME 3000;
       TIMER_STARTED; CURRENT_TIME 3500].
Proof.
  intros history.
  assert (Hclock : Stopwatch.clockFrom 1 history) by (simpl; lia).
  split; [exact Hclock|].
  rewrite (worker_is_a_stopwatch history Hclock).
  vm_compute. reflexivity.
Defined.

End TimerWorkerFacts.

Section TimerWorkerIntervals.

Import TimerWorker.
Local Open Scope Z_scope.

Lemma tidy_happen now h s :
  Stopwatch.tidy s → Stopwatch.tidy (happen now h s).2.
Proof.
  destruct s as [[running start paused id] ivs next].
  unfold Stopwatch.tidy; simpl. intros [Hn H].
  destruct h as [type|]; simpl; [|done].
  unfold onmessage.
  destruct (String.eqb type "START").
  { unfold startTimer; simpl. destruct running; simpl; [done|].
    destruct H as [-> ->]. simpl.
    replace (next + 1 - 1) with next by lia.
    split_and!; done || lia. }
  destruct (String.eqb type "STOP").
  { unfold stopTimer; simpl. destruct running; simpl; [|done].
    destruct H as (Hfresh & _ & -> & ->).
    unfold clearedId, clearIfSet; simpl.
    assert (Hid : (next - 1 =? 0) = false) by (apply Z.eqb_neq; lia).
    rewrite Hid; simpl. rewrite Z.eqb_refl; simpl. done. }
  destruct (String.eqb type "RESET").
  { unfold resetTimer, clearedId, clearIfSet; simpl.
    destruct running.
    - destruct H as (Hfresh & _ & -> & ->).
      assert (Hid : (next - 1 =? 0) = false) by (apply Z.eqb_neq; lia).
      simpl. rewrite Hid; simpl. rewrite Z.eqb_refl; simpl. done.
    - destruct H as [-> ->]. done. }
  destruct (String.eqb type "GET_TIME"); done.
Qed.

Lemma tidy_run history : ∀ s, Stopwatch.tidy s → Stopwatch.tidy (run history s).2.
Proof.
  induction history as [|[now h] later IH]; intros s Ht; [done|].
  simpl.
  assert (Ht' := tidy_happen now h s Ht).
  destruct (happen now h s) as [p s1]. simpl in Ht'.
  specialize (IH s1 Ht').
  by destruct (run later s1) as [p' s2].
Qed.

(** X16: After any messages and ticks, in any order and at any clock
    readings, a tick of 100 ms makes the worker post one time update when the
    timer is running and none when it is not: starting, stopping and
    resetting never leave a second interval or a stale one behind. *)
Theorem one_update_a_tick_while_running history now :
  let s := (run history loaded).2 in
  if isRunning (variables s)
  then ∃ t, startTime (variables s) = Some t
            ∧ (happen now Elapsed s).1 = [TIME_UPDATE (now - t)]
  else (happen now Elapsed s).1 = [].
Proof.
  intros s.
  assert (Ht : Stopwatch.tidy s).
  { apply tidy_run. unfold Stopwatch.tidy; simpl. split; [lia|done]. }
  destruct Ht as [_ Ht]. simpl.
  destruct (isRunning (variables s)) eqn:Hrun.
  - destruct Ht as (_ & [t Ht] & _ & ->).
    exists t. split; [done|].
    simpl. unfold onInterval. by rewrite Ht, Hrun.
  - destruct Ht as [_ ->]. done.
Qed.

End TimerWorkerIntervals.

(** * The times of the ranking *)

Section RankingFacts.
Import Ranking.
Local Open Scope Z_scope.

Lemma String_length_append (a b : string) :
  String.length (a +:+ b) = (String.length a + String.length b)%nat.
Proof.
  induction a as [|c a IH]; [done|].
  change (S (String.length (a +:+ b)) = S (String.length a + String.length b)).
  by rewrite IH.
Qed.

Lemma String_app_inj_r (a a' b b' : string) :
  a +:+ b = a' +:+ b' → String.length b = String.length b' → a = a' ∧ b = b'.
Proof.
  revert a'. induction a as [|c a IH]; intros [|c' a'] Heq Hlen.
  - done.
  - change (b = String c' (a' +:+ b')) in Heq.
    rewrite Heq in Hlen. simpl in Hlen. rewrite String_length_append in Hlen. lia.
  - change (String c (a +:+ b) = b') in Heq.
    rewrite <- Heq in Hlen. simpl in Hlen. rewrite String_length_append in Hlen. lia.
  - change (String c (a +:+ b) = String c' (a' +:+ b')) in Heq.
    injection Heq as -> Heq. destruct (IH _ Heq Hlen) as [-> ->]. done.
Qed.

Lemma NoDup_map_inj {A B} (f : A → B) (l : list A) a b :
  List.NoDup (List.map f l) → List.In a l → List.In b l → f a = f b → a = b.
Proof.
  induction l as [|x l IH]; simpl; [done|].
  intros Hnd Ha Hb Heq. inversion Hnd as [|? ? Hnotin Hnd']; subst.
  destruct Ha as [->|Ha], Hb as [->|Hb]; try done.
  - exfalso. apply Hnotin. rewrite Heq. by apply List.in_map.
  - exfalso. apply Hnotin. rewrite <- Heq. by apply List.in_map.
  - by apply IH.
Qed.

Lemma below_100 n : 0 <= n < 100 → List.In n (List.map Z.of_nat (List.seq 0 100)).
Proof.
  intros Hn. apply List.in_map_iff. exists (Z.to_nat n).
  split; [lia|]. apply List.in_seq. lia.
Qed.

Lemma two_length n : 0 <= n < 100 → String.length (padStart2 (pretty n)) = 2%nat.
Proof.
  intros Hn.
  assert (Hall : forallb (fun n => Nat.eqb (String.length (padStart2 (pretty n))) 2)
                   (List.map Z.of_nat (List.seq 0 100)) = true)
    by (vm_compute; reflexivity).
  apply Nat.eqb_eq.
  exact (proj1 (List.forallb_forall _ _) Hall n (below_100 n Hn)).
Qed.

Lemma two_inj a b :
  0 <= a < 100 → 0 <= b < 100 →
  padStart2 (pretty a) = padStart2 (pretty b) → a = b.
Proof.
  intros Ha Hb.
  apply (NoDup_map_inj (fun n : Z => padStart2 (pretty n))
           (List.map Z.of_nat (List.seq 0 100))); [|by apply below_100..].
  apply NoDup_ListNoDup.
  assert (Hnd : bool_decide (NoDup (List.map (fun n : Z => padStart2 (pretty n))
                   (List.map Z.of_nat (List.seq 0 100)))) = true)
    by (vm_compute; reflexivity).
  by apply bool_decide_eq_true in Hnd.
Qed.

Lemma pretty_N_go_length x : ∀ s,
  (String.length s <= String.length (pretty_N_go x s))%nat.
Proof.
  induction (N.lt_wf_0 x) as [x _ IH]; intros s.
  destruct (decide (x = 0%N)) as [->|Hx].
  - by rewrite pretty_N_go_0.
  - rewrite pretty_N_go_step by lia.
    etrans; [|apply IH; apply N.div_lt; lia]. simpl. lia.
Qed.

Lemma pretty_long n : 100 <= n → (3 <= String.length (pretty n))%nat.
Proof.
  intros Hn. destruct n as [|p|p]; try lia.
  change (pretty (Z.pos p)) with (pretty_N_go (N.pos p) EmptyString).
  set (x := N.pos p). assert (Hx : (100 <= x)%N) by lia. clearbody x.
  rewrite pretty_N_go_step by lia.
  rewrite pretty_N_go_step by (apply N.div_str_pos; lia).
  rewrite pretty_N_go_step.
  2:{ apply N.div_str_pos. split; [lia|]. apply N.div_le_lower_bound; lia. }
  etrans; [|apply pretty_N_go_length]. simpl. lia.
Qed.

Lemma padStart2_long s : (2 <= String.length s)%nat → padStart2 s = s.
Proof. unfold padStart2. destruct s as [|c [|c' s]]; simpl; [lia..|done]. Qed.

Lemma minutes_inj a b :
  0 <= a → 0 <= b → padStart2 (pretty a) = padStart2 (pretty b) → a = b.
Proof.
  intros Ha Hb Heq.
  destruct (decide (a < 100)) as [Ha'|Ha'], (decide (b < 100)) as [Hb'|Hb'].
  - apply two_inj; [lia..|done].
  - assert (Hl := two_length a ltac:(lia)).
    assert (Hl' := pretty_long b ltac:(lia)).
    rewrite Heq, padStart2_long in Hl by lia. lia.
  - assert (Hl := two_length b ltac:(lia)).
    assert (Hl' := pretty_long a ltac:(lia)).
    rewrite <- Heq, padStart2_long in Hl by lia. lia.
  - assert (Hl := pretty_long a ltac:(lia)).
    assert (Hl' := pretty_long b ltac:(lia)).
    rewrite !padStart2_long in Heq by lia.
    by apply (inj pretty).
Qed.

Lemma formatTime_parts t :
  0 <= t →
  0 <= t `div` 60000
  ∧ 0 <= (t `rem` 60000) `div` 1000 < 60
  ∧ 0 <= (t `rem` 1000) `div` 10 < 100
  ∧ t `div` 10 = (t `div` 60000) * 6000 + ((t `rem` 60000) `div` 1000) * 100
                 + (t `rem` 1000) `div` 10.
Proof.
  intros Ht. rewrite !Z.rem_mod_nonneg by lia.
  pose proof (Z.div_mod t 60000 ltac:(lia)).
  pose proof (Z.mod_pos_bound t 60000 ltac:(lia)).
  pose proof (Z.div_mod t 1000 ltac:(lia)).
  pose proof (Z.mod_pos_bound t 1000 ltac:(lia)).
  pose proof (Z.div_mod t 10 ltac:(lia)).
  pose proof (Z.mod_pos_bound t 10 ltac:(lia)).
  pose proof (Z.div_mod (t `mod` 60000) 1000 ltac:(lia)).
  pose proof (Z.mod_pos_bound (t `mod` 60000) 1000 ltac:(lia)).
  pose proof (Z.div_mod (t `mod` 1000) 10 ltac:(lia)).
  pose proof (Z.mod_pos_bound (t `mod` 1000) 10 ltac:(lia)).
  assert (0 <= t `div` 60000) by (apply Z.div_pos; lia).
  lia.
Qed.

Lemma formatTime_tail_length t :
  0 <= t →
  String.length (":" +:+ padStart2 (pretty ((t `rem` 60000) `div` 1000))
                 +:+ "." +:+ padStart2 (pretty ((t `rem` 1000) `div` 10))) = 6%nat.
Proof.
  intros Ht. destruct (formatTime_parts t Ht) as (_ & Hs & Hc & _).
  rewrite !String_length_append, two_length, (two_length _ Hc) by lia. done.
Qed.

(** X17: Two times of the ranking, in whole milliseconds from zero on,
    are shown by the same text exactly when they agree to the hundredth of a
    second; a time under a hundred minutes is shown in eight characters. *)
Theorem formatTime_tells_hundredths t1 t2 :
  wholeMilliseconds t1 → wholeMilliseconds t2 →
  (formatTime t1 = formatTime t2 ↔ t1 `div` 10 = t2 `div` 10)
  ∧ (t1 < 6000000 → String.length (formatTime t1) = 8%nat).
Proof.
  intros [H1 _] [H2 _].
  destruct (formatTime_parts t1 H1) as (Hm1 & Hs1 & Hc1 & Hsum1).
  destruct (formatTime_parts t2 H2) as (Hm2 & Hs2 & Hc2 & Hsum2).
  split; [split|].
  - unfold formatTime. intros Heq.
    apply String_app_inj_r in Heq
      as [Hm Heq]; [|by rewrite !formatTime_tail_length].
    apply minutes_inj in Hm; [|done..].
    change (String ":" (padStart2 (pretty ((t1 `rem` 60000) `div` 1000))
                        +:+ "." +:+ padStart2 (pretty ((t1 `rem` 1000) `div` 10)))
            = String ":" (padStart2 (pretty ((t2 `rem` 60000) `div` 1000))
                          +:+ "." +:+ padStart2 (pretty ((t2 `rem` 1000) `div` 10))))
      in Heq.
    injection Heq as Heq.
    apply String_app_inj_r in Heq as [Hs Heq].
    2:{ rewrite !String_length_append, (two_length _ Hc1), (two_length _ Hc2). done. }
    apply two_inj in Hs; [|lia..].
    change (String "." (padStart2 (pretty ((t1 `rem` 1000) `div` 10)))
            = String "." (padStart2 (pretty ((t2 `rem` 1000) `div` 10)))) in Heq.
    injection Heq as Hc.
    apply two_inj in Hc; [|done..].
    lia.
  - intros Heq. unfold formatTime.
    assert (t1 `div` 60000 = t2 `div` 60000 
            ∧ (t1 `rem` 60000) `div` 1000 = (t2 `rem` 60000) `div` 1000
            ∧ (t1 `rem` 1000) `div` 10 = (t2 `rem` 1000) `div` 10) as (-> & -> & ->); [|done].
    lia.
  - intros Hlt. unfold formatTime.
    rewrite String_length_append, formatTime_tail_length by done.
    rewrite two_length; [done|].
    split; [done|]. apply Z.div_lt_upper_bound; lia.
Qed.

Lemma formatTime_tells_hundredths_witness :
  formatTime 83456 = "01:23.45" ∧ formatTime 83451 = formatTime 83456
  ∧ formatTime 83446 ≠ formatTime 83456.
Proof.
  destruct (formatTime_tells_hundredths 83451 83456 ltac:(unfold wholeMilliseconds, MAX_SAFE_INTEGER; lia) ltac:(unfold wholeMilliseconds, MAX_SAFE_INTEGER; lia)) as [Hsame _].
  destruct (formatTime_tells_hundredths 83446 83456 ltac:(unfold wholeMilliseconds, MAX_SAFE_INTEGER; lia) ltac:(unfold wholeMilliseconds, MAX_SAFE_INTEGER; lia)) as [Hother _].
  split; [vm_compute; reflexivity|].
  split; [apply Hsame; reflexivity|].
  intros Heq. apply Hother in Heq. vm_compute in Heq. discriminate.
Defined.

End RankingFacts.

(** * From the ledger to the dashboard *)

Section DashboardFacts.
Import PassIncident Architecture.

Lemma shown_snoc images image :
  shown (images ++ [image]) = passOn (shown images) image.
Proof. unfold shown. by rewrite fold_left_app. Qed.

Lemma written_snoc images image :
  written (images ++ [image])
  = match ComponentName image, CurrentState image with
    | Some component, Some state => <[component := state]> (written images)
    | _, _ => written images
    end.
Proof. unfold written. by rewrite fold_left_app. Qed.

Ltac chain c :=
  repeat match goal with
         | |- context [String.eqb c ?x] => destruct (String.eqb_spec c x) as [->|?]
         end.

Lemma passOn_other icons c s st component icon :
  In (component, icon)
     [("ALB SG", albState); ("EC2 SG", ec2sgState); ("RDS SG", rdssgState);
      ("S3", s3State); ("CloudTrail", cloudtrailState)] →
  c ≠ component →
  icon (passOn icons (mkNewImage (Some c) (Some s) st)) = icon icons.
Proof.
  intros Hin Hne. unfold passOn, handler, receive. cbn [ComponentName CurrentState].
  cbv zeta.
  chain c; try done.
  all: destruct (String.eqb s "Green"), (String.eqb s "Red"); cbn.
  all: try reflexivity.
  all: simpl in Hin; destruct Hin as [Hin|[Hin|[Hin|[Hin|[Hin|[]]]]]]; injection Hin as <- <-;
        done.
Qed.

Lemma passOn_idle icons st :
  passOn icons (mkNewImage None None st) = icons
  ∧ (∀ s, passOn icons (mkNewImage None (Some s) st) = icons)
  ∧ (∀ c, passOn icons (mkNewImage (Some c) None st) = icons).
Proof. unfold passOn, handler. simpl. by destruct st. Qed.

(** X18: When the changes of the component tables are passed on to the
    dashboard in the order they were written, the icon of the load balancer
    group, of the instance group, of the database group, of the bucket and of
    the trail shows an incident if the state last written for the component
    is Red, and none if it is Green. *)
Theorem icon_shows_the_state_last_written images component icon state :
  In (component, icon)
     [("ALB SG", albState); ("EC2 SG", ec2sgState); ("RDS SG", rdssgState);
      ("S3", s3State); ("CloudTrail", cloudtrailState)] →
  written images !! component = Some state →
  (state = "Red" → icon (shown images) = incident)
  ∧ (state = "Green" → icon (shown images) = normal).
Proof.
  intros Hin. revert state.
  induction images as [|image images IH] using rev_ind; intros state Hw; [done|].
  rewrite shown_snoc. rewrite written_snoc in Hw.
  destruct image as [[c|] [s|] st]; cbn [ComponentName CurrentState] in Hw.
  - destruct (decide (c = component)) as [->|Hne].
    + rewrite lookup_insert_eq in Hw. injection Hw as ->.
      simpl in Hin.
      destruct Hin as [Hin|[Hin|[Hin|[Hin|[Hin|[]]]]]]; injection Hin as <- <-;
        (split; intros ->; reflexivity).
    + rewrite lookup_insert_ne in Hw by done.
      rewrite (passOn_other _ c s st component icon Hin Hne). by apply IH.
  - rewrite (proj2 (proj2 (passOn_idle _ st))). by apply IH.
  - rewrite (proj1 (proj2 (passOn_idle _ st))). by apply IH.
  - rewrite (proj1 (passOn_idle _ st)). by apply IH.
Qed.

Lemma icon_shows_the_state_last_written_witness :
  let images := [mkNewImage (Some "S3") (Some "Red") None;
                 mkNewImage (Some "EC2 SG") (Some "Red") None;
                 mkNewImage None None (Some "Ongoing");
                 mkNewImage (Some "EC2 SG") (Some "Green") None] in
  s3State (shown images) = incident ∧ ec2sgState (shown images) = normal.
Proof.
  intros images. split.
  - apply (icon_shows_the_state_last_written images "S3" s3State "Red");
      [simpl; tauto | vm_compute; reflexivity | reflexivity].
  - apply (icon_shows_the_state_last_written images "EC2 SG" ec2sgState "Green");
      [simpl; tauto | vm_compute; reflexivity | reflexivity].
Defined.

Lemma passOn_ec2 icons image :
  ec2State (passOn icons image) = ec2State icons
  ∨ ∃ c s, ComponentName image = Some c ∧ CurrentState image = Some s
           ∧ In c ["EC2 Role"; "EC2"; "EC2 Process"]
           ∧ ((s = "Red" ∧ ec2State (passOn icons image) = incident)
              ∨ (s = "Green" ∧ ec2State (passOn icons image) = normal)).
Proof.
  destruct image as [[c|] [s|] st].
  2-4: left; unfold passOn, handler; simpl; by destruct st.
  unfold passOn, handler, receive. cbn [ComponentName CurrentState]. cbv zeta.
  chain c.
  all: destruct (String.eqb_spec s "Green") as [->|?];
       [|destruct (String.eqb_spec s "Red") as [->|?]]; cbn.
  all: try (left; reflexivity).
  all: right; eexists _, _; split_and!; try reflexivity; simpl; tauto.
Qed.

Lemma shown_app images images' :
  shown (images ++ images') = fold_left passOn images' (shown images).
Proof. unfold shown. by rewrite fold_left_app. Qed.

Lemma fold_passOn_ec2 after : ∀ icons,
  Forall (fun image => ∀ c, ComponentName image = Some c
                            → ¬ In c ["EC2 Role"; "EC2"; "EC2 Process"]) after →
  ec2State (fold_left passOn after icons) = ec2State icons.
Proof.
  induction after as [|image after IH]; intros icons Hafter; [done|].
  apply Forall_cons in Hafter as [Himage Hafter].
  simpl. rewrite (IH _ Hafter).
  destruct (passOn_ec2 icons image) as [Hsame|(c & s & Hc & _ & Hin & _)]; [done|].
  by destruct (Himage c Hc).
Qed.

(** X19: The three components of the instances (role, instance, process)
    share one icon: with the changes passed on in the order they were written,
    it shows the state of the one written last, Red as an incident and Green
    as none, whatever the other two hold. *)
Theorem ec2_icon_follows_the_last_written before component state st after :
  In component ["EC2 Role"; "EC2"; "EC2 Process"] →
  Forall (fun image => ∀ c, ComponentName image = Some c
                            → ¬ In c ["EC2 Role"; "EC2"; "EC2 Process"]) after →
  let images := before ++ mkNewImage (Some component) (Some state) st :: after in
  (state = "Red" → ec2State (shown images) = incident)
  ∧ (state = "Green" → ec2State (shown images) = normal).
Proof.
  intros Hin Hafter images. unfold images.
  rewrite shown_app. simpl. rewrite (fold_passOn_ec2 _ _ Hafter).
  simpl in Hin.
  destruct Hin as [<-|[<-|[<-|[]]]]; split; intros ->; reflexivity.
Qed.

Lemma ec2_icon_follows_the_last_written_witness :
  let images := [mkNewImage (Some "EC2 Role") (Some "Red") None;
                 mkNewImage (Some "EC2 Process") (Some "Green") None;
                 mkNewImage (Some "S3") (Some "Red") None] in
  written images !! "EC2 Role" = Some "Red"
  ∧ ec2State (shown images) = normal.
Proof.
  intros images. split; [vm_compute; reflexivity|].
  apply (ec2_icon_follows_the_last_written
           [mkNewImage (Some "EC2 Role") (Some "Red") None]
           "EC2 Process" "Green" None
           [mkNewImage (Some "S3") (Some "Red") None]).
  - simpl. tauto.
  - repeat constructor. intros c Hc. injection Hc as <-. simpl.
    intros [H|[H|[H|[]]]]; discriminate.
  - reflexivity.
Defined.

End DashboardFacts.
